(** * A shallow embedding of the rhythm quiz engine

    The development follows the TypeScript sources:
    - [types.ts]: [GameStatus], [HandType], [CutDirection], [NoteData],
      [HandPositions];
    - [constants.ts]: the world constants, the curriculum and
      [generateDemoChart];
    - [App.tsx]: the scoring handlers [handleNoteHit], [handleNoteMiss],
      [startGame] and [endGame];
    - [components/GameScene.tsx]: the per-frame callback [useFrame].

    Numbers.  JavaScript numbers are doubles.  Scores, combos, health and
    beats are small integers and are modelled in [Z]; times and coordinates
    are modelled as exact rationals in [Q], and the distance of a hand to a
    note is compared with the hit radius between the squares.  The velocity
    of a hand is kept in binary64 ([float]): its speed is computed and
    compared with the threshold as the code does it, each operation rounded
    to nearest.

    Objects.  The note objects of a chart are shared between [notesState]
    and [activeNotesRef]: the model keeps them in one list (the store) and a
    reference to a note is its index in that list.

    State.  The updates that the handlers of [App] make during a frame are
    queued by React and applied at the render that follows the frame; the
    timeouts registered with delay 0 run after that render.  [App.State]
    says how the queues are kept. *)

From Stdlib Require Import ZArith QArith Qabs Qround Lia Lqa DecimalString
  DecimalNat DecimalFacts Permutation PrimFloat.
From stdpp Require Import base list strings sorting.

Local Open Scope Z_scope.
#[local] Set Warnings "-inexact-float".

(** ** types.ts *)

Inductive GameStatus := LOADING | IDLE | PLAYING | GAME_OVER | VICTORY.

Module HandType.
Inductive t := left | right.
End HandType.

Inductive CutDirection := UP | DOWN | LEFT | RIGHT | ANY.

(** [lineIndex] is read from [lanes[k]], which JavaScript evaluates to
    [undefined] when [k] is out of range: [None] stands for [undefined].
    The optional flags [hit] and [missed] are only tested for truthiness, so
    an absent flag is [false]. *)
Record NoteData := {
  id : string;
  time : Q;
  lineIndex : option nat;
  lineLayer : nat;
  type : HandType.t;
  cutDirection : CutDirection;
  text : string;
  isCorrect : bool;
  instruction : string;
  hit : bool;
  missed : bool;
  hitTime : option Q
}.

Record Vector3 := { x : Q; y : Q; z : Q }.

(** The [THREE.Vector3] of a hand's velocity, with its components as the
    binary64 numbers they are.  [length] is the method
    [Math.sqrt(this.x * this.x + this.y * this.y + this.z * this.z)]. *)
Module Velocity.
Record t := { x : float; y : float; z : float }.

Definition length (v : t) : float :=
  PrimFloat.sqrt (x v * x v + y v * y v + z v * z v)%float.
End Velocity.

Module HandPositions.
Record t := {
  left : option Vector3;
  right : option Vector3;
  leftVelocity : Velocity.t;
  rightVelocity : Velocity.t
}.
End HandPositions.

(** Strict comparison of two doubles, on rationals. *)
Definition Qltb (a b : Q) : bool := negb (Qle_bool b a).

(** ** constants.ts *)

Definition SPAWN_Z : Q := -35.
Definition PLAYER_Z : Q := 0.
Definition MISS_Z : Q := 5.
Definition NOTE_SPEED : Q := 8.
Definition LANE_WIDTH : Q := 12 # 10.

Definition LANE_X_POSITIONS : list Q :=
  [ (-15 # 10) * LANE_WIDTH; (-5 # 10) * LANE_WIDTH;
    (5 # 10) * LANE_WIDTH; (15 # 10) * LANE_WIDTH ]%Q.
Definition LAYER_Y_POSITIONS : list Q := [ 1; 18 # 10; 26 # 10 ]%Q.

Definition SONG_BPM : Q := 140.
Definition BEAT_TIME : Q := 60 / SONG_BPM.

Module QuestionSet.
Record t := {
  instruction : string;
  correct : string;
  distractors : list string
}.
End QuestionSet.

Definition Q_ (i c : string) (d : list string) : QuestionSet.t :=
  {| QuestionSet.instruction := i; QuestionSet.correct := c;
     QuestionSet.distractors := d |}.

Definition PHRASE_CURRICULUM : list QuestionSet.t := [
  Q_ "Yesterday, I ___ to the store." "WENT" ["GO"; "GONE"; "GOING"];
  Q_ "She ___ a beautiful song." "SANG" ["SING"; "SUNG"; "SINGED"];
  Q_ "We have ___ the game!" "WON" ["WIN"; "WINNED"; "WAN"];
  Q_ "The sun ___ in the East." "RISES" ["ROSE"; "RISE"; "RISING"];
  Q_ "I am ___ a book right now." "READING" ["READ"; "READS"; "RED"];
  Q_ "They ___ pizza last night." "ATE" ["EAT"; "EATED"; "EATING"];
  Q_ "He ___ his keys yesterday." "LOST" ["LOSE"; "LOSES"; "LOSED"];
  Q_ "My dog ___ very fast." "RUNS" ["RUN"; "RAN"; "RUNNING"];
  Q_ "We ___ happy to see you." "ARE" ["IS"; "AM"; "BE"];
  Q_ "She ___ English well." "SPEAKS" ["SPEAK"; "SPOKE"; "SPOKEN"];
  Q_ "I ___ my homework already." "DID" ["DO"; "DONE"; "DOES"];
  Q_ "It ___ heavily last winter." "SNOWED" ["SNOW"; "SNOWS"; "SNOWING"];
  Q_ "Opposite of: HAPPY" "SAD" ["GLAD"; "JOY"; "FUN"];
  Q_ "Plural of: CHILD" "CHILDREN" ["CHILDS"; "KIDS"; "BABY"];
  Q_ "Past of: BUY" "BOUGHT" ["BUYED"; "BUYS"; "BUYING"]
]%string.

(** [`note-${n}`] *)
Definition note_id (n : nat) : string :=
  ("note-" ++ NilZero.string_of_uint (Nat.to_uint n))%string.

(** [lanes[k] < 2 ? 'left' : 'right']; [undefined < 2] is false. *)
Definition hand_of_lane (lane : option nat) : HandType.t :=
  match lane with
  | Some l => if (l <? 2)%nat then HandType.left else HandType.right
  | None => HandType.right
  end.

(** [notes.sort((a, b) => a.time - b.time)].  [Array.prototype.sort] is
    stable, and the result of a stable sort under a consistent comparator is
    unique; it is computed here by insertion from the right. *)
Fixpoint insert_by_time (n : NoteData) (l : list NoteData) : list NoteData :=
  match l with
  | [] => [n]
  | m :: l' =>
      if Qle_bool (time n) (time m) then n :: m :: l'
      else m :: insert_by_time n l'
  end.

Definition sort_by_time (l : list NoteData) : list NoteData :=
  foldr insert_by_time [] l.

Section Generator.
(** The randomness consumed by the generator.  [Rng] is the state of the
    random source and [sort_random l r] is
    [l.sort(() => Math.random() - 0.5)] run from the state [r]: the
    reordered array and the state that is left. *)
Context {Rng : Type}.
Variable sort_random : list nat -> Rng -> list nat * Rng.

Definition numDistractors (difficultyMultiplier : Q) : Z :=
  Z.min 3 (1 + Qfloor difficultyMultiplier).

(** The object literal pushed for the correct answer; [lanes] is the
    shuffled lane array and [c] the value of [idCount]. *)
Definition correctNote (q : QuestionSet.t) (t : Q) (lanes : list nat)
    (c : nat) : NoteData :=
  {| id := note_id c;
     time := t;
     lineIndex := lanes !! 0%nat;
     lineLayer := 0;
     type := hand_of_lane (lanes !! 0%nat);
     cutDirection := ANY;
     text := QuestionSet.correct q;
     isCorrect := true;
     instruction := QuestionSet.instruction q;
     hit := false; missed := false; hitTime := None |}.

(** The object literal pushed for the distractor [d = q.distractors[i]]. *)
Definition distractorNote (q : QuestionSet.t) (t : Q) (lanes : list nat)
    (i c : nat) (d : string) : NoteData :=
  {| id := note_id c;
     time := t;
     lineIndex := lanes !! (i + 1)%nat;
     lineLayer := if Nat.even i then 1%nat else 0%nat;
     type := hand_of_lane (lanes !! (i + 1)%nat);
     cutDirection := ANY;
     text := d;
     isCorrect := false;
     instruction := QuestionSet.instruction q;
     hit := false; missed := false; hitTime := None |}.

(** The [for] loop over the distractors: [n] iterations remain from
    index [i], and the loop leaves early once [i >= q.distractors.length].
    The accumulator is the pair of [notes] and [idCount]. *)
Fixpoint pushDistractors (n i : nat) (q : QuestionSet.t) (t : Q)
    (lanes : list nat) (acc : list NoteData * nat) : list NoteData * nat :=
  match n with
  | O => acc
  | S n' =>
      match QuestionSet.distractors q !! i with
      | None => acc
      | Some d =>
          pushDistractors n' (S i) q t lanes
            (acc.1 ++ [distractorNote q t lanes i acc.2 d], S acc.2)
      end
  end.

Record GenState := {
  notes : list NoteData;
  idCount : nat;
  currentBeat : Z;
  rng : Rng
}.

(** The body of [PHRASE_CURRICULUM.forEach]. *)
Definition forEachBody (difficultyMultiplier : Q) (st : GenState)
    (q : QuestionSet.t) : GenState :=
  let t := (inject_Z (currentBeat st) * BEAT_TIME)%Q in
  let '(lanes, r) := sort_random [0; 1; 2; 3]%nat (rng st) in
  let '(ns, c) :=
    pushDistractors (Z.to_nat (numDistractors difficultyMultiplier)) 0 q t
      lanes (notes st ++ [correctNote q t lanes (idCount st)], S (idCount st)) in
  {| notes := ns; idCount := c; currentBeat := currentBeat st + 10; rng := r |}.

Definition genInit (r : Rng) : GenState :=
  {| notes := []; idCount := 0; currentBeat := 8; rng := r |}.

(** [generateDemoChart] with the curriculum it iterates over made a
    parameter. *)
Definition generateChart (curriculum : list QuestionSet.t)
    (difficultyMultiplier : Q) (r : Rng) : list NoteData :=
  sort_by_time (notes (foldl (forEachBody difficultyMultiplier) (genInit r) curriculum)).

Definition generateDemoChart (difficultyMultiplier : Q) (r : Rng) : list NoteData :=
  generateChart PHRASE_CURRICULUM difficultyMultiplier r.

(** [export const DEMO_CHART = generateDemoChart()]: the default
    difficulty is 1. *)
Definition DEMO_CHART (r : Rng) : list NoteData := generateDemoChart 1 r.
End Generator.

(** *** One engine's [sort] with the random comparator

    ECMAScript leaves the order produced under an inconsistent comparator
    to the implementation.  The instance below is the insertion sort that
    engines run on short arrays, with [Math.random] read from a stream of
    draws; it makes the generator executable.  The theorems on the generator
    hold for every [sort_random] that returns a rearrangement of its
    argument. *)
Module Engine.
Record Rng := { draws : nat -> Q; cursor : nat }.

Definition Math_random (r : Rng) : Q * Rng :=
  (draws r (cursor r), {| draws := draws r; cursor := S (cursor r) |}).

(** The comparator [() => Math.random() - 0.5]. *)
Definition comparefn (r : Rng) : Q * Rng :=
  let '(u, r') := Math_random r in ((u - (1 # 2))%Q, r').

(** The inner loop: [element] moves left past [tmp] while
    [comparefn(tmp, element) > 0].  [before] is the sorted prefix, last
    element first; the result is the new prefix in the same direction. *)
Fixpoint shift_in (before : list nat) (element : nat) (r : Rng) : list nat * Rng :=
  match before with
  | [] => ([element], r)
  | tmp :: rest =>
      let '(order, r') := comparefn r in
      if Qltb 0 order then
        let '(l, r'') := shift_in rest element r' in (tmp :: l, r'')
      else (element :: tmp :: rest, r')
  end.

Fixpoint insertion (before todo : list nat) (r : Rng) : list nat * Rng :=
  match todo with
  | [] => (rev before, r)
  | element :: todo' =>
      let '(before', r') := shift_in before element r in
      insertion before' todo' r'
  end.

Definition sort_random (l : list nat) (r : Rng) : list nat * Rng :=
  insertion [] l r.

Definition constant (u : Q) : Rng := {| draws := fun _ => u; cursor := 0 |}.
Definition alternating : Rng :=
  {| draws := fun n => if Nat.even n then (3 # 4)%Q else (1 # 4)%Q; cursor := 0 |}.
End Engine.


(** ** App.tsx: the scoring and session state *)

#[global] Instance GameStatus_eq_dec : EqDecision GameStatus.
Proof. solve_decision. Defined.

Module App.
(** The React state cells of [App] that the engine reads and writes.

    React queues the updates that are made while a frame is handled and
    applies them when it renders [App] next, the queue of each cell in the
    order of the calls; a function given to [setCombo], [setScore] or
    [setHealth] is put in the queue as it is, and is called during that
    render with the value that the cell has by then.  Each of these
    functions reads only its own cell, so the cells below hold the value
    that the queue of the cell gives so far.
    For [multiplier] that covers the calls [setMultiplier(1)] which the
    handlers make themselves.  The calls of [setMultiplier] written inside
    the function given to [setCombo] are made when React runs that function,
    at the render, and so they follow every update that was queued before
    the render: [inUpdater] holds their arguments, in the order of the
    calls, until [render] applies them.

    [timeouts] holds the callbacks registered by
    [setTimeout(() => endGame(false), 0)] that have not run yet, each
    given by the argument of its [endGame] call; they run after the
    render. *)
Record State := {
  gameStatus : GameStatus;
  score : Z;
  combo : Z;
  multiplier : Z;
  health : Z;
  instruction : string;
  inUpdater : list Z;
  timeouts : list bool
}.

Definition setGameStatus (v : GameStatus) (s : State) : State :=
  {| gameStatus := v; score := score s; combo := combo s;
     multiplier := multiplier s; health := health s;
     instruction := instruction s; inUpdater := inUpdater s;
     timeouts := timeouts s |}.
Definition setScore (v : Z) (s : State) : State :=
  {| gameStatus := gameStatus s; score := v; combo := combo s;
     multiplier := multiplier s; health := health s;
     instruction := instruction s; inUpdater := inUpdater s;
     timeouts := timeouts s |}.
Definition setCombo (v : Z) (s : State) : State :=
  {| gameStatus := gameStatus s; score := score s; combo := v;
     multiplier := multiplier s; health := health s;
     instruction := instruction s; inUpdater := inUpdater s;
     timeouts := timeouts s |}.
Definition setMultiplier (v : Z) (s : State) : State :=
  {| gameStatus := gameStatus s; score := score s; combo := combo s;
     multiplier := v; health := health s;
     instruction := instruction s; inUpdater := inUpdater s;
     timeouts := timeouts s |}.
Definition setHealth (v : Z) (s : State) : State :=
  {| gameStatus := gameStatus s; score := score s; combo := combo s;
     multiplier := multiplier s; health := v;
     instruction := instruction s; inUpdater := inUpdater s;
     timeouts := timeouts s |}.
Definition setInstruction (v : string) (s : State) : State :=
  {| gameStatus := gameStatus s; score := score s; combo := combo s;
     multiplier := multiplier s; health := health s;
     instruction := v; inUpdater := inUpdater s;
     timeouts := timeouts s |}.
Definition setInUpdater (v : list Z) (s : State) : State :=
  {| gameStatus := gameStatus s; score := score s; combo := combo s;
     multiplier := multiplier s; health := health s;
     instruction := instruction s; inUpdater := v;
     timeouts := timeouts s |}.
Definition setTimeouts (v : list bool) (s : State) : State :=
  {| gameStatus := gameStatus s; score := score s; combo := combo s;
     multiplier := multiplier s; health := health s;
     instruction := instruction s; inUpdater := inUpdater s;
     timeouts := v |}.

(** [setMultiplier(v)] called from inside the function given to
    [setCombo]. *)
Definition setMultiplier_inUpdater (v : Z) (s : State) : State :=
  setInUpdater (inUpdater s ++ [v]) s.

(** [setTimeout(() => endGame(victory), 0)] *)
Definition setTimeout_endGame (victory : bool) (s : State) : State :=
  setTimeouts (timeouts s ++ [victory]) s.

(** The values given to [useState]. *)
Definition initial : State :=
  {| gameStatus := LOADING; score := 0; combo := 0; multiplier := 1;
     health := 100; instruction := "Get Ready..."; inUpdater := [];
     timeouts := [] |}.

(** [handleNoteHit] is created by [useCallback(..., [multiplier])]: the
    [multiplier] it reads is the value of the state cell at the render
    that created the handler, here the argument [multiplier_at_render];
    the functional updaters [c => ...], [s => ...] and [h => ...] read their
    cells.  Vibration and speech are not part of the state. *)
Definition handleNoteHit (multiplier_at_render : Z) (note : NoteData)
    (goodCut : bool) (s : State) : State :=
  if goodCut && isCorrect note then
    let newCombo := combo s + 1 in
    let s := setMultiplier_inUpdater
               (if 10 <? newCombo then 4 else if 5 <? newCombo then 2 else 1) s in
    let s := setCombo newCombo s in
    let s := setScore (score s + 100 * multiplier_at_render) s in
    setHealth (Z.min 100 (health s + 5)) s
  else
    let s := setCombo 0 s in
    let s := setMultiplier 1 s in
    let newHealth := health s - 10 in
    if newHealth <=? 0 then setHealth 0 (setTimeout_endGame false s)
    else setHealth newHealth s.

Definition handleNoteMiss (note : NoteData) (s : State) : State :=
  if isCorrect note then
    let s := setCombo 0 s in
    let s := setMultiplier 1 s in
    let newHealth := health s - 15 in
    if newHealth <=? 0 then setHealth 0 (setTimeout_endGame false s)
    else setHealth newHealth s
  else s.

(** The render that follows a frame: the queues are emptied, and the
    [setMultiplier] calls that the [setCombo] updaters make while React
    runs them are applied after the calls queued by the handlers. *)
Definition render (s : State) : State :=
  foldl (fun s v => setMultiplier v s) (setInUpdater [] s) (inUpdater s).

(** [endGame]; pausing the audio and cancelling speech are outside the
    state. *)
Definition endGame (victory : bool) (s : State) : State :=
  setGameStatus (if victory then VICTORY else GAME_OVER) s.

(** The event loop runs the registered timeout callbacks, in order. *)
Definition runTimeouts (s : State) : State :=
  foldl (fun s victory => endGame victory s) (setTimeouts [] s) (timeouts s).

(** [startGame]; [played] tells whether [audioRef.current.play()]
    resolved.  [setChart(generateDemoChart())] replaces the [chart] prop,
    which [GameScene] reads only once, as the initial value of
    [notesState]. *)
Definition startGame (isCameraReady played : bool) (s : State) : State :=
  if negb isCameraReady then s
  else
    let s := setScore 0 s in
    let s := setCombo 0 s in
    let s := setMultiplier 1 s in
    let s := setHealth 100 s in
    let s := setInstruction "Get Ready..." s in
    if played then setGameStatus PLAYING s else s.

(** The effect on [isCameraReady, gameStatus]. *)
Definition cameraEffect (isCameraReady : bool) (s : State) : State :=
  if bool_decide (gameStatus s = LOADING) && isCameraReady
  then setGameStatus IDLE s else s.
End App.

(** ** components/GameScene.tsx *)

Module Audio.
(** The fields of [audioRef.current] that the scene reads. *)
Record t := { currentTime : Q; ended : bool }.
End Audio.

Definition distanceToSquared (a b : Vector3) : Q :=
  ((x a - x b) * (x a - x b) + (y a - y b) * (y a - y b)
   + (z a - z b) * (z a - z b))%Q.

(** [a.distanceTo(b) < r] for a bound [r >= 0], compared between the
    squares. *)
Definition distanceTo_lt (a b : Vector3) (r : Q) : bool :=
  Qltb (distanceToSquared a b) (r * r).

(** [v.length() < r] on doubles; the comparison is false when the speed
    is [NaN]. *)
Definition length_lt (v : Velocity.t) (r : float) : bool :=
  PrimFloat.ltb (Velocity.length v) r.

Module GameScene.
(** The state of the component: the [useState] cells [notesState] and
    [currentTime], and the refs [activeNotesRef] and [nextNoteIndexRef].
    [notesState] is the store of the note objects; [activeNotesRef] holds
    references into it. *)
Record Scene := {
  notesState : list NoteData;
  currentTime : Q;
  activeNotesRef : list nat;
  nextNoteIndexRef : nat
}.

(** The component as mounted on [chart]. *)
Definition mount (chart : list NoteData) : Scene :=
  {| notesState := chart; currentTime := 0; activeNotesRef := [];
     nextNoteIndexRef := 0 |}.

Definition setCurrentTime (t : Q) (sc : Scene) : Scene :=
  {| notesState := notesState sc; currentTime := t;
     activeNotesRef := activeNotesRef sc;
     nextNoteIndexRef := nextNoteIndexRef sc |}.

(** [activeNotesRef.current.push(nextNote); nextNoteIndexRef.current++] *)
Definition spawn (sc : Scene) : Scene :=
  {| notesState := notesState sc; currentTime := currentTime sc;
     activeNotesRef := activeNotesRef sc ++ [nextNoteIndexRef sc];
     nextNoteIndexRef := S (nextNoteIndexRef sc) |}.

(** A write [f] to the note object behind the reference [r], followed by
    [activeNotesRef.current.splice(i, 1)]. *)
Definition resolve (f : NoteData -> NoteData) (r i : nat) (sc : Scene) : Scene :=
  {| notesState := alter f r (notesState sc); currentTime := currentTime sc;
     activeNotesRef := delete i (activeNotesRef sc);
     nextNoteIndexRef := nextNoteIndexRef sc |}.

(** [note.missed = true] *)
Definition markMissed (n : NoteData) : NoteData :=
  {| id := id n; time := time n; lineIndex := lineIndex n;
     lineLayer := lineLayer n; type := type n;
     cutDirection := cutDirection n; text := text n;
     isCorrect := isCorrect n; instruction := instruction n;
     hit := hit n; missed := true; hitTime := hitTime n |}.

(** [note.hit = true; note.hitTime = time] *)
Definition markHit (now : Q) (n : NoteData) : NoteData :=
  {| id := id n; time := time n; lineIndex := lineIndex n;
     lineLayer := lineLayer n; type := type n;
     cutDirection := cutDirection n; text := text n;
     isCorrect := isCorrect n; instruction := instruction n;
     hit := true; missed := missed n; hitTime := Some now |}.

Definition spawnAheadTime : Q := Qabs (SPAWN_Z - PLAYER_Z) / NOTE_SPEED.

(** The [while] loop that spawns notes; [fuel] bounds the number of
    iterations and is given as the number of notes not yet spawned. *)
Fixpoint spawnLoop (fuel : nat) (now : Q) (sc : Scene) : Scene :=
  match fuel with
  | O => sc
  | S fuel' =>
      match notesState sc !! nextNoteIndexRef sc with
      | None => sc
      | Some nextNote =>
          if Qle_bool (time nextNote - spawnAheadTime) now
          then spawnLoop fuel' now (spawn sc)
          else sc
      end
  end.

(** [vecA.set(LANE_X_POSITIONS[note.lineIndex],
    LAYER_Y_POSITIONS[note.lineLayer], currentZ)]; [None] when a lookup
    is out of range, where JavaScript computes with [undefined]. *)
Definition notePos (note : NoteData) (currentZ : Q) : option Vector3 :=
  match lineIndex note with
  | None => None
  | Some lane =>
      match LANE_X_POSITIONS !! lane, LAYER_Y_POSITIONS !! lineLayer note with
      | Some px, Some py => Some {| x := px; y := py; z := currentZ |}
      | _, _ => None
      end
  end.

Section Props.
(** The callbacks received as props act on the state [A] of the parent
    component. *)
Context {A : Type}.
Variable onNoteHit : NoteData -> bool -> A -> A.
Variable onNoteMiss : NoteData -> A -> A.
Variable onSongEnd : A -> A.
Variable setInstruction : string -> A -> A.

(** The instruction shown follows the first unresolved active note. *)
Definition updateInstruction (sc : Scene) (a : A) : A :=
  if (0 <? length (activeNotesRef sc))%nat then
    let incoming :=
      List.filter (fun n => negb (hit n) && negb (missed n))
        (omap (fun r => notesState sc !! r) (activeNotesRef sc)) in
    match incoming with
    | closest :: _ => setInstruction (instruction closest) a
    | [] => a
    end
  else a.

(** One iteration of the loop "Update & Collide Notes", at index [i] of
    [activeNotesRef.current].  A [continue] and the end of the body both
    return the state reached. *)
Definition collideNote (now : Q) (hands : HandPositions.t) (i : nat)
    (st : Scene * A) : Scene * A :=
  match activeNotesRef st.1 !! i with
  | None => st
  | Some r =>
      match notesState st.1 !! r with
      | None => st
      | Some note =>
          if hit note || missed note then st
          else
            let timeDiff := (time note - now)%Q in
            let currentZ := (PLAYER_Z - timeDiff * NOTE_SPEED)%Q in
            if Qltb MISS_Z currentZ then
              (resolve markMissed r i st.1, onNoteMiss (markMissed note) st.2)
            else if Qltb (PLAYER_Z - (15 # 10)) currentZ
                    && Qltb currentZ (PLAYER_Z + 1) then
              let handPos :=
                match type note with
                | HandType.left => HandPositions.left hands
                | HandType.right => HandPositions.right hands
                end in
              let handVel :=
                match type note with
                | HandType.left => HandPositions.leftVelocity hands
                | HandType.right => HandPositions.rightVelocity hands
                end in
              match handPos with
              | None => st
              | Some handPos =>
                  match notePos note currentZ with
                  | None => st
                  | Some notePos =>
                      if distanceTo_lt handPos notePos 1 then
                        if length_lt handVel 0.5 then st
                        else
                          let goodCut := isCorrect note in
                          (resolve (markHit now) r i st.1,
                           onNoteHit (markHit now note) goodCut st.2)
                      else st
                  end
              end
            else st
      end
  end.

(** [for (let i = activeNotesRef.current.length - 1; i >= 0; i--)]:
    [collideLoop now hands n] runs the iterations [n - 1], ..., [0]. *)
Fixpoint collideLoop (now : Q) (hands : HandPositions.t) (n : nat)
    (st : Scene * A) : Scene * A :=
  match n with
  | O => st
  | S i => collideLoop now hands i (collideNote now hands i st)
  end.

(** The first [useFrame] callback, from the guard on [gameStatus] and
    [audioRef.current] on; the beat pulse and the camera shake before
    it only write to the lights and the camera. *)
Definition useFrame (gameStatus : GameStatus) (audio : option Audio.t)
    (hands : HandPositions.t) (st : Scene * A) : Scene * A :=
  match audio with
  | None => st
  | Some au =>
      if negb (bool_decide (gameStatus = PLAYING)) then st
      else
        let now := Audio.currentTime au in
        let sc := setCurrentTime now st.1 in
        if Audio.ended au then (sc, onSongEnd st.2)
        else
          let sc :=
            spawnLoop (length (notesState sc) - nextNoteIndexRef sc) now sc in
          let a := updateInstruction sc st.2 in
          collideLoop now hands (length (activeNotesRef sc)) (sc, a)
  end.
End Props.
End GameScene.

(** ** A session: the application and the scene together *)

Module Session.
Record World := { app : App.State; scene : GameScene.Scene }.

(** What can happen between two renders: the camera becomes ready, the
    start button (shown in [IDLE]) or the menu button (shown in
    [GAME_OVER] and [VICTORY]) is pressed, or a frame is drawn.  After a
    frame React renders [App], and the timeouts registered with delay 0
    run, before the next action. *)
Inductive Action :=
| CameraReady
| StartGame (isCameraReady played : bool)
| ReturnToMenu
| Frame (audio : option Audio.t) (hands : HandPositions.t).

(** The frame callback with the props that [App] passes at this render:
    [handleNoteHit] closes over the [multiplier] of the render, and
    [onSongEnd] is [() => endGame(true)]. *)
Definition useFrame (audio : option Audio.t) (hands : HandPositions.t)
    (w : World) : GameScene.Scene * App.State :=
  GameScene.useFrame
    (App.handleNoteHit (App.multiplier (app w)))
    App.handleNoteMiss
    (App.endGame true)
    App.setInstruction
    (App.gameStatus (app w)) audio hands (scene w, app w).

Definition step (w : World) (a : Action) : World :=
  match a with
  | CameraReady =>
      {| app := App.cameraEffect true (app w); scene := scene w |}
  | StartGame isCameraReady played =>
      if bool_decide (App.gameStatus (app w) = IDLE)
      then {| app := App.startGame isCameraReady played (app w); scene := scene w |}
      else w
  | ReturnToMenu =>
      if bool_decide (App.gameStatus (app w) = GAME_OVER)
         || bool_decide (App.gameStatus (app w) = VICTORY)
      then {| app := App.setGameStatus IDLE (app w); scene := scene w |}
      else w
  | Frame audio hands =>
      let '(sc, a) := useFrame audio hands w in
      {| app := App.runTimeouts (App.render a); scene := sc |}
  end.

Definition run (w : World) (actions : list Action) : World :=
  foldl step w actions.

(** The application at load time, with the scene mounted on [chart]. *)
Definition start (chart : list NoteData) : World :=
  {| app := App.initial; scene := GameScene.mount chart |}.
End Session.

(** ** Definitions used to state the properties *)

(** The distractor notes that [pushDistractors n i] appends, and the notes
    of one question. *)
Definition distractorGroup (n i : nat) (q : QuestionSet.t) (t : Q)
    (lanes : list nat) (c : nat) : list NoteData :=
  imap (fun j d => distractorNote q t lanes (i + j) (c + j) d)
    (take n (drop i (QuestionSet.distractors q))).

Definition questionGroup (difficultyMultiplier : Q) (q : QuestionSet.t) (t : Q)
    (lanes : list nat) (c : nat) : list NoteData :=
  correctNote q t lanes c
  :: distractorGroup (Z.to_nat (numDistractors difficultyMultiplier)) 0 q t lanes (S c).

(** A note as the generator leaves it: no resolution flag is set. *)
Definition fresh (n : NoteData) : Prop := hit n = false /\ missed n = false.

(** A note whose lane and layer are valid indices of [LANE_X_POSITIONS]
    and [LAYER_Y_POSITIONS]. *)
Definition placed (n : NoteData) : Prop :=
  (exists k, lineIndex n = Some k /\ (k < 4)%nat) /\ (lineLayer n < 2)%nat.

(** Notes at different positions of [l] that share an arrival time lie in
    different lanes. *)
Definition distinct_lanes (l : list NoteData) : Prop :=
  forall i j n m, l !! i = Some n -> l !! j = Some m -> i <> j ->
    (time n == time m)%Q -> lineIndex n <> lineIndex m.

Definition time_le (n m : NoteData) : Prop := (time n <= time m)%Q.

(** The state of the notes written so far when the beat counter is [b]. *)
Definition ChartInv (b : Z) (l : list NoteData) : Prop :=
  Forall (fun n => placed n /\ fresh n /\ (time n < inject_Z b * BEAT_TIME)%Q) l
  /\ StronglySorted time_le l
  /\ distinct_lanes l.


(** A curriculum of one question with three distractors. *)
Definition WENT_only : list QuestionSet.t :=
  [Q_ "Yesterday, I ___ to the store." "WENT" ["GO"; "GONE"; "GOING"]]%string.

(** A note whose resolution flag [hit] or [missed] is set. *)
Definition resolved (n : NoteData) : bool := hit n || missed n.

(** What a frame may do to a note object: nothing, or, when no flag is set
    yet, set [missed], or set [hit] together with [hitTime]. *)
Definition evolves (n n' : NoteData) : Prop :=
  n' = n
  \/ (fresh n /\ (n' = GameScene.markMissed n
                  \/ exists now, n' = GameScene.markHit now n)).

Definition store_evolves (l l' : list NoteData) : Prop :=
  length l' = length l
  /\ forall r n, l !! r = Some n -> exists n', l' !! r = Some n' /\ evolves n n'.

(** Between two frames: the active references are distinct and point to
    spawned notes, and the notes that are active or not yet spawned have no
    flag set. *)
Definition SceneInv (sc : GameScene.Scene) : Prop :=
  NoDup (GameScene.activeNotesRef sc)
  /\ (forall r, r ∈ GameScene.activeNotesRef sc -> (r < GameScene.nextNoteIndexRef sc)%nat)
  /\ (forall r n, GameScene.notesState sc !! r = Some n ->
        r ∈ GameScene.activeNotesRef sc \/ (GameScene.nextNoteIndexRef sc <= r)%nat ->
        fresh n).

(** The multiplier that the thresholds of [handleNoteHit] give to a
    combo. *)
Definition multiplierFor (combo : Z) : Z :=
  if 10 <? combo then 4 else if 5 <? combo then 2 else 1.

(** The values that the code gives to [setMultiplier]. *)
Definition multiplierValue (m : Z) : Prop := m = 1 \/ m = 2 \/ m = 4.

(** The application state while the events of one frame are handled: the
    ranges, only [endGame(false)] scheduled, and, whenever health is 0, the
    combo and the multiplier reset and [endGame(false)] scheduled. *)
Definition TickInv (s : App.State) : Prop :=
  0 <= App.health s <= 100 /\ 0 <= App.score s /\ 0 <= App.combo s
  /\ multiplierValue (App.multiplier s)
  /\ Forall multiplierValue (App.inUpdater s)
  /\ Forall (fun victory => victory = false) (App.timeouts s)
  /\ (App.health s = 0 ->
        App.combo s = 0 /\ App.multiplier s = 1 /\ App.timeouts s <> []).

(** The application state between two actions: nothing is queued, no
    timeout is left, and health is positive while playing. *)
Definition AppInv (s : App.State) : Prop :=
  0 <= App.health s <= 100 /\ 0 <= App.score s /\ 0 <= App.combo s
  /\ multiplierValue (App.multiplier s)
  /\ App.inUpdater s = []
  /\ App.timeouts s = []
  /\ (App.gameStatus s = PLAYING -> 0 < App.health s).

(** The states that the loop "Update & Collide Notes" passes through: [st]
    before the iteration [n - 1], and the state after each of the
    iterations [n - 1], ..., [0]. *)
Fixpoint collideStates {A : Type} (onNoteHit : NoteData -> bool -> A -> A)
    (onNoteMiss : NoteData -> A -> A) (now : Q) (hands : HandPositions.t)
    (n : nat) (st : GameScene.Scene * A) : list (GameScene.Scene * A) :=
  st :: match n with
        | O => []
        | S i =>
            collideStates onNoteHit onNoteMiss now hands i
              (GameScene.collideNote onNoteHit onNoteMiss now hands i st)
        end.

(** The application states that a frame passes through when the session is
    in play and the song, at [au], has not ended: the state at the start
    of the frame, the state before the collision loop and the state after
    each of its iterations. *)
Definition frameStates (au : Audio.t) (hands : HandPositions.t)
    (w : Session.World) : list App.State :=
  let now := Audio.currentTime au in
  let sc := GameScene.setCurrentTime now (Session.scene w) in
  let sc :=
    GameScene.spawnLoop
      (length (GameScene.notesState sc) - GameScene.nextNoteIndexRef sc) now sc in
  let a := GameScene.updateInstruction App.setInstruction sc (Session.app w) in
  Session.app w
  :: (collideStates (App.handleNoteHit (App.multiplier (Session.app w)))
        App.handleNoteMiss now hands (length (GameScene.activeNotesRef sc))
        (sc, a)).*2.

(** ** Concrete sessions *)

(** A chart that [generateDemoChart] can return, the one in which every
    shuffle leaves the lanes in the order [0, 1, 2, 3]; the engine above
    returns it when every draw is 0.25.  Question [k] has its correct
    answer in lane 0 at layer 0, its first distractor in lane 1 at layer 1
    and its second distractor in lane 2 at layer 0, all at the time
    [beatTime k]. *)
Definition plainChart : list NoteData :=
  DEMO_CHART Engine.sort_random (Engine.constant (1 # 4)).

Definition beatTime (k : nat) : Q := (inject_Z (8 + 10 * Z.of_nat k) * BEAT_TIME)%Q.

Definition vec (a b c : Q) : Vector3 := {| x := a; y := b; z := c |}.

Definition velocity (a b c : float) : Velocity.t :=
  {| Velocity.x := a; Velocity.y := b; Velocity.z := c |}.

(** The left hand sweeps through the correct answer; the right hand is not
    tracked. *)
Definition handsOnCorrect : HandPositions.t :=
  {| HandPositions.left := Some (vec (-18 # 10) 1 0);
     HandPositions.right := None;
     HandPositions.leftVelocity := velocity 1 0 0;
     HandPositions.rightVelocity := velocity 0 0 0 |}.

(** Each hand sweeps through one of the two distractors. *)
Definition handsOnDistractors : HandPositions.t :=
  {| HandPositions.left := Some (vec (-6 # 10) (18 # 10) 0);
     HandPositions.right := Some (vec (6 # 10) 1 0);
     HandPositions.leftVelocity := velocity 1 0 0;
     HandPositions.rightVelocity := velocity 1 0 0 |}.

(** The left hand rests 0.3 away from the correct answer and drifts at
    speed 0.2. *)
Definition handsResting : HandPositions.t :=
  {| HandPositions.left := Some (vec (-15 # 10) 1 0);
     HandPositions.right := None;
     HandPositions.leftVelocity := velocity 0.2 0 0;
     HandPositions.rightVelocity := velocity 0 0 0 |}.

(** The left hand sweeps between the correct answer and the first
    distractor, 0.72 away from both; the right hand is not tracked. *)
Definition handsBetween : HandPositions.t :=
  {| HandPositions.left := Some (vec (-12 # 10) (14 # 10) 0);
     HandPositions.right := None;
     HandPositions.leftVelocity := velocity 1 0 0;
     HandPositions.rightVelocity := velocity 0 0 0 |}.

(** The left hand as in [handsBetween], and the right hand sweeps through
    the second distractor: all three notes of the question are struck. *)
Definition handsOnAll : HandPositions.t :=
  {| HandPositions.left := Some (vec (-12 # 10) (14 # 10) 0);
     HandPositions.right := Some (vec (6 # 10) 1 0);
     HandPositions.leftVelocity := velocity 1 0 0;
     HandPositions.rightVelocity := velocity 1 0 0 |}.

(** A frame drawn when question [k] reaches the player. *)
Definition frameAt (k : nat) (hands : HandPositions.t) : Session.Action :=
  Session.Frame (Some {| Audio.currentTime := beatTime k; Audio.ended := false |}) hands.

Definition started : Session.World :=
  Session.run (Session.start plainChart)
    [Session.CameraReady; Session.StartGame true true].

(** The first [n] questions answered correctly, one frame each. *)
Definition correctHits (n : nat) : list Session.Action :=
  [Session.CameraReady; Session.StartGame true true]
  ++ map (fun k => frameAt k handsOnCorrect) (seq 0 n).

Definition afterCorrectHits (n : nat) : Session.World :=
  Session.run (Session.start plainChart) (correctHits n).

(** The first [n] questions with both distractors struck. *)
Definition wrongHits (n : nat) : list Session.Action :=
  [Session.CameraReady; Session.StartGame true true]
  ++ map (fun k => frameAt k handsOnDistractors) (seq 0 n).

Definition afterWrongHits (n : nat) : Session.World :=
  Session.run (Session.start plainChart) (wrongHits n).

(** The first [n] questions with all three notes struck. *)
Definition allHits (n : nat) : list Session.Action :=
  [Session.CameraReady; Session.StartGame true true]
  ++ map (fun k => frameAt k handsOnAll) (seq 0 n).

(** The collision test of a frame at time [now] finds the note inside the
    interception band, with the required hand tracked and within the hit
    radius of the note, but slower than the minimum speed. *)
Definition slow_contact (now : Q) (hands : HandPositions.t) (note : NoteData) : bool :=
  let currentZ := (PLAYER_Z - (time note - now) * NOTE_SPEED)%Q in
  Qltb (PLAYER_Z - (15 # 10)) currentZ && Qltb currentZ (PLAYER_Z + 1)
  && match match type note with
           | HandType.left => HandPositions.left hands
           | HandType.right => HandPositions.right hands
           end,
           GameScene.notePos note currentZ with
     | Some handPos, Some notePos =>
         distanceTo_lt handPos notePos 1
         && length_lt match type note with
                      | HandType.left => HandPositions.leftVelocity hands
                      | HandType.right => HandPositions.rightVelocity hands
                      end 0.5
     | _, _ => false
     end.

(** A scene in which a missed note is still referenced from the active
    list. *)
Definition staleNote : NoteData :=
  GameScene.markMissed (correctNote (Q_ "" "WON" []) 0 [0%nat] 0).

Definition staleScene : GameScene.Scene :=
  {| GameScene.notesState := [staleNote];
     GameScene.currentTime := 0;
     GameScene.activeNotesRef := [0%nat];
     GameScene.nextNoteIndexRef := 1 |}.

(** The correct answers of the first three questions are active when the
    second one reaches the player: the first has passed, the third is still
    far away. *)
Definition mixedScene : GameScene.Scene :=
  {| GameScene.notesState := plainChart;
     GameScene.currentTime := beatTime 1;
     GameScene.activeNotesRef := [0; 3; 6]%nat;
     GameScene.nextNoteIndexRef := 9 |}.

(** The first question has been spawned and nothing has happened yet. *)
Definition spawnedWorld : Session.World :=
  Session.run (Session.start plainChart)
    [Session.CameraReady; Session.StartGame true true;
     Session.Frame (Some {| Audio.currentTime := 0; Audio.ended := false |})
       handsResting].

(** The correct answer of the first question, as stored in [plainChart]. *)
Definition wentNote : NoteData :=
  correctNote (Q_ "Yesterday, I ___ to the store." "WENT" ["GO"; "GONE"; "GOING"])
    (beatTime 0) [0; 1; 2; 3]%nat 0.

(** ** Definitions used to state further properties *)

(** The notes of the questions [qs], one group per question, when the
    random source is in state [r], the beat counter is [beat] and [idCount]
    is [c]. *)
Fixpoint chartGroups {Rng : Type} (sort_random : list nat -> Rng -> list nat * Rng)
    (difficultyMultiplier : Q) (qs : list QuestionSet.t) (r : Rng) (beat : Z)
    (c : nat) : list (list NoteData) :=
  match qs with
  | [] => []
  | q :: qs' =>
      let g := questionGroup difficultyMultiplier q (inject_Z beat * BEAT_TIME)%Q
                 (sort_random [0; 1; 2; 3]%nat r).1 c in
      g :: chartGroups sort_random difficultyMultiplier qs'
             (sort_random [0; 1; 2; 3]%nat r).2 (beat + 10) (c + length g)
  end.

(** The number of notes written for one question. *)
Definition notesPerQuestion (difficultyMultiplier : Q) (q : QuestionSet.t) : nat :=
  S (Nat.min (Z.to_nat (numDistractors difficultyMultiplier))
       (length (QuestionSet.distractors q))).

(** *** The decision of the collision loop for one note *)

(** [PLAYER_Z - (timeDiff * NOTE_SPEED)] *)
Definition currentZ (now : Q) (note : NoteData) : Q :=
  (PLAYER_Z - (time note - now) * NOTE_SPEED)%Q.

(** The spawn test [nextNote.time - spawnAheadTime <= time]. *)
Definition due (now : Q) (note : NoteData) : bool :=
  Qle_bool (time note - GameScene.spawnAheadTime) now.

(** The miss check [currentZ > MISS_Z]. *)
Definition passed (now : Q) (note : NoteData) : bool :=
  Qltb MISS_Z (currentZ now note).

(** The band around the player in which collisions are tested. *)
Definition in_band (now : Q) (note : NoteData) : bool :=
  Qltb (PLAYER_Z - (15 # 10)) (currentZ now note)
  && Qltb (currentZ now note) (PLAYER_Z + 1).

(** The collision test succeeds: the note is in the band, the required
    hand is tracked, within the hit radius, and not slower than 0.5. *)
Definition struck (now : Q) (hands : HandPositions.t) (note : NoteData) : bool :=
  in_band now note
  && match match type note with
           | HandType.left => HandPositions.left hands
           | HandType.right => HandPositions.right hands
           end,
           GameScene.notePos note (currentZ now note) with
     | Some handPos, Some notePos =>
         distanceTo_lt handPos notePos 1
         && negb (length_lt match type note with
                            | HandType.left => HandPositions.leftVelocity hands
                            | HandType.right => HandPositions.rightVelocity hands
                            end 0.5)
     | _, _ => false
     end.

Inductive Outcome := Stay | Miss | Hit.

Definition outcome (now : Q) (hands : HandPositions.t) (note : NoteData) : Outcome :=
  if resolved note then Stay
  else if passed now note then Miss
  else if struck now hands note then Hit
  else Stay.

(** The note object after the iteration that tests it. *)
Definition noteStep (now : Q) (hands : HandPositions.t) (note : NoteData) : NoteData :=
  match outcome now hands note with
  | Stay => note
  | Miss => GameScene.markMissed note
  | Hit => GameScene.markHit now note
  end.

(** The reference [r] stays in the active list. *)
Definition keeps (now : Q) (hands : HandPositions.t) (store : list NoteData)
    (r : nat) : bool :=
  match store !! r with
  | Some note =>
      match outcome now hands note with Stay => true | _ => false end
  | None => true
  end.

(** The store after the notes behind the references [refs] were tested. *)
Definition storeAfter (now : Q) (hands : HandPositions.t) (refs : list nat)
    (store : list NoteData) : list NoteData :=
  imap (fun r note => if bool_decide (r ∈ refs) then noteStep now hands note else note)
    store.

(** The callback made for the reference [r]. *)
Definition notify {A : Type} (onNoteHit : NoteData -> bool -> A -> A)
    (onNoteMiss : NoteData -> A -> A) (now : Q) (hands : HandPositions.t)
    (store : list NoteData) (r : nat) (a : A) : A :=
  match store !! r with
  | Some note =>
      match outcome now hands note with
      | Stay => a
      | Miss => onNoteMiss (GameScene.markMissed note) a
      | Hit => onNoteHit (GameScene.markHit now note) (isCorrect note) a
      end
  | None => a
  end.

(** The reference [r] points to a note with no flag set. *)
Definition unresolved_ref (store : list NoteData) (r : nat) : bool :=
  match store !! r with
  | Some note => negb (resolved note)
  | None => false
  end.

(** Between two frames of a session: the active list is the list of the
    spawned notes that are not resolved, in chart order, and no note that is
    still to be spawned has a flag set. *)
Definition ActiveInv (sc : GameScene.Scene) : Prop :=
  GameScene.activeNotesRef sc
  = List.filter (unresolved_ref (GameScene.notesState sc))
      (seq 0 (GameScene.nextNoteIndexRef sc))
  /\ (GameScene.nextNoteIndexRef sc <= length (GameScene.notesState sc))%nat
  /\ (forall r n, GameScene.notesState sc !! r = Some n ->
        (GameScene.nextNoteIndexRef sc <= r)%nat -> fresh n).

(** A hit is recorded with the time of its frame, and the note was in the
    band at that time. *)
Definition hit_recorded (n : NoteData) : Prop :=
  hit n = true ->
  exists t, hitTime n = Some t
            /\ (time n - (3 # 16) < t)%Q /\ (t < time n + (1 # 8))%Q.

(** ** components/GameScene.tsx and components/Note.tsx: what is drawn *)

(** [n.hitTime || 0] *)
Definition hitTime_or_0 (n : NoteData) : Q :=
  match hitTime n with
  | Some t => if Qeq_bool t 0 then 0 else t
  | None => 0
  end.

(** The predicate of the [visibleNotes] filter. *)
Definition visible (currentTime : Q) (n : NoteData) : bool :=
  negb (missed n)
  && (negb (hit n) || Qltb (currentTime - hitTime_or_0 n) (1 # 2))
  && Qltb (time n - currentTime) 6
  && Qltb (-2) (time n - currentTime).

Definition visibleNotes (sc : GameScene.Scene) : list NoteData :=
  List.filter (visible (GameScene.currentTime sc)) (GameScene.notesState sc).

(** The prop [zPos] given to [Note]. *)
Definition zPos (currentTime : Q) (note : NoteData) : Q :=
  (PLAYER_Z - (time note - currentTime) * NOTE_SPEED)%Q.

(** What the component [Note] returns: nothing, the debris of a hit note
    with the time since the hit, or the block with the word. *)
Inductive Rendered :=
| Nothing
| DebrisAt (position : option Vector3) (timeSinceHit : Q)
| BlockAt (position : option Vector3).

(** [data.hit && data.hitTime]: an absent [hitTime] and the time 0 are
    falsy. *)
Definition Note (data : NoteData) (zPos currentTime : Q) : Rendered :=
  let position := GameScene.notePos data zPos in
  if missed data then Nothing
  else
    match hit data, hitTime data with
    | true, Some t =>
        if Qeq_bool t 0 then BlockAt position
        else DebrisAt position (currentTime - t)
    | _, _ => BlockAt position
    end.

(** Nobody in front of the camera: neither hand is tracked. *)
Definition noHands : HandPositions.t :=
  {| HandPositions.left := None; HandPositions.right := None;
     HandPositions.leftVelocity := velocity 0 0 0;
     HandPositions.rightVelocity := velocity 0 0 0 |}.

(** One second after question 2 reached the player. *)
Definition lateAudio : Audio.t :=
  {| Audio.currentTime := beatTime 2 + 1; Audio.ended := false |}.

(** The song has ended. *)
Definition endedAudio : Audio.t :=
  {| Audio.currentTime := 200; Audio.ended := true |}.

(** The changes of status that the application makes. *)
Definition status_change (s s' : GameStatus) : Prop :=
  s' = s
  \/ (s = LOADING /\ s' = IDLE)
  \/ (s = IDLE /\ s' = PLAYING)
  \/ (s = PLAYING /\ (s' = GAME_OVER \/ s' = VICTORY))
  \/ ((s = GAME_OVER \/ s = VICTORY) /\ s' = IDLE).

(** * Properties *)

Lemma Qltb_lt a b : Qltb a b = true <-> (a < b)%Q.
Proof.
  unfold Qltb. rewrite negb_true_iff. split.
  - intros H. apply Qnot_le_lt. intros Hle. apply Qle_bool_iff in Hle. congruence.
  - intros H. destruct (Qle_bool b a) eqn:E; [|reflexivity].
    apply Qle_bool_iff in E. exfalso. exact (Qlt_not_le _ _ H E).
Qed.


(** ** Scoring handlers *)

Section AppFacts.
Import App.

Lemma foldl_endGame_fields l s :
  let s' := foldl (fun s victory => endGame victory s) s l in
  score s' = score s /\ combo s' = combo s /\ multiplier s' = multiplier s
  /\ health s' = health s /\ instruction s' = instruction s
  /\ timeouts s' = timeouts s.
Proof.
  revert s. induction l as [|v l IH]; intros s; simpl; [tauto|].
  specialize (IH (endGame v s)). simpl in IH. exact IH.
Qed.

Lemma runTimeouts_fields s :
  score (runTimeouts s) = score s /\ combo (runTimeouts s) = combo s
  /\ multiplier (runTimeouts s) = multiplier s
  /\ health (runTimeouts s) = health s
  /\ instruction (runTimeouts s) = instruction s
  /\ timeouts (runTimeouts s) = [].
Proof. unfold runTimeouts. apply (foldl_endGame_fields (timeouts s) (setTimeouts [] s)). Qed.

Lemma runTimeouts_nil s : timeouts s = [] -> runTimeouts s = s.
Proof. destruct s; simpl; intros ->; reflexivity. Qed.

Lemma foldl_endGame_inUpdater l s :
  inUpdater (foldl (fun s victory => endGame victory s) s l) = inUpdater s.
Proof.
  revert s. induction l as [|v l IH]; intros s; simpl; [reflexivity|].
  rewrite IH. reflexivity.
Qed.

Lemma runTimeouts_inUpdater s : inUpdater (runTimeouts s) = inUpdater s.
Proof. unfold runTimeouts. rewrite foldl_endGame_inUpdater. reflexivity. Qed.

Lemma last_cons {X : Type} (l : list X) : forall v d,
  List.last (v :: l) d = List.last l v.
Proof.
  induction l as [|w l IH]; intros v d; [reflexivity|].
  change (List.last (v :: w :: l) d) with (List.last (w :: l) d).
  rewrite !IH. reflexivity.
Qed.

Lemma foldl_setMultiplier_fields l s :
  let s' := foldl (fun s v => setMultiplier v s) s l in
  gameStatus s' = gameStatus s /\ score s' = score s /\ combo s' = combo s
  /\ health s' = health s /\ instruction s' = instruction s
  /\ inUpdater s' = inUpdater s /\ timeouts s' = timeouts s
  /\ multiplier s' = List.last l (multiplier s).
Proof.
  revert s. induction l as [|v l IH]; intros s; [simpl; tauto|].
  specialize (IH (setMultiplier v s)). cbn [foldl]. cbn zeta in *.
  destruct IH as (? & ? & ? & ? & ? & ? & ? & Hm).
  repeat split; try assumption.
  rewrite Hm, last_cons. reflexivity.
Qed.

(** The render leaves every cell but [multiplier] as it is; [multiplier]
    takes the argument of the last [setMultiplier] call made from inside
    an updater, when there is one. *)
Lemma render_fields s :
  gameStatus (render s) = gameStatus s /\ score (render s) = score s
  /\ combo (render s) = combo s /\ health (render s) = health s
  /\ instruction (render s) = instruction s
  /\ inUpdater (render s) = [] /\ timeouts (render s) = timeouts s
  /\ multiplier (render s) = List.last (inUpdater s) (multiplier s).
Proof. unfold render. apply (foldl_setMultiplier_fields (inUpdater s) (setInUpdater [] s)). Qed.

Lemma render_nil s : inUpdater s = [] -> render s = s.
Proof. destruct s; simpl; intros ->; reflexivity. Qed.

(** The state after the render and the timeouts that follow a frame. *)
Lemma afterFrame_fields s :
  let s' := runTimeouts (render s) in
  score s' = score s /\ combo s' = combo s
  /\ multiplier s' = List.last (inUpdater s) (multiplier s)
  /\ health s' = health s /\ instruction s' = instruction s
  /\ timeouts s' = [] /\ inUpdater s' = [].
Proof.
  intros s'. unfold s'.
  destruct (render_fields s) as (_ & H1 & H2 & H3 & H4 & H5 & _ & H6).
  destruct (runTimeouts_fields (render s)) as (-> & -> & -> & -> & -> & ->).
  rewrite runTimeouts_inUpdater. auto 10.
Qed.

Lemma foldl_endGame_status l v s :
  gameStatus (foldl (fun s victory => endGame victory s) s (l ++ [v]))
  = if v then VICTORY else GAME_OVER.
Proof. rewrite foldl_app. reflexivity. Qed.

Lemma runTimeouts_all_false s :
  timeouts s <> [] -> Forall (fun v => v = false) (timeouts s) ->
  gameStatus (runTimeouts s) = GAME_OVER.
Proof.
  unfold runTimeouts. intros Hne Hall.
  destruct (timeouts s) as [|v l] using rev_ind; [congruence|].
  rewrite foldl_endGame_status.
  apply Forall_app in Hall as [_ Hv]. inversion Hv; subst. reflexivity.
Qed.

Lemma endGame_idempotent v s : endGame v (endGame v s) = endGame v s.
Proof. reflexivity. Qed.

(** The two penalty events: a hit that is not a good cut of a correct
    note, and the miss of a correct note. *)
Lemma handleNoteHit_wrong m note goodCut s :
  goodCut && isCorrect note = false ->
  let s' := handleNoteHit m note goodCut s in
  combo s' = 0 /\ multiplier s' = 1 /\ score s' = score s
  /\ health s' = Z.max 0 (health s - 10)
  /\ gameStatus s' = gameStatus s /\ instruction s' = instruction s
  /\ timeouts s' = (if health s - 10 <=? 0 then timeouts s ++ [false] else timeouts s).
Proof.
  intros Hw. unfold handleNoteHit. rewrite Hw. cbn.
  destruct (Z.leb_spec (health s - 10) 0); cbn; repeat split; lia.
Qed.

Lemma handleNoteMiss_penalty note s :
  isCorrect note = true ->
  let s' := handleNoteMiss note s in
  combo s' = 0 /\ multiplier s' = 1 /\ score s' = score s
  /\ health s' = Z.max 0 (health s - 15)
  /\ gameStatus s' = gameStatus s /\ instruction s' = instruction s
  /\ timeouts s' = (if health s - 15 <=? 0 then timeouts s ++ [false] else timeouts s).
Proof.
  intros Hc. unfold handleNoteMiss. rewrite Hc. cbn.
  destruct (Z.leb_spec (health s - 15) 0); cbn; repeat split; lia.
Qed.

Lemma handleNoteHit_wrong_inUpdater m note goodCut s :
  goodCut && isCorrect note = false ->
  inUpdater (handleNoteHit m note goodCut s) = inUpdater s.
Proof.
  intros Hw. unfold handleNoteHit. rewrite Hw. cbn.
  destruct (health s - 10 <=? 0); reflexivity.
Qed.

Lemma handleNoteMiss_inUpdater note s :
  inUpdater (handleNoteMiss note s) = inUpdater s.
Proof.
  unfold handleNoteMiss. destruct (isCorrect note); [|reflexivity]. cbn.
  destruct (health s - 15 <=? 0); reflexivity.
Qed.

(** A good cut of a correct note: the multiplier that goes with the new
    combo is set from inside the [setCombo] updater. *)
Lemma handleNoteHit_good m note s :
  isCorrect note = true ->
  let s' := handleNoteHit m note true s in
  combo s' = combo s + 1
  /\ multiplier s' = multiplier s
  /\ inUpdater s'
     = inUpdater s ++ [if 10 <? combo s + 1 then 4 else if 5 <? combo s + 1 then 2 else 1]
  /\ score s' = score s + 100 * m
  /\ health s' = Z.min 100 (health s + 5)
  /\ gameStatus s' = gameStatus s /\ instruction s' = instruction s
  /\ timeouts s' = timeouts s.
Proof. intros Hc. unfold handleNoteHit. rewrite Hc. cbn. repeat split. Qed.

(** C9: a Miss event for a note with [isCorrect = false] leaves the whole
    application state as it was: score, combo, multiplier, health and
    session status keep their values, and no [endGame] is scheduled. *)
Theorem handleNoteMiss_incorrect_unchanged (note : NoteData) (s : State) :
  isCorrect note = false ->
  handleNoteMiss note s = s
  /\ score (handleNoteMiss note s) = score s
  /\ combo (handleNoteMiss note s) = combo s
  /\ multiplier (handleNoteMiss note s) = multiplier s
  /\ health (handleNoteMiss note s) = health s
  /\ gameStatus (runTimeouts (handleNoteMiss note s)) = gameStatus (runTimeouts s).
Proof.
  intros Hc. unfold handleNoteMiss. rewrite Hc. repeat split.
Qed.

End AppFacts.

(** ** The chart generator *)

Section GeneratorFacts.
Context {Rng : Type}.

Lemma pushDistractors_spec n : forall i q t lanes acc,
  pushDistractors n i q t lanes acc
  = (acc.1 ++ distractorGroup n i q t lanes acc.2,
     (acc.2 + length (take n (drop i (QuestionSet.distractors q))))%nat).
Proof.
  unfold distractorGroup.
  induction n as [|n IH]; intros i q t lanes [ns c]; simpl.
  - rewrite app_nil_r, Nat.add_0_r. reflexivity.
  - destruct (QuestionSet.distractors q !! i) as [d|] eqn:E.
    + rewrite IH. simpl. rewrite (drop_S _ _ _ E). simpl.
      rewrite <- app_assoc. simpl. f_equal; [|lia].
      f_equal. rewrite !Nat.add_0_r. f_equal.
      apply imap_ext. intros j y _. simpl. f_equal; lia.
    + rewrite (drop_ge _ i) by (apply lookup_ge_None; exact E).
      simpl. rewrite app_nil_r, Nat.add_0_r. reflexivity.
Qed.

Lemma forEachBody_spec (sort_random : list nat -> Rng -> list nat * Rng) d st q :
  let lanes := (sort_random [0; 1; 2; 3]%nat (rng st)).1 in
  let t := (inject_Z (currentBeat st) * BEAT_TIME)%Q in
  notes (forEachBody sort_random d st q)
  = notes st ++ questionGroup d q t lanes (idCount st)
  /\ currentBeat (forEachBody sort_random d st q) = currentBeat st + 10
  /\ rng (forEachBody sort_random d st q) = (sort_random [0; 1; 2; 3]%nat (rng st)).2.
Proof.
  unfold forEachBody, questionGroup.
  destruct (sort_random [0; 1; 2; 3]%nat (rng st)) as [lanes r]. simpl.
  rewrite pushDistractors_spec. simpl. rewrite <- app_assoc. simpl. auto.
Qed.

Lemma numDistractors_le d : (Z.to_nat (numDistractors d) <= 3)%nat.
Proof. unfold numDistractors. lia. Qed.

Lemma questionGroup_length d q t lanes c :
  (length (questionGroup d q t lanes c) <= 4)%nat.
Proof.
  unfold questionGroup, distractorGroup. simpl. rewrite length_imap, length_take.
  pose proof (numDistractors_le d). lia.
Qed.

Lemma questionGroup_lookup d q t lanes c j n :
  questionGroup d q t lanes c !! j = Some n ->
  time n = t /\ lineIndex n = lanes !! j /\ (lineLayer n < 2)%nat /\ fresh n.
Proof.
  unfold questionGroup, distractorGroup, fresh. destruct j as [|j]; simpl.
  - intros [= <-]. simpl. repeat split; lia.
  - rewrite list_lookup_imap. intros H.
    apply fmap_Some in H as (dd & _ & ->). simpl.
    replace (j + 1)%nat with (S j) by lia.
    repeat split; destruct (Nat.even j); lia.
Qed.

Lemma lanes_lookup (lanes : list nat) j k :
  lanes ≡ₚ [0; 1; 2; 3]%nat -> lanes !! j = Some k -> (k < 4)%nat.
Proof.
  intros Hp Hk. apply list_elem_of_lookup_2 in Hk. rewrite Hp in Hk.
  repeat (apply elem_of_cons in Hk as [->|Hk]; [lia|]).
  apply elem_of_nil in Hk. contradiction.
Qed.

Lemma lanes_NoDup (lanes : list nat) : lanes ≡ₚ [0; 1; 2; 3]%nat -> NoDup lanes.
Proof.
  intros Hp. rewrite Hp. repeat (apply NoDup_cons_2; [rewrite ?elem_of_cons, elem_of_nil; lia|]). apply NoDup_nil_2.
Qed.

Lemma questionGroup_placed d q t lanes c n :
  lanes ≡ₚ [0; 1; 2; 3]%nat -> n ∈ questionGroup d q t lanes c ->
  time n = t /\ placed n /\ fresh n.
Proof.
  intros Hp Hin. apply list_elem_of_lookup_1 in Hin as [j Hj].
  pose proof (lookup_lt_Some _ _ _ Hj) as Hlt.
  pose proof (questionGroup_length d q t lanes c) as Hlen.
  apply questionGroup_lookup in Hj as (Ht & Hl & Hy & Hf).
  assert (Hj4 : (j < length lanes)%nat) by (rewrite Hp; simpl; lia).
  apply lookup_lt_is_Some in Hj4 as [k Hk].
  split; [exact Ht|]. split; [|exact Hf]. split; [|exact Hy].
  exists k. split; [congruence|]. eapply lanes_lookup; eauto.
Qed.

Lemma questionGroup_distinct d q t lanes c i j n m :
  lanes ≡ₚ [0; 1; 2; 3]%nat ->
  questionGroup d q t lanes c !! i = Some n ->
  questionGroup d q t lanes c !! j = Some m ->
  i <> j -> lineIndex n <> lineIndex m.
Proof.
  intros Hp Hi Hj Hne Heq.
  pose proof (questionGroup_length d q t lanes c) as Hlen.
  pose proof (lookup_lt_Some _ _ _ Hi) as Hlt.
  apply questionGroup_lookup in Hi as (_ & Hli & _).
  apply questionGroup_lookup in Hj as (_ & Hlj & _).
  assert (Hi4 : (i < length lanes)%nat) by (rewrite Hp; simpl; lia).
  apply lookup_lt_is_Some in Hi4 as [k Hk].
  apply Hne. apply (NoDup_lookup lanes i j k (lanes_NoDup _ Hp)); congruence.
Qed.

Lemma BEAT_TIME_pos : (0 < BEAT_TIME)%Q.
Proof. reflexivity. Qed.

Lemma beat_time_lt b : (inject_Z b * BEAT_TIME < inject_Z (b + 10) * BEAT_TIME)%Q.
Proof.
  apply Qmult_lt_compat_r; [exact BEAT_TIME_pos|].
  rewrite <- Zlt_Qlt. lia.
Qed.

Lemma ChartInv_step d q lanes c b l :
  lanes ≡ₚ [0; 1; 2; 3]%nat -> ChartInv b l ->
  ChartInv (b + 10) (l ++ questionGroup d q (inject_Z b * BEAT_TIME)%Q lanes c).
Proof.
  intros Hp (Hall & Hsort & Hdist).
  set (t := (inject_Z b * BEAT_TIME)%Q).
  set (G := questionGroup d q t lanes c).
  assert (HG : forall n, n ∈ G -> time n = t /\ placed n /\ fresh n)
    by (intros n; apply questionGroup_placed; exact Hp).
  split; [|split].
  - apply Forall_app. split.
    + eapply Forall_impl; [exact Hall|]. intros n (? & ? & Hlt).
      split; [assumption|]. split; [assumption|].
      eapply Qlt_trans; [exact Hlt|apply beat_time_lt].
    + apply Forall_forall. intros n Hn. destruct (HG n Hn) as (Ht & ? & ?).
      split; [assumption|]. split; [assumption|]. rewrite Ht. apply beat_time_lt.
  - apply StronglySorted_app_2; [|exact Hsort|].
    + intros n m Hn Hm. unfold time_le.
      rewrite Forall_forall in Hall. destruct (Hall n Hn) as (_ & _ & Hlt).
      destruct (HG m Hm) as (-> & _). apply Qlt_le_weak. exact Hlt.
    + assert (Hs : forall G', (forall n, n ∈ G' -> time n = t) -> StronglySorted time_le G').
      { induction G' as [|g G' IH]; intros HG'; constructor.
        - apply IH. intros n Hn. apply HG'. right. exact Hn.
        - apply Forall_forall. intros n Hn. unfold time_le.
          rewrite (HG' g), (HG' n); [apply Qle_refl|right; exact Hn|left]. }
      apply Hs. intros n Hn. apply HG. exact Hn.
  - intros i j n m Hi Hj Hne Heq.
    rewrite Forall_forall in Hall.
    apply lookup_app_Some in Hi as [Hi|[Hil Hi]];
      apply lookup_app_Some in Hj as [Hj|[Hjl Hj]].
    + eapply Hdist; eauto.
    + exfalso. destruct (Hall n (list_elem_of_lookup_2 _ _ _ Hi)) as (_ & _ & Hlt).
      destruct (HG m (list_elem_of_lookup_2 _ _ _ Hj)) as (Hm & _).
      rewrite Heq, Hm in Hlt. exact (Qlt_irrefl _ Hlt).
    + exfalso. destruct (Hall m (list_elem_of_lookup_2 _ _ _ Hj)) as (_ & _ & Hlt).
      destruct (HG n (list_elem_of_lookup_2 _ _ _ Hi)) as (Hn & _).
      rewrite <- Heq, Hn in Hlt. exact (Qlt_irrefl _ Hlt).
    + eapply (questionGroup_distinct d q t lanes c); eauto. lia.
Qed.

Lemma ChartInv_nil b : ChartInv b [].
Proof.
  split; [constructor|]. split; [constructor|].
  intros i j n m Hi. rewrite lookup_nil in Hi. discriminate.
Qed.

Lemma foldl_forEachBody_inv (sort_random : list nat -> Rng -> list nat * Rng) d :
  (forall l r, (sort_random l r).1 ≡ₚ l) ->
  forall curriculum st,
    ChartInv (currentBeat st) (notes st) ->
    let st' := foldl (forEachBody sort_random d) st curriculum in
    ChartInv (currentBeat st') (notes st').
Proof.
  intros Hperm. induction curriculum as [|q qs IH]; intros st Hinv; simpl; [exact Hinv|].
  apply IH.
  destruct (forEachBody_spec sort_random d st q) as (-> & -> & _).
  apply ChartInv_step; [apply Hperm|exact Hinv].
Qed.

Lemma insert_by_time_sorted n l :
  Forall (time_le n) l -> insert_by_time n l = n :: l.
Proof.
  destruct l as [|m l]; [reflexivity|]. intros H. simpl.
  inversion H as [|? ? Hle _]; subst. unfold time_le in Hle.
  apply Qle_bool_iff in Hle. rewrite Hle. reflexivity.
Qed.

(** The notes are pushed in nondecreasing order of time, so the final sort
    returns them as they are. *)
Lemma sort_by_time_sorted l : StronglySorted time_le l -> sort_by_time l = l.
Proof.
  induction 1 as [|n l Hs IH Hle]; [reflexivity|].
  unfold sort_by_time in *. simpl. rewrite IH. apply insert_by_time_sorted, Hle.
Qed.

Lemma generateChart_inv (sort_random : list nat -> Rng -> list nat * Rng) curriculum d r :
  (forall l r, (sort_random l r).1 ≡ₚ l) ->
  generateChart sort_random curriculum d r
  = notes (foldl (forEachBody sort_random d) (genInit r) curriculum)
  /\ exists b, ChartInv b (generateChart sort_random curriculum d r).
Proof.
  intros Hperm. unfold generateChart.
  pose proof (foldl_forEachBody_inv sort_random d Hperm curriculum (genInit r)
                (ChartInv_nil _)) as Hinv.
  simpl in Hinv. rewrite sort_by_time_sorted by apply Hinv.
  split; [reflexivity|]. eexists. exact Hinv.
Qed.

End GeneratorFacts.

(** *** The insertion-sort engine *)

Section EngineFacts.
Import Engine.

Lemma shift_in_cons tmp rest element r :
  shift_in (tmp :: rest) element r
  = if Qltb 0 (comparefn r).1
    then (tmp :: (shift_in rest element (comparefn r).2).1,
          (shift_in rest element (comparefn r).2).2)
    else (element :: tmp :: rest, (comparefn r).2).
Proof.
  simpl. destruct (Qltb 0 _); [|reflexivity].
  destruct (shift_in rest element _). reflexivity.
Qed.

Lemma insertion_cons before element todo r :
  insertion before (element :: todo) r
  = insertion (shift_in before element r).1 todo (shift_in before element r).2.
Proof. simpl. destruct (shift_in before element r). reflexivity. Qed.

Lemma shift_in_perm before element r :
  (shift_in before element r).1 ≡ₚ element :: before.
Proof.
  revert r. induction before as [|tmp rest IH]; intros r; [reflexivity|].
  rewrite shift_in_cons. destruct (Qltb 0 _); [|reflexivity].
  simpl. rewrite IH. apply perm_swap.
Qed.

Lemma insertion_perm todo : forall before r,
  (insertion before todo r).1 ≡ₚ before ++ todo.
Proof.
  induction todo as [|element todo IH]; intros before r.
  - simpl. rewrite app_nil_r. apply Permutation_sym, Permutation_rev.
  - rewrite insertion_cons, IH, shift_in_perm. apply Permutation_middle.
Qed.

(** Whatever the draws, the engine returns a rearrangement of the array. *)
Lemma sort_random_perm l r : (sort_random l r).1 ≡ₚ l.
Proof. unfold sort_random. rewrite insertion_perm. reflexivity. Qed.

End EngineFacts.

(** *** Bounds of the lane and layer lookups *)

(** C10: in every generated chart, for any difficulty and any curriculum,
    and so for [generateDemoChart], each note has a [lineIndex] among 0..3
    and a [lineLayer] among 0..1, the lookups [LANE_X_POSITIONS[lineIndex]]
    and [LAYER_Y_POSITIONS[lineLayer]] made by the collision test and by
    the renderer are in bounds, and two notes that share an arrival time
    lie in different lanes.  The random sort is any function that returns
    a rearrangement of its argument. *)
Theorem generateChart_lookups_in_bounds {Rng : Type}
    (sort_random : list nat -> Rng -> list nat * Rng)
    (curriculum : list QuestionSet.t) (difficultyMultiplier : Q) (r : Rng) :
  (forall l r', (sort_random l r').1 ≡ₚ l) ->
  let chart := generateChart sort_random curriculum difficultyMultiplier r in
  (forall n, n ∈ chart ->
     exists k, lineIndex n = Some k /\ (k < 4)%nat /\ (lineLayer n < 2)%nat
       /\ is_Some (LANE_X_POSITIONS !! k)
       /\ is_Some (LAYER_Y_POSITIONS !! lineLayer n)
       /\ forall currentZ, is_Some (GameScene.notePos n currentZ))
  /\ (forall i j n m, chart !! i = Some n -> chart !! j = Some m -> i <> j ->
        (time n == time m)%Q -> lineIndex n <> lineIndex m).
Proof.
  intros Hperm chart.
  destruct (generateChart_inv sort_random curriculum difficultyMultiplier r Hperm)
    as (_ & b & Hall & _ & Hdist).
  fold chart in Hall, Hdist. split; [|exact Hdist].
  intros n Hn. rewrite Forall_forall in Hall.
  destruct (Hall n Hn) as (((k & Hk & Hk4) & Hy) & _).
  exists k. split; [exact Hk|]. split; [exact Hk4|]. split; [exact Hy|].
  assert (Hx : is_Some (LANE_X_POSITIONS !! k))
    by (apply lookup_lt_is_Some; simpl; lia).
  assert (Hl : is_Some (LAYER_Y_POSITIONS !! lineLayer n))
    by (apply lookup_lt_is_Some; simpl; lia).
  split; [exact Hx|]. split; [exact Hl|].
  intros currentZ. unfold GameScene.notePos. rewrite Hk.
  destruct Hx as [px ->], Hl as [py ->]. eexists. reflexivity.
Qed.

Lemma generateChart_lookups_in_bounds_witness :
  let chart := generateDemoChart Engine.sort_random 1 Engine.alternating in
  (forall n, n ∈ chart ->
     exists k, lineIndex n = Some k /\ (k < 4)%nat /\ (lineLayer n < 2)%nat
       /\ is_Some (LANE_X_POSITIONS !! k)
       /\ is_Some (LAYER_Y_POSITIONS !! lineLayer n)
       /\ forall currentZ, is_Some (GameScene.notePos n currentZ))
  /\ (forall i j n m, chart !! i = Some n -> chart !! j = Some m -> i <> j ->
        (time n == time m)%Q -> lineIndex n <> lineIndex m).
Proof.
  exact (generateChart_lookups_in_bounds Engine.sort_random PHRASE_CURRICULUM 1
           Engine.alternating sort_random_perm).
Defined.

(** *** One question at difficulty 1 *)

Lemma numDistractors_1 : numDistractors 1 = 2.
Proof. reflexivity. Qed.

(** At difficulty 1 the chart of a one-question curriculum has three notes,
    not two. *)
Lemma one_question_chart_not_two_notes :
  length (generateChart Engine.sort_random WENT_only 1 Engine.alternating) = 3%nat
  /\ length (generateChart Engine.sort_random WENT_only 1 Engine.alternating) <> 2%nat.
Proof. split; [vm_compute; reflexivity|vm_compute; discriminate]. Qed.

(** C5, amended: a curriculum of one question with three distractors, at
    difficulty 1, gives a chart of exactly three notes, the correct answer
    followed by [min(3, 1 + floor(1)) = 2] distractors, all with the one
    arrival time [8 * BEAT_TIME] and in pairwise distinct lanes. *)
Theorem one_question_chart {Rng : Type}
    (sort_random : list nat -> Rng -> list nat * Rng)
    (q : QuestionSet.t) (r : Rng) :
  (forall l r', (sort_random l r').1 ≡ₚ l) ->
  length (QuestionSet.distractors q) = 3%nat ->
  let chart := generateChart sort_random [q] 1 r in
  length chart = 3%nat
  /\ exists c d0 d1,
       chart = [c; d0; d1]
       /\ isCorrect c = true /\ text c = QuestionSet.correct q
       /\ isCorrect d0 = false /\ QuestionSet.distractors q !! 0%nat = Some (text d0)
       /\ isCorrect d1 = false /\ QuestionSet.distractors q !! 1%nat = Some (text d1)
       /\ time c = (8 * BEAT_TIME)%Q /\ time d0 = time c /\ time d1 = time c
       /\ NoDup [lineIndex c; lineIndex d0; lineIndex d1].
Proof.
  intros Hperm Hlen chart.
  destruct (generateChart_inv sort_random [q] 1 r Hperm) as (Heq & _).
  fold chart in Heq. simpl in Heq.
  destruct (forEachBody_spec sort_random 1 (genInit r) q) as (Hn & _).
  rewrite Hn in Heq. clear Hn.
  pose proof (Hperm [0; 1; 2; 3]%nat r) as Hp.
  set (lanes := (sort_random [0; 1; 2; 3]%nat (rng (genInit r))).1) in *.
  change (rng (genInit r)) with r in lanes. fold lanes in Hp.
  destruct (QuestionSet.distractors q) as [|x0 [|x1 [|x2 [|]]]] eqn:Hd;
    try discriminate Hlen.
  unfold questionGroup, distractorGroup in Heq. rewrite Hd in Heq.
  cbn in Heq. rewrite Heq. split; [reflexivity|].
  do 3 eexists. split; [reflexivity|]. cbn.
  repeat (split; [reflexivity|]).
  pose proof (lanes_NoDup lanes Hp) as Hnd.
  pose proof (Permutation_length Hp) as Hl.
  destruct lanes as [|a [|b [|c [|d [|]]]]]; try discriminate Hl. cbn.
  apply NoDup_cons in Hnd as [Ha Hnd]. apply NoDup_cons in Hnd as [Hb Hnd].
  apply NoDup_cons in Hnd as [Hc _].
  rewrite !elem_of_cons in Ha, Hb.
  assert (Hab : a <> b) by tauto. assert (Hac : a <> c) by tauto.
  assert (Hbc : b <> c) by tauto.
  apply NoDup_cons_2; [rewrite !elem_of_cons, elem_of_nil; intros [|[|[]]]; congruence|].
  apply NoDup_cons_2; [rewrite !elem_of_cons, elem_of_nil; intros [|[]]; congruence|].
  apply NoDup_singleton.
Qed.

Lemma one_question_chart_witness :
  let chart := generateChart Engine.sort_random WENT_only 1 Engine.alternating in
  length chart = 3%nat
  /\ exists c d0 d1,
       chart = [c; d0; d1]
       /\ isCorrect c = true /\ text c = "WENT"%string
       /\ isCorrect d0 = false /\ Some "GO"%string = Some (text d0)
       /\ isCorrect d1 = false /\ Some "GONE"%string = Some (text d1)
       /\ time c = (8 * BEAT_TIME)%Q /\ time d0 = time c /\ time d1 = time c
       /\ NoDup [lineIndex c; lineIndex d0; lineIndex d1].
Proof.
  exact (one_question_chart Engine.sort_random
           (Q_ "Yesterday, I ___ to the store." "WENT" ["GO"; "GONE"; "GOING"])
           Engine.alternating sort_random_perm eq_refl).
Defined.

(** With difficulty 0 the same curriculum gives the two notes. *)
Remark one_question_chart_difficulty_0 :
  length (generateChart Engine.sort_random WENT_only 0 Engine.alternating) = 2%nat.
Proof. vm_compute. reflexivity. Qed.

(** ** The frame callback *)

Lemma evolves_refl n : evolves n n.
Proof. left. reflexivity. Qed.

Lemma evolves_resolved n n' : evolves n n' -> resolved n = true -> n' = n.
Proof.
  intros [->|([Hh Hm] & _)] Hr; [reflexivity|].
  unfold resolved in Hr. rewrite Hh, Hm in Hr. discriminate.
Qed.

Lemma evolves_trans n1 n2 n3 : evolves n1 n2 -> evolves n2 n3 -> evolves n1 n3.
Proof.
  intros H12 [->|([Hh Hm] & H23)]; [exact H12|].
  destruct H12 as [->|(_ & [->| [now ->]])].
  - right. split; [split; assumption|exact H23].
  - simpl in Hm. discriminate.
  - simpl in Hh. discriminate.
Qed.

Lemma evolves_not_both n n' :
  evolves n n' -> ~ (hit n = true /\ missed n = true) ->
  ~ (hit n' = true /\ missed n' = true).
Proof.
  intros [->|([Hh Hm] & [->|[now ->]])] Hn; [exact Hn| |]; simpl;
    intros [? ?]; congruence.
Qed.

Lemma store_evolves_refl l : store_evolves l l.
Proof.
  split; [reflexivity|]. intros r n Hr. exists n. split; [exact Hr|apply evolves_refl].
Qed.

Lemma store_evolves_trans l1 l2 l3 :
  store_evolves l1 l2 -> store_evolves l2 l3 -> store_evolves l1 l3.
Proof.
  intros [Hl12 H12] [Hl23 H23]. split; [congruence|].
  intros r n Hr. destruct (H12 r n Hr) as (n2 & Hr2 & He2).
  destruct (H23 r n2 Hr2) as (n3 & Hr3 & He3).
  exists n3. split; [exact Hr3|]. eapply evolves_trans; eauto.
Qed.

Lemma store_evolves_alter f l r note :
  l !! r = Some note -> evolves note (f note) -> store_evolves l (alter f r l).
Proof.
  intros Hr He. split; [apply length_alter|].
  intros j n Hj. destruct (decide (r = j)) as [<-|Hne].
  - rewrite list_lookup_alter_eq, Hr. simpl. exists (f note).
    split; [reflexivity|]. congruence.
  - rewrite list_lookup_alter_ne by exact Hne. exists n.
    split; [exact Hj|apply evolves_refl].
Qed.

Lemma delete_NoDup_notin (l : list nat) i r :
  NoDup l -> l !! i = Some r -> r ∉ delete i l.
Proof.
  intros Hnd Hi. rewrite delete_take_drop.
  rewrite <- (take_drop_middle l i r Hi) in Hnd.
  apply NoDup_app in Hnd as (_ & Hl & Hr).
  apply NoDup_cons in Hr as [Hr _].
  rewrite elem_of_app. intros [H|H]; [|exact (Hr H)].
  apply (Hl r H). left.
Qed.

Lemma delete_elem_of_other (l : list nat) i r r' :
  l !! i = Some r' -> r <> r' -> r ∈ l -> r ∈ delete i l.
Proof.
  intros Hi Hne Hin. rewrite delete_take_drop.
  rewrite <- (take_drop_middle l i r' Hi) in Hin.
  rewrite elem_of_app, elem_of_cons in Hin. rewrite elem_of_app. tauto.
Qed.

Section SceneFacts.
Import GameScene.
Context {A : Type}.
Variable onNoteHit : NoteData -> bool -> A -> A.
Variable onNoteMiss : NoteData -> A -> A.
Variable onSongEnd : A -> A.
Variable setInstruction : string -> A -> A.

Local Abbreviation collideNote := (collideNote onNoteHit onNoteMiss).
Local Abbreviation collideLoop := (collideLoop onNoteHit onNoteMiss).
Local Abbreviation useFrame := (useFrame onNoteHit onNoteMiss onSongEnd setInstruction).

(** An iteration either changes nothing, or it resolves the note at index
    [i], which had no flag set: as missed, calling [onNoteMiss], or as hit,
    calling [onNoteHit] with [goodCut = note.isCorrect]. *)
Lemma collideNote_cases now hands i st :
  collideNote now hands i st = st
  \/ exists r note,
       activeNotesRef st.1 !! i = Some r /\ notesState st.1 !! r = Some note
       /\ fresh note
       /\ (collideNote now hands i st
           = (resolve markMissed r i st.1, onNoteMiss (markMissed note) st.2)
           \/ collideNote now hands i st
              = (resolve (markHit now) r i st.1,
                 onNoteHit (markHit now note) (isCorrect (markHit now note)) st.2)).
Proof.
  unfold GameScene.collideNote.
  destruct (activeNotesRef st.1 !! i) as [r|] eqn:Hi; [|left; reflexivity].
  destruct (notesState st.1 !! r) as [note|] eqn:Hr; [|left; reflexivity].
  destruct (hit note) eqn:Hh; [left; reflexivity|].
  destruct (missed note) eqn:Hm; [left; reflexivity|]. cbn [orb].
  assert (Hf : fresh note) by (split; assumption).
  destruct (Qltb MISS_Z _); [right; exists r, note; auto|].
  destruct (Qltb (PLAYER_Z - (15 # 10)) _ && Qltb _ (PLAYER_Z + 1));
    [|left; reflexivity].
  destruct (match type note with
            | HandType.left => HandPositions.left hands
            | HandType.right => HandPositions.right hands
            end); [|left; reflexivity].
  destruct (notePos note _); [|left; reflexivity].
  destruct (distanceTo_lt _ _ 1); [|left; reflexivity].
  destruct (length_lt _ _); [left; reflexivity|].
  right. exists r, note. auto 6.
Qed.

(** A collision test or miss check on a note that is already resolved
    changes nothing and calls no callback. *)
Lemma collideNote_resolved now hands i st r note :
  activeNotesRef st.1 !! i = Some r -> notesState st.1 !! r = Some note ->
  resolved note = true -> collideNote now hands i st = st.
Proof.
  intros Hi Hr Hres. unfold GameScene.collideNote. rewrite Hi, Hr.
  unfold resolved in Hres. rewrite Hres. reflexivity.
Qed.

Lemma resolve_store_evolves f r i sc note :
  notesState sc !! r = Some note -> evolves note (f note) ->
  store_evolves (notesState sc) (notesState (resolve f r i sc)).
Proof. intros Hr He. simpl. eapply store_evolves_alter; eauto. Qed.

Lemma resolve_SceneInv f r i sc :
  activeNotesRef sc !! i = Some r -> SceneInv sc -> SceneInv (resolve f r i sc).
Proof.
  intros Hi (Hnd & Hlt & Hfresh). unfold SceneInv. simpl.
  split; [|split].
  - eapply sublist_NoDup; [exact Hnd|apply sublist_delete].
  - intros r' Hr'. apply Hlt. eapply list_elem_of_delete_inv. exact Hr'.
  - intros r' n Hn Hr'.
    assert (Hne : r <> r').
    { intros <-. destruct Hr' as [Hr'|Hr'].
      - exact (delete_NoDup_notin _ _ _ Hnd Hi Hr').
      - pose proof (Hlt r (list_elem_of_lookup_2 _ _ _ Hi)). lia. }
    rewrite list_lookup_alter_ne in Hn by exact Hne.
    apply (Hfresh r' n Hn). destruct Hr' as [Hr'|Hr']; [left|right; exact Hr'].
    eapply list_elem_of_delete_inv. exact Hr'.
Qed.

Lemma collideNote_scene now hands i st :
  store_evolves (notesState st.1) (notesState (collideNote now hands i st).1)
  /\ (SceneInv st.1 -> SceneInv (collideNote now hands i st).1).
Proof.
  destruct (collideNote_cases now hands i st)
    as [->|(r & note & Hi & Hr & Hf & [->| ->])].
  - split; [apply store_evolves_refl|auto].
  - split; [|apply resolve_SceneInv; exact Hi].
    eapply resolve_store_evolves; [exact Hr|]. right. split; [exact Hf|]. left. reflexivity.
  - split; [|apply resolve_SceneInv; exact Hi].
    eapply resolve_store_evolves; [exact Hr|]. right. split; [exact Hf|]. right.
    exists now. reflexivity.
Qed.

Lemma collideLoop_scene now hands n : forall st,
  store_evolves (notesState st.1) (notesState (collideLoop now hands n st).1)
  /\ (SceneInv st.1 -> SceneInv (collideLoop now hands n st).1).
Proof.
  induction n as [|n IH]; intros st; simpl.
  - split; [apply store_evolves_refl|auto].
  - destruct (collideNote_scene now hands n st) as [He Hi].
    destruct (IH (collideNote now hands n st)) as [He' Hi'].
    split; [eapply store_evolves_trans; eauto|auto].
Qed.

(** The callbacks are the only writers of the parent's state. *)
Lemma collideLoop_parent (P : A -> Prop) now hands :
  (forall n a, P a -> P (onNoteHit n (isCorrect n) a)) ->
  (forall n a, P a -> P (onNoteMiss n a)) ->
  forall n st, P st.2 -> P (collideLoop now hands n st).2.
Proof.
  intros Hhit Hmiss. induction n as [|n IH]; intros st HP; simpl; [exact HP|].
  apply IH.
  destruct (collideNote_cases now hands n st) as [->|(r & note & _ & _ & _ & [->| ->])].
  - exact HP.
  - apply Hmiss, HP.
  - apply (Hhit (markHit now note)), HP.
Qed.

Lemma spawn_SceneInv sc :
  SceneInv sc -> SceneInv (spawn sc).
Proof.
  intros (Hnd & Hlt & Hfresh). unfold SceneInv. simpl. split; [|split].
  - apply NoDup_app. split; [exact Hnd|]. split; [|apply NoDup_singleton].
    intros r Hr. rewrite list_elem_of_singleton. specialize (Hlt r Hr). lia.
  - intros r. rewrite elem_of_app, list_elem_of_singleton.
    intros [Hr| ->]; [specialize (Hlt r Hr)|]; lia.
  - intros r n Hn Hr. apply (Hfresh r n Hn).
    rewrite elem_of_app, list_elem_of_singleton in Hr.
    destruct Hr as [[Hr| ->]|Hr]; [left; exact Hr|right; lia|right; lia].
Qed.

Lemma spawnLoop_scene fuel now : forall sc,
  notesState (spawnLoop fuel now sc) = notesState sc
  /\ (SceneInv sc -> SceneInv (spawnLoop fuel now sc)).
Proof.
  induction fuel as [|fuel IH]; intros sc; simpl; [auto|].
  destruct (notesState sc !! nextNoteIndexRef sc); [|auto].
  destruct (Qle_bool _ now); [|auto].
  destruct (IH (spawn sc)) as [Hs Hi]. split; [exact Hs|].
  intros H. apply Hi, spawn_SceneInv, H.
Qed.

(** The fuel given by [useFrame] is enough: the loop stops because every
    note is spawned or because the next note is not due yet. *)
Lemma spawnLoop_complete fuel now : forall sc,
  (length (notesState sc) - nextNoteIndexRef sc <= fuel)%nat ->
  match notesState sc !! nextNoteIndexRef (spawnLoop fuel now sc) with
  | None => True
  | Some nextNote => Qle_bool (time nextNote - spawnAheadTime) now = false
  end.
Proof.
  induction fuel as [|fuel IH]; intros sc Hfuel; simpl.
  - rewrite (proj2 (lookup_ge_None _ _)) by lia. exact I.
  - destruct (notesState sc !! nextNoteIndexRef sc) as [nextNote|] eqn:E.
    + destruct (Qle_bool _ now) eqn:Hle.
      * apply (IH (spawn sc)). simpl. lia.
      * rewrite E. exact Hle.
    + rewrite E. exact I.
Qed.

Lemma setCurrentTime_SceneInv t sc : SceneInv sc -> SceneInv (setCurrentTime t sc).
Proof. intros H. exact H. Qed.

Lemma useFrame_scene gameStatus audio hands st :
  store_evolves (notesState st.1) (notesState (useFrame gameStatus audio hands st).1)
  /\ (SceneInv st.1 -> SceneInv (useFrame gameStatus audio hands st).1).
Proof.
  unfold GameScene.useFrame.
  destruct audio as [au|]; [|split; [apply store_evolves_refl|auto]].
  destruct (negb _); [split; [apply store_evolves_refl|auto]|].
  destruct (Audio.ended au); [split; [apply store_evolves_refl|auto]|].
  set (sc := setCurrentTime (Audio.currentTime au) st.1).
  set (sc' := spawnLoop _ _ sc).
  destruct (spawnLoop_scene (length (notesState sc) - nextNoteIndexRef sc)
              (Audio.currentTime au) sc) as [Hs Hi].
  fold sc' in Hs, Hi.
  destruct (collideLoop_scene (Audio.currentTime au) hands (length (activeNotesRef sc'))
              (sc', updateInstruction setInstruction sc' st.2)) as [He Hi'].
  simpl in He, Hi'. rewrite Hs in He. split; [exact He|].
  intros H. apply Hi', Hi, setCurrentTime_SceneInv, H.
Qed.

Lemma useFrame_parent (P : A -> Prop) gameStatus audio hands st :
  (forall n a, P a -> P (onNoteHit n (isCorrect n) a)) ->
  (forall n a, P a -> P (onNoteMiss n a)) ->
  (forall a, P a -> P (onSongEnd a)) ->
  (forall t a, P a -> P (setInstruction t a)) ->
  P st.2 -> P (useFrame gameStatus audio hands st).2.
Proof.
  intros Hhit Hmiss Hend Hins HP. unfold GameScene.useFrame.
  destruct audio as [au|]; [|exact HP].
  destruct (negb _); [exact HP|].
  destruct (Audio.ended au); [apply Hend, HP|].
  apply collideLoop_parent; [exact Hhit|exact Hmiss|]. simpl.
  unfold updateInstruction. destruct (0 <? _)%nat; [|exact HP].
  destruct (List.filter _ _); [exact HP|apply Hins, HP].
Qed.

(** The trace of the loop ends in the state that the loop returns, the
    loop run from any state of the trace reaches that state, and a
    property of the parent's state that the callbacks keep holds along the
    trace. *)
Lemma collideStates_last now hands n : forall st,
  last (collideStates onNoteHit onNoteMiss now hands n st)
  = Some (collideLoop now hands n st).
Proof.
  induction n as [|n IH]; intros st; [reflexivity|].
  cbn [collideStates GameScene.collideLoop].
  specialize (IH (collideNote now hands n st)).
  destruct (collideStates onNoteHit onNoteMiss now hands n (collideNote now hands n st))
    as [|st' l] eqn:E; [discriminate|].
  rewrite <- IH. reflexivity.
Qed.

Lemma collideStates_continue now hands n : forall st st',
  st' ∈ collideStates onNoteHit onNoteMiss now hands n st ->
  exists k, collideLoop now hands k st' = collideLoop now hands n st.
Proof.
  induction n as [|n IH]; intros st st' Hin; cbn [collideStates] in Hin.
  - apply list_elem_of_singleton in Hin as ->. exists 0%nat. reflexivity.
  - apply elem_of_cons in Hin as [->|Hin]; [exists (S n); reflexivity|].
    apply IH in Hin as [k Hk]. exists k. exact Hk.
Qed.

Lemma collideStates_parent (P : A -> Prop) now hands :
  (forall n a, P a -> P (onNoteHit n (isCorrect n) a)) ->
  (forall n a, P a -> P (onNoteMiss n a)) ->
  forall n st, P st.2 ->
    Forall (fun st' => P st'.2) (collideStates onNoteHit onNoteMiss now hands n st).
Proof.
  intros Hhit Hmiss. induction n as [|n IH]; intros st HP; cbn [collideStates].
  - repeat constructor. exact HP.
  - constructor; [exact HP|]. apply IH.
    destruct (collideNote_cases now hands n st)
      as [->|(r & note & _ & _ & _ & [->| ->])];
      [exact HP|apply Hmiss, HP|apply (Hhit (markHit now note)), HP].
Qed.

End SceneFacts.

(** ** Sessions *)

Section SessionFacts.
Import App Session.

Lemma multiplierFor_range c : 1 <= multiplierFor c <= 4.
Proof. unfold multiplierFor. destruct (10 <? c), (5 <? c); lia. Qed.

Lemma multiplierFor_value c : multiplierValue (multiplierFor c).
Proof. unfold multiplierFor, multiplierValue. destruct (10 <? c), (5 <? c); auto. Qed.

Lemma multiplierValue_range m : multiplierValue m -> 1 <= m <= 4.
Proof. unfold multiplierValue. lia. Qed.

Lemma handleNoteHit_TickInv m note goodCut s :
  0 <= m -> TickInv s -> TickInv (handleNoteHit m note goodCut s).
Proof.
  intros Hm (Hh & Hs & Hc & Hmul & Hup & Ht & Hz).
  destruct (goodCut && isCorrect note) eqn:E.
  - apply andb_true_iff in E as [-> Hcor].
    destruct (handleNoteHit_good m note s Hcor)
      as (Hc' & Hm' & Hu' & Hs' & Hh' & _ & _ & Ht').
    unfold TickInv. rewrite Hc', Hm', Hu', Hs', Hh', Ht'.
    split; [lia|]. split; [nia|]. split; [lia|]. split; [exact Hmul|].
    split; [apply Forall_app; split;
             [exact Hup|constructor; [apply (multiplierFor_value (combo s + 1))|constructor]]|].
    split; [exact Ht|]. intros H0. exfalso. lia.
  - destruct (handleNoteHit_wrong m note goodCut s E)
      as (Hc' & Hm' & Hs' & Hh' & _ & _ & Ht').
    unfold TickInv.
    rewrite (handleNoteHit_wrong_inUpdater m note goodCut s E), Hc', Hm', Hs', Hh', Ht'.
    destruct (Z.leb_spec (health s - 10) 0).
    + repeat split; try lia; try (unfold multiplierValue; auto; fail); try exact Hup.
      * apply Forall_app. split; [exact Ht|repeat constructor].
      * intros Hnil. apply app_eq_nil in Hnil as [_ Hnil]. discriminate.
    + repeat split; try lia; try (unfold multiplierValue; auto; fail); try exact Hup;
        try exact Ht.
Qed.

Lemma handleNoteMiss_TickInv note s : TickInv s -> TickInv (handleNoteMiss note s).
Proof.
  intros H. destruct (isCorrect note) eqn:E;
    [|unfold handleNoteMiss; rewrite E; exact H].
  destruct H as (Hh & Hs & Hc & Hmul & Hup & Ht & Hz).
  destruct (handleNoteMiss_penalty note s E) as (Hc' & Hm' & Hs' & Hh' & _ & _ & Ht').
  unfold TickInv. rewrite (handleNoteMiss_inUpdater note s), Hc', Hm', Hs', Hh', Ht'.
  destruct (Z.leb_spec (health s - 15) 0).
  - repeat split; try lia; try (unfold multiplierValue; auto; fail); try exact Hup.
    + apply Forall_app. split; [exact Ht|repeat constructor].
    + intros Hnil. apply app_eq_nil in Hnil as [_ Hnil]. discriminate.
  - repeat split; try lia; try (unfold multiplierValue; auto; fail); try exact Hup;
      try exact Ht.
Qed.

Lemma useFrame_not_playing audio hands w :
  gameStatus (app w) <> PLAYING -> useFrame audio hands w = (scene w, app w).
Proof.
  intros Hs. unfold useFrame, GameScene.useFrame.
  destruct audio; [|reflexivity].
  rewrite bool_decide_eq_false_2 by exact Hs. reflexivity.
Qed.

Lemma useFrame_TickInv audio hands w :
  TickInv (app w) -> TickInv (useFrame audio hands w).2.
Proof.
  intros H. unfold useFrame.
  apply (useFrame_parent _ _ _ _ TickInv); try exact H.
  - intros n a. apply handleNoteHit_TickInv.
    destruct H as (_ & _ & _ & Hm & _). apply multiplierValue_range in Hm. lia.
  - intros n a. apply handleNoteMiss_TickInv.
  - intros a Ha. exact Ha.
  - intros t a Ha. exact Ha.
Qed.

Lemma AppInv_TickInv s : AppInv s -> gameStatus s = PLAYING -> TickInv s.
Proof.
  intros (Hh & Hs & Hc & Hm & Hu & Ht & Hp) Hplay. unfold TickInv. rewrite Hu, Ht.
  specialize (Hp Hplay).
  repeat split; try assumption; try lia; constructor.
Qed.

Lemma Forall_last {X : Type} (P : X -> Prop) l d : Forall P l -> P d -> P (List.last l d).
Proof.
  intros Hl Hd. induction Hl as [|v l Hv Hl IH]; [exact Hd|].
  destruct l; [exact Hv|exact IH].
Qed.

(** After the render and the timeouts of a frame. *)
Lemma TickInv_runTimeouts s :
  TickInv s -> AppInv (runTimeouts (render s))
               /\ (timeouts s <> [] -> gameStatus (runTimeouts (render s)) = GAME_OVER).
Proof.
  intros (Hh & Hs & Hc & Hm & Hu & Ht & Hz).
  destruct (render_fields s) as (Hg1 & Hs1 & Hc1 & Hh1 & Hi1 & Hu1 & Ht1 & Hm1).
  destruct (runTimeouts_fields (render s)) as (Hs' & Hc' & Hm' & Hh' & _ & Ht').
  assert (Hover : timeouts s <> [] -> gameStatus (runTimeouts (render s)) = GAME_OVER).
  { intros Hne. apply runTimeouts_all_false; rewrite Ht1; assumption. }
  split; [|exact Hover].
  unfold AppInv. rewrite runTimeouts_inUpdater, Hs', Hc', Hm', Hh', Ht', Hs1, Hc1, Hh1, Hm1, Hu1.
  repeat split; try assumption; try lia.
  - apply Forall_last; assumption.
  - intros Hplay. destruct (timeouts s) as [|v l] eqn:E.
    + assert (health s <> 0) by (intros H0; apply (Hz H0); reflexivity). lia.
    + rewrite Hover in Hplay; [discriminate|discriminate].
Qed.

Lemma step_AppInv w a : AppInv (app w) -> AppInv (app (step w a)).
Proof.
  intros Hinv. destruct a as [|ready played| |audio hands]; simpl.
  - unfold cameraEffect. destruct (bool_decide _ && true) eqn:E; [|exact Hinv].
    apply andb_true_iff in E as [E _]. apply bool_decide_eq_true in E.
    destruct Hinv as (? & ? & ? & ? & ? & ? & ?).
    repeat split; try assumption; simpl; try lia.
    discriminate.
  - destruct (bool_decide _); [|exact Hinv]. simpl.
    unfold startGame. destruct ready; [|exact Hinv]. simpl.
    destruct Hinv as (? & ? & ? & ? & ? & ? & ?).
    destruct played; repeat split; simpl; try assumption; try lia;
      try reflexivity; unfold multiplierValue; auto.
  - destruct (_ || _) eqn:E; [|exact Hinv]. simpl.
    destruct Hinv as (? & ? & ? & ? & ? & ? & ?).
    repeat split; try assumption; simpl; try lia.
    discriminate.
  - destruct (decide (gameStatus (app w) = PLAYING)) as [Hplay|Hnp].
    + pose proof (useFrame_TickInv audio hands w (AppInv_TickInv _ Hinv Hplay)) as Ht.
      destruct (useFrame audio hands w) as [sc a]. simpl in *.
      apply TickInv_runTimeouts, Ht.
    + rewrite (useFrame_not_playing _ _ _ Hnp). simpl.
      rewrite render_nil by apply Hinv.
      rewrite runTimeouts_nil; [exact Hinv|apply Hinv].
Qed.

Lemma run_AppInv actions : forall w, AppInv (app w) -> AppInv (app (run w actions)).
Proof.
  induction actions as [|a actions IH]; intros w H; simpl; [exact H|].
  apply IH, step_AppInv, H.
Qed.

Lemma initial_AppInv : AppInv initial.
Proof. unfold AppInv, multiplierValue. simpl. repeat split; auto; lia. Qed.

Lemma step_scene w a :
  store_evolves (GameScene.notesState (scene w)) (GameScene.notesState (scene (step w a)))
  /\ (SceneInv (scene w) -> SceneInv (scene (step w a))).
Proof.
  destruct a as [|ready played| |audio hands]; simpl;
    try (split; [apply store_evolves_refl|auto]; fail).
  - destruct (bool_decide _); simpl; split; try apply store_evolves_refl; auto.
  - destruct (_ || _); simpl; split; try apply store_evolves_refl; auto.
  - pose proof (useFrame_scene (handleNoteHit (multiplier (app w)))
                  handleNoteMiss (endGame true) setInstruction
                  (gameStatus (app w)) audio hands (scene w, app w)) as H.
    unfold useFrame. destruct (GameScene.useFrame _ _ _ _ _ _ _ _) as [sc a].
    exact H.
Qed.

Lemma run_scene actions : forall w,
  store_evolves (GameScene.notesState (scene w))
    (GameScene.notesState (scene (run w actions)))
  /\ (SceneInv (scene w) -> SceneInv (scene (run w actions))).
Proof.
  induction actions as [|a actions IH]; intros w; simpl.
  - split; [apply store_evolves_refl|auto].
  - destruct (step_scene w a) as [He Hi]. destruct (IH (step w a)) as [He' Hi'].
    split; [eapply store_evolves_trans; eauto|auto].
Qed.

Lemma mount_SceneInv chart : Forall fresh chart -> SceneInv (GameScene.mount chart).
Proof.
  intros Hf. unfold SceneInv. simpl. split; [apply NoDup_nil_2|]. split.
  - intros r Hr. apply elem_of_nil in Hr. contradiction.
  - intros r n Hn _. rewrite Forall_forall in Hf. apply Hf.
    eapply list_elem_of_lookup_2. exact Hn.
Qed.

End SessionFacts.
(** ** Scoring *)

Section ScoringClaims.
Import App Session.

Lemma handleNoteMiss_incorrect_unchanged_witness :
  let note := distractorNote (Q_ "" "WON" ["WIN"]) 0 [0; 1]%nat 0 1 "WIN" in
  isCorrect note = false
  /\ handleNoteMiss note initial = initial
  /\ health (handleNoteMiss note initial) = health initial.
Proof.
  pose proof (handleNoteMiss_incorrect_unchanged
                (distractorNote (Q_ "" "WON" ["WIN"]) 0 [0; 1]%nat 0 1 "WIN")
                initial eq_refl) as (H1 & _ & _ & _ & H2 & _).
  split; [reflexivity|]. split; [exact H1|exact H2].
Defined.

(** What the miss of a correct note does to the cells it writes: the combo
    is 0, health is lowered by 15, where a wrong hit costs 10, and stops at
    0, and at health 10 the scheduled [endGame(false)] gives [GAME_OVER].
    The multiplier after the render is 1 when no [setCombo] updater is
    waiting, and otherwise what the last of them sets. *)
Lemma handleNoteMiss_after_render note s :
  isCorrect note = true ->
  let s' := render (handleNoteMiss note s) in
  combo s' = 0 /\ health s' = Z.max 0 (health s - 15)
  /\ multiplier s' = List.last (inUpdater s) 1
  /\ (health s <= 15 -> health s' = 0 /\ gameStatus (runTimeouts s') = GAME_OVER).
Proof.
  intros Hc s'.
  destruct (handleNoteMiss_penalty note s Hc) as (Hco & Hm & _ & Hh & _ & _ & Ht).
  destruct (render_fields (handleNoteMiss note s))
    as (_ & _ & Hc1 & Hh1 & _ & _ & Ht1 & Hm1).
  fold s' in Hc1, Hh1, Ht1, Hm1.
  rewrite handleNoteMiss_inUpdater, Hm in Hm1.
  split; [lia|]. split; [lia|]. split; [exact Hm1|].
  intros Hle. split; [lia|].
  unfold runTimeouts. rewrite Ht1, Ht.
  destruct (Z.leb_spec (health s - 15) 0); [|lia].
  apply foldl_endGame_status.
Qed.

(** In a session: with health at 10, the correct answer of the third
    question passes the player untouched; the frame that sees it beyond
    [MISS_Z] leaves health at 0 and the session in [GAME_OVER]. *)
Remark miss_at_health_10_in_session :
  let w := afterWrongHits 3 in
  let w' := step w (Frame (Some {| Audio.currentTime := beatTime 2 + 1;
                                   Audio.ended := false |})
                      {| HandPositions.left := None; HandPositions.right := None;
                         HandPositions.leftVelocity := velocity 0 0 0;
                         HandPositions.rightVelocity := velocity 0 0 0 |}) in
  gameStatus (app w) = PLAYING /\ health (app w) = 10
  /\ health (app w') = 0 /\ gameStatus (app w') = GAME_OVER.
Proof. vm_compute. repeat split. Qed.

(** C7: the miss handler calls [setCombo(0)] and [setMultiplier(1)], yet
    the multiplier is not 1 after every Miss of a correct note.  In the
    session where the first five questions are answered correctly and no
    frame is drawn until the seventh question reaches the player, that
    frame hits the correct answer of the seventh question and then finds
    the correct answer of the sixth beyond [MISS_Z].  The hit raises the
    combo to 6 and its [setCombo] updater calls [setMultiplier(2)]; React
    runs the updater at the render, after the [setMultiplier(1)] of the
    miss.  The session is left with combo 0, health 85 and multiplier 2. *)
Theorem miss_after_hit_leaves_multiplier_2 :
  let w := afterCorrectHits 5 in
  let a := (useFrame (Some {| Audio.currentTime := beatTime 6; Audio.ended := false |})
              handsOnCorrect w).2 in
  let w' := step w (frameAt 6 handsOnCorrect) in
  (gameStatus (app w) = PLAYING /\ combo (app w) = 5 /\ multiplier (app w) = 1
   /\ health (app w) = 100)
  /\ (exists hitNote missedNote,
        plainChart !! 18%nat = Some hitNote /\ plainChart !! 15%nat = Some missedNote
        /\ isCorrect hitNote = true /\ isCorrect missedNote = true
        /\ a = handleNoteMiss (GameScene.markMissed missedNote)
                 (handleNoteHit 1 (GameScene.markHit (beatTime 6) hitNote) true
                    (setInstruction "I am ___ a book right now." (app w))))
  /\ (gameStatus (app w') = PLAYING /\ combo (app w') = 0 /\ health (app w') = 85
      /\ multiplier (app w') = 2)
  /\ multiplier (app w') <> 1.
Proof.
  split; [vm_compute; repeat split|].
  split; [|split; [vm_compute; repeat split|vm_compute; discriminate]].
  eexists _, _. split; [vm_compute; reflexivity|]. split; [vm_compute; reflexivity|].
  split; [reflexivity|]. split; [reflexivity|]. vm_compute. reflexivity.
Qed.

(** In the session where the first questions are all answered correctly,
    the eleventh hit arrives at combo 10 and multiplier 2; it raises the
    combo to 11 and the multiplier to 4 and adds 200 to the score, not
    400. *)
Lemma eleventh_hit_scores_200 :
  let before := app (afterCorrectHits 10) in
  let after := app (step (afterCorrectHits 10) (frameAt 10 handsOnCorrect)) in
  combo before = 10 /\ multiplier before = 2
  /\ combo after = 11 /\ multiplier after = 4
  /\ score after = score before + 200
  /\ score after <> score before + 400.
Proof. vm_compute. repeat split; discriminate. Qed.

(** C4, amended: a Hit with [goodCut = true] on a correct note at combo 10
    makes the combo 11 and the multiplier 4, and adds to the score 100 times
    the multiplier that the handler captured at the last render, the one
    in force before the hit: 200 when that is the multiplier 2 that goes
    with combo 10. *)
Theorem handleNoteHit_at_combo_10 (m : Z) (note : NoteData) (s : State) :
  isCorrect note = true -> combo s = 10 ->
  let s' := render (handleNoteHit m note true s) in
  combo s' = 11 /\ multiplier s' = 4
  /\ score s' = score s + 100 * m
  /\ (m = multiplier s -> multiplier s = multiplierFor (combo s) ->
      score s' = score s + 200).
Proof.
  intros Hc H10 s'.
  destruct (handleNoteHit_good m note s Hc) as (Hco & _ & Hu & Hs & _).
  destruct (render_fields (handleNoteHit m note true s))
    as (_ & Hs1 & Hc1 & _ & _ & _ & _ & Hm1).
  fold s' in Hs1, Hc1, Hm1.
  rewrite Hu, H10, last_last in Hm1. simpl in Hm1.
  split; [lia|]. split; [exact Hm1|]. split; [lia|].
  intros -> Hmul. rewrite Hs1, Hs, Hmul, H10. reflexivity.
Qed.

Lemma handleNoteHit_at_combo_10_witness :
  let s := app (afterCorrectHits 10) in
  let s' := render (handleNoteHit (multiplier s)
                      (correctNote (Q_ "" "WON" []) 0 [0%nat] 0) true s) in
  combo s = 10
  /\ combo s' = 11 /\ multiplier s' = 4 /\ score s' = score s + 100 * multiplier s
  /\ score s' = score s + 200.
Proof.
  assert (H10 : combo (app (afterCorrectHits 10)) = 10) by (vm_compute; reflexivity).
  assert (Hmul : multiplier (app (afterCorrectHits 10))
                 = multiplierFor (combo (app (afterCorrectHits 10))))
    by (vm_compute; reflexivity).
  destruct (handleNoteHit_at_combo_10 (multiplier (app (afterCorrectHits 10)))
              (correctNote (Q_ "" "WON" []) 0 [0%nat] 0)
              (app (afterCorrectHits 10)) eq_refl H10) as (H1 & H2 & H3 & H4).
  split; [exact H10|]. split; [exact H1|]. split; [exact H2|]. split; [exact H3|].
  exact (H4 eq_refl Hmul).
Defined.

(** C2: in every session, after every action, and in every frame before
    its timeouts run, health lies in [0, 100] and the score is not
    negative.  The correct-hit handler caps health at 100 and adds 100 times
    a multiplier that is at least 1 to the score; the two penalty handlers
    stop health at 0 and leave the score alone. *)
Theorem health_and_score_in_range (chart : list NoteData) (actions : list Action) :
  let w := run (start chart) actions in
  (0 <= health (app w) <= 100 /\ 0 <= score (app w))
  /\ 1 <= multiplier (app w) <= 4
  /\ (forall audio hands,
        let a := (useFrame audio hands w).2 in
        0 <= health a <= 100 /\ 0 <= score a)
  /\ (forall m note s, isCorrect note = true ->
        health (handleNoteHit m note true s) = Z.min 100 (health s + 5)
        /\ score (handleNoteHit m note true s) = score s + 100 * m)
  /\ (forall m note goodCut s, goodCut && isCorrect note = false ->
        health (handleNoteHit m note goodCut s) = Z.max 0 (health s - 10)
        /\ score (handleNoteHit m note goodCut s) = score s)
  /\ (forall note s, isCorrect note = true ->
        health (handleNoteMiss note s) = Z.max 0 (health s - 15)
        /\ score (handleNoteMiss note s) = score s).
Proof.
  intros w.
  assert (Hinv : AppInv (app w)) by apply run_AppInv, initial_AppInv.
  split; [destruct Hinv as (? & ? & _); auto|].
  split; [destruct Hinv as (_ & _ & _ & Hm & _); apply multiplierValue_range, Hm|].
  split; [|split; [|split]].
  - intros audio hands a.
    destruct (decide (gameStatus (app w) = PLAYING)) as [Hplay|Hnp].
    + destruct (useFrame_TickInv audio hands w (AppInv_TickInv _ Hinv Hplay))
        as (? & ? & _). auto.
    + unfold a. rewrite (useFrame_not_playing _ _ _ Hnp). simpl.
      destruct Hinv as (? & ? & _). auto.
  - intros m note s Hc.
    destruct (handleNoteHit_good m note s Hc) as (_ & _ & _ & ? & ? & _). auto.
  - intros m note g s Hw.
    destruct (handleNoteHit_wrong m note g s Hw) as (_ & _ & ? & ? & _). auto.
  - intros note s Hc.
    destruct (handleNoteMiss_penalty note s Hc) as (_ & _ & ? & ? & _). auto.
Qed.

Lemma health_and_score_in_range_witness :
  let s := app (run (start plainChart) (wrongHits 4)) in
  let note := correctNote (Q_ "" "WON" []) 0 [0%nat] 0 in
  (0 <= health s <= 100 /\ 0 <= score s)
  /\ health (handleNoteHit 4 note true initial) = Z.min 100 (health initial + 5)
  /\ health (handleNoteHit 1 note false initial) = Z.max 0 (health initial - 10)
  /\ health (handleNoteMiss note initial) = Z.max 0 (health initial - 15).
Proof.
  destruct (health_and_score_in_range plainChart (wrongHits 4))
    as (H1 & _ & _ & H2 & H3 & H4).
  split; [exact H1|]. split; [|split].
  - exact (proj1 (H2 4 (correctNote (Q_ "" "WON" []) 0 [0%nat] 0) initial eq_refl)).
  - exact (proj1 (H3 1 (correctNote (Q_ "" "WON" []) 0 [0%nat] 0) false initial eq_refl)).
  - exact (proj1 (H4 (correctNote (Q_ "" "WON" []) 0 [0%nat] 0) initial eq_refl)).
Defined.

(** In the session where both distractors of every question are struck,
    health is 10 when the fourth question arrives.  In that one frame the
    two wrong hits and the miss of the third correct answer each find
    [newHealth <= 0], and each schedules [endGame(false)]: end of session
    is triggered three times. *)
Lemma endGame_scheduled_three_times :
  let w := afterWrongHits 3 in
  let a := (useFrame (Some {| Audio.currentTime := beatTime 3; Audio.ended := false |})
              handsOnDistractors w).2 in
  gameStatus (app w) = PLAYING /\ health (app w) = 10
  /\ health a = 0 /\ timeouts a = [false; false; false]
  /\ length (timeouts a) <> 1%nat.
Proof. vm_compute. repeat split; discriminate. Qed.

Lemma foldl_endGame_false l : forall s,
  l <> [] -> Forall (fun victory => victory = false) l ->
  foldl (fun s victory => endGame victory s) s l = endGame false s.
Proof.
  induction l as [|v l IH]; intros s Hne Hall; [congruence|].
  inversion Hall as [|? ? -> Hall']; subst. simpl.
  destruct l as [|v' l]; [reflexivity|].
  rewrite IH; [reflexivity|discriminate|exact Hall'].
Qed.

(** The handlers only add to the scheduled timeouts. *)
Lemma handleNoteHit_keeps_timeouts m note goodCut s :
  timeouts s <> [] -> timeouts (handleNoteHit m note goodCut s) <> [].
Proof.
  intros Hne. destruct (goodCut && isCorrect note) eqn:E.
  - apply andb_true_iff in E as [-> Hcor].
    destruct (handleNoteHit_good m note s Hcor) as (_ & _ & _ & _ & _ & _ & _ & ->).
    exact Hne.
  - destruct (handleNoteHit_wrong m note goodCut s E) as (_ & _ & _ & _ & _ & _ & ->).
    destruct (_ <=? _); [|exact Hne].
    intros H. apply app_eq_nil in H as [_ H]. discriminate.
Qed.

Lemma handleNoteMiss_keeps_timeouts note s :
  timeouts s <> [] -> timeouts (handleNoteMiss note s) <> [].
Proof.
  intros Hne. destruct (isCorrect note) eqn:E;
    [|unfold handleNoteMiss; rewrite E; exact Hne].
  destruct (handleNoteMiss_penalty note s E) as (_ & _ & _ & _ & _ & _ & ->).
  destruct (_ <=? _); [|exact Hne].
  intros H. apply app_eq_nil in H as [_ H]. discriminate.
Qed.

(** C3, amended: whenever health is 0 at some point of a frame of a
    session in play, be it raised again by a correct hit later in that
    frame or not, the session is in [GAME_OVER] once the frame is rendered
    and its timeouts have run.  A penalty that arrives when health is 0
    changes nothing but the list of timeouts: score, combo, multiplier,
    health and status stay as they are, and [endGame(false)] is scheduled
    once more.  The scheduled calls all set the same status, so any number
    of them leaves the state that one leaves.  [frameStates] lists the
    states that the frame passes through, the last being the state that
    the frame returns. *)
Theorem health_zero_ends_in_defeat (chart : list NoteData) (actions : list Action)
    (au : Audio.t) (hands : HandPositions.t) :
  let w := run (start chart) actions in
  let w' := step w (Frame (Some au) hands) in
  gameStatus (app w) = PLAYING -> Audio.ended au = false ->
  last (frameStates au hands w) = Some (useFrame (Some au) hands w).2
  /\ (forall a, a ∈ frameStates au hands w -> health a = 0 ->
        gameStatus (app w') = GAME_OVER
        /\ (forall note, isCorrect note = true ->
              handleNoteMiss note a = setTimeout_endGame false a)
        /\ (forall m note goodCut, goodCut && isCorrect note = false ->
              handleNoteHit m note goodCut a = setTimeout_endGame false a))
  /\ (forall s n,
        runTimeouts (setTimeouts (replicate (S n) false) s)
        = runTimeouts (setTimeouts [false] s))
  /\ (forall victory s, endGame victory (endGame victory s) = endGame victory s).
Proof.
  intros w w' Hplay Hend.
  assert (Hinv : AppInv (app w)) by apply run_AppInv, initial_AppInv.
  pose proof (AppInv_TickInv _ Hinv Hplay) as Htick.
  set (now := Audio.currentTime au).
  set (sc := GameScene.spawnLoop
               (length (GameScene.notesState (GameScene.setCurrentTime now (scene w)))
                - GameScene.nextNoteIndexRef (GameScene.setCurrentTime now (scene w)))
               now (GameScene.setCurrentTime now (scene w))).
  set (a0 := GameScene.updateInstruction setInstruction sc (app w)).
  set (hit := handleNoteHit (multiplier (app w))).
  set (n := length (GameScene.activeNotesRef sc)).
  assert (Hfs : frameStates au hands w
                = app w :: (collideStates hit handleNoteMiss now hands n (sc, a0)).*2)
    by reflexivity.
  assert (Hu : useFrame (Some au) hands w
               = GameScene.collideLoop hit handleNoteMiss now hands n (sc, a0)).
  { unfold useFrame, GameScene.useFrame.
    rewrite bool_decide_eq_true_2 by exact Hplay. cbn [negb]. rewrite Hend. reflexivity. }
  assert (Ha0 : TickInv a0).
  { unfold a0, GameScene.updateInstruction. destruct (0 <? _)%nat; [|exact Htick].
    destruct (List.filter _ _); exact Htick. }
  assert (Hm0 : 0 <= multiplier (app w)).
  { destruct Hinv as (_ & _ & _ & Hm & _). apply multiplierValue_range in Hm. lia. }
  split; [|split; [|split]].
  - rewrite Hfs, Hu.
    pose proof (collideStates_last hit handleNoteMiss now hands n (sc, a0)) as Hl.
    destruct (collideStates hit handleNoteMiss now hands n (sc, a0)) as [|st l] eqn:E;
      [discriminate|].
    change (last (app w :: (st :: l).*2)) with (last ((st :: l).*2)).
    rewrite fmap_last, Hl. reflexivity.
  - intros a Hin H0. rewrite Hfs in Hin.
    apply elem_of_cons in Hin as [->|Hin].
    { destruct Hinv as (_ & _ & _ & _ & _ & _ & Hpos). specialize (Hpos Hplay). lia. }
    apply list_elem_of_fmap in Hin as (st & -> & Hin).
    assert (Ht : TickInv st.2).
    { pose proof (collideStates_parent hit handleNoteMiss TickInv now hands
                    (fun n a => handleNoteHit_TickInv _ n (isCorrect n) a Hm0)
                    handleNoteMiss_TickInv n (sc, a0) Ha0) as Hall.
      rewrite Forall_forall in Hall. exact (Hall st Hin). }
    destruct Ht as (_ & _ & _ & _ & _ & _ & Hz).
    destruct (Hz H0) as (Hco & Hmul & Hne).
    split; [|split].
    + destruct (collideStates_continue hit handleNoteMiss now hands n (sc, a0) st Hin)
        as [k Hk].
      assert (Hfin : timeouts (useFrame (Some au) hands w).2 <> []).
      { rewrite Hu, <- Hk.
        apply (collideLoop_parent hit handleNoteMiss (fun a => timeouts a <> []));
          [|intros; apply handleNoteMiss_keeps_timeouts; assumption|exact Hne].
        intros; apply handleNoteHit_keeps_timeouts; assumption. }
      pose proof (useFrame_TickInv (Some au) hands w Htick) as Htf.
      unfold w'. cbn [step].
      destruct (useFrame (Some au) hands w) as [sc' a']. cbn [snd app] in *.
      apply TickInv_runTimeouts; assumption.
    + intros note Hc. unfold handleNoteMiss. rewrite Hc. cbn.
      rewrite H0. cbn. destruct (st.2); simpl in *; subst; reflexivity.
    + intros m note g Hw. unfold handleNoteHit. rewrite Hw. cbn.
      rewrite H0. cbn. destruct (st.2); simpl in *; subst; reflexivity.
  - intros s k. unfold runTimeouts. cbn [timeouts setTimeouts].
    rewrite foldl_endGame_false;
      [reflexivity|discriminate|apply Forall_replicate; reflexivity].
  - intros victory s. reflexivity.
Qed.

(** In the session where all three notes of the first six questions are
    struck, health is 10 when the seventh question arrives.  The frame in
    which the left hand strikes its first distractor and then its correct
    answer takes health to 0 and back to 5: the session ends in
    [GAME_OVER] with health 5. *)
Lemma health_zero_ends_in_defeat_witness :
  let w := run (start plainChart) (allHits 6) in
  let au := {| Audio.currentTime := beatTime 6; Audio.ended := false |} in
  let w' := step w (Frame (Some au) handsBetween) in
  gameStatus (app w) = PLAYING /\ health (app w) = 10
  /\ (exists a, a ∈ frameStates au handsBetween w /\ health a = 0
                /\ handleNoteMiss (correctNote (Q_ "" "WON" []) 0 [0%nat] 0) a
                   = setTimeout_endGame false a)
  /\ health (app w') = 5
  /\ gameStatus (app w') = GAME_OVER.
Proof.
  assert (Hplay : gameStatus (app (run (start plainChart) (allHits 6))) = PLAYING)
    by (vm_compute; reflexivity).
  assert (H10 : health (app (run (start plainChart) (allHits 6))) = 10)
    by (vm_compute; reflexivity).
  assert (H5 : health (app (step (run (start plainChart) (allHits 6))
                              (Frame (Some {| Audio.currentTime := beatTime 6;
                                              Audio.ended := false |})
                                 handsBetween))) = 5)
    by (vm_compute; reflexivity).
  assert (Hex : exists a,
             a ∈ frameStates {| Audio.currentTime := beatTime 6; Audio.ended := false |}
                   handsBetween (run (start plainChart) (allHits 6))
             /\ health a = 0).
  { eexists. split; [eapply (list_elem_of_lookup_2 _ 6%nat); vm_compute; reflexivity|].
    reflexivity. }
  destruct Hex as (a & Hin & H0).
  destruct (health_zero_ends_in_defeat plainChart (allHits 6)
              {| Audio.currentTime := beatTime 6; Audio.ended := false |}
              handsBetween Hplay eq_refl) as (_ & H & _).
  destruct (H a Hin H0) as (Hgo & Hmiss & _).
  split; [exact Hplay|]. split; [exact H10|]. split.
  - exists a. split; [exact Hin|]. split; [exact H0|].
    exact (Hmiss (correctNote (Q_ "" "WON" []) 0 [0%nat] 0) eq_refl).
  - split; [exact H5|exact Hgo].
Defined.

End ScoringClaims.

(** ** Resolution of notes *)

Lemma generateChart_fresh {Rng : Type}
    (sort_random : list nat -> Rng -> list nat * Rng) curriculum d r :
  (forall l r', (sort_random l r').1 ≡ₚ l) ->
  Forall fresh (generateChart sort_random curriculum d r).
Proof.
  intros Hperm.
  destruct (generateChart_inv sort_random curriculum d r Hperm) as (_ & b & Hall & _).
  eapply Forall_impl; [exact Hall|]. intros n (_ & Hf & _). exact Hf.
Qed.

Lemma fresh_not_both n : fresh n -> ~ (hit n = true /\ missed n = true).
Proof. intros [Hh _] [Hh' _]. congruence. Qed.

Lemma Qltb_false_of_lt a b c : Qltb a b = true -> (b <= c)%Q -> Qltb c a = false.
Proof.
  intros Hab Hbc. apply Qltb_lt in Hab.
  destruct (Qltb c a) eqn:E; [|reflexivity].
  apply Qltb_lt in E. exfalso.
  apply (Qlt_irrefl a). eapply Qlt_trans; [exact Hab|].
  eapply Qle_lt_trans; [exact Hbc|exact E].
Qed.

Section ResolutionClaims.
Import GameScene.

(** C1: in every session on a chart as generated (no flag set), every note
    has at most one of the flags [hit] and [missed] at any time; a note
    only moves forward, from no flag to one flag; once a flag is set the
    note object never changes again and its reference is no longer in the
    active list after the frame that resolved it.  In any scene, an
    iteration of the collision loop that finds its note already resolved
    returns the state as it is and calls no callback. *)
Theorem note_resolved_at_most_once (chart : list NoteData)
    (actions1 actions2 : list Session.Action) :
  Forall fresh chart ->
  let w1 := Session.run (Session.start chart) actions1 in
  let w2 := Session.run w1 actions2 in
  (forall r n1, notesState (Session.scene w1) !! r = Some n1 ->
     ~ (hit n1 = true /\ missed n1 = true)
     /\ (exists n0 n2, chart !! r = Some n0 /\ evolves n0 n1
           /\ notesState (Session.scene w2) !! r = Some n2 /\ evolves n1 n2)
     /\ (resolved n1 = true ->
           notesState (Session.scene w2) !! r = Some n1
           /\ r ∉ activeNotesRef (Session.scene w1)))
  /\ (forall (A : Type) (onNoteHit : NoteData -> bool -> A -> A)
        (onNoteMiss : NoteData -> A -> A) now hands i st r note,
        activeNotesRef st.1 !! i = Some r -> notesState st.1 !! r = Some note ->
        resolved note = true ->
        collideNote onNoteHit onNoteMiss now hands i st = st).
Proof.
  intros Hfresh w1 w2. split.
  - intros r n1 H1.
    destruct (run_scene actions1 (Session.start chart)) as [He1 Hi1].
    destruct (run_scene actions2 w1) as [He2 _].
    fold w1 in He1, Hi1. fold w2 in He2. simpl in He1.
    specialize (Hi1 (mount_SceneInv chart Hfresh)).
    destruct He1 as [Hl1 He1]. destruct He2 as [_ He2].
    destruct (He2 r n1 H1) as (n2 & H2 & E12).
    assert (H0 : exists n0, chart !! r = Some n0 /\ evolves n0 n1).
    { destruct (chart !! r) as [n0|] eqn:E0.
      - destruct (He1 r n0 E0) as (n1' & H1' & E01).
        exists n0. split; [reflexivity|]. congruence.
      - exfalso. apply lookup_ge_None in E0. apply lookup_lt_Some in H1.
        simpl in Hl1. lia. }
    destruct H0 as (n0 & E0 & E01).
    assert (Hf0 : fresh n0).
    { rewrite Forall_forall in Hfresh. apply Hfresh.
      eapply list_elem_of_lookup_2. exact E0. }
    split; [|split].
    + eapply evolves_not_both; [exact E01|apply fresh_not_both, Hf0].
    + exists n0, n2. auto.
    + intros Hres. split.
      * rewrite H2. f_equal. eapply evolves_resolved; eauto.
      * intros Hin. destruct Hi1 as (_ & _ & Hfr).
        destruct (Hfr r n1 H1 (or_introl Hin)) as [Hh Hm].
        unfold resolved in Hres. rewrite Hh, Hm in Hres. discriminate.
  - intros A onNoteHit onNoteMiss now hands i st r note.
    apply collideNote_resolved.
Qed.

Lemma note_resolved_at_most_once_witness :
  Forall fresh plainChart
  /\ (forall r n1,
        notesState (Session.scene (Session.run (Session.start plainChart) (correctHits 2)))
          !! r = Some n1 ->
        ~ (hit n1 = true /\ missed n1 = true))
  /\ collideNote (App.handleNoteHit 1) App.handleNoteMiss 0 handsOnCorrect 0%nat
       (staleScene, App.initial) = (staleScene, App.initial).
Proof.
  assert (Hf : Forall fresh plainChart)
    by (apply generateChart_fresh; intros l r; apply sort_random_perm).
  destruct (note_resolved_at_most_once plainChart (correctHits 2)
              [frameAt 2 handsOnCorrect] Hf) as [H1 H2].
  split; [exact Hf|]. split.
  - intros r n1 Hr. exact (proj1 (H1 r n1 Hr)).
  - exact (H2 App.State (App.handleNoteHit 1) App.handleNoteMiss 0%Q handsOnCorrect
              0%nat (staleScene, App.initial) 0%nat staleNote eq_refl eq_refl eq_refl).
Defined.

(** C8: when the collision test finds a note inside the band with the
    required hand within the hit radius but slower than 0.5, the speed
    being the double that [length()] computes from the velocity, the
    iteration returns the scene and the parent's state as they are: no
    callback is called, so no Hit or Miss is emitted and score, combo and
    health keep their values, and the note keeps its flags.  After the whole
    loop of that frame the note object is still unchanged and its
    reference is still in the active list. *)
Theorem slow_contact_ignored {A : Type} (onNoteHit : NoteData -> bool -> A -> A)
    (onNoteMiss : NoteData -> A -> A) (now : Q) (hands : HandPositions.t)
    (sc : Scene) (a : A) (i r : nat) (note : NoteData) :
  activeNotesRef sc !! i = Some r -> notesState sc !! r = Some note ->
  resolved note = false -> slow_contact now hands note = true ->
  collideNote onNoteHit onNoteMiss now hands i (sc, a) = (sc, a)
  /\ (let st' := collideLoop onNoteHit onNoteMiss now hands
                   (length (activeNotesRef sc)) (sc, a) in
      notesState st'.1 !! r = Some note /\ r ∈ activeNotesRef st'.1
      /\ resolved note = false).
Proof.
  intros Hi Hr Hres Hslow.
  assert (Hskip : forall st j, activeNotesRef st.1 !! j = Some r ->
                    notesState st.1 !! r = Some note ->
                    collideNote onNoteHit onNoteMiss now hands j st = st).
  { intros st j Hj Hn. unfold collideNote. rewrite Hj, Hn.
    unfold resolved in Hres. rewrite Hres.
    unfold slow_contact in Hslow.
    apply andb_true_iff in Hslow as [Hband Hhand].
    pose proof Hband as Hband'. apply andb_true_iff in Hband' as [_ Hz].
    rewrite (Qltb_false_of_lt _ _ MISS_Z Hz) by (vm_compute; discriminate).
    rewrite Hband.
    destruct (match type note with
              | HandType.left => HandPositions.left hands
              | HandType.right => HandPositions.right hands
              end) as [handPos|]; [|reflexivity].
    destruct (notePos note _) as [np|]; [|reflexivity].
    apply andb_true_iff in Hhand as [-> ->]. reflexivity. }
  split; [apply (Hskip (sc, a) i Hi Hr)|].
  assert (Hloop : forall n st, notesState st.1 !! r = Some note ->
                    r ∈ activeNotesRef st.1 ->
                    let st' := collideLoop onNoteHit onNoteMiss now hands n st in
                    notesState st'.1 !! r = Some note /\ r ∈ activeNotesRef st'.1).
  { induction n as [|n IH]; intros st Hn Hin; simpl; [auto|].
    apply IH.
    - destruct (collideNote_cases onNoteHit onNoteMiss now hands n st)
        as [->|(r' & note' & Hi' & Hr' & _ & Hcase)]; [exact Hn|].
      destruct (decide (r' = r)) as [->|Hne].
      + rewrite (Hskip st n Hi' Hn). exact Hn.
      + destruct Hcase as [-> | ->]; simpl;
          rewrite list_lookup_alter_ne by exact Hne; exact Hn.
    - destruct (collideNote_cases onNoteHit onNoteMiss now hands n st)
        as [->|(r' & note' & Hi' & Hr' & _ & Hcase)]; [exact Hin|].
      destruct (decide (r' = r)) as [->|Hne].
      + rewrite (Hskip st n Hi' Hn). exact Hin.
      + destruct Hcase as [-> | ->]; simpl;
          apply (delete_elem_of_other _ n r r'); auto. }
  intros st'. destruct (Hloop (length (activeNotesRef sc)) (sc, a) Hr
                          (list_elem_of_lookup_2 _ _ _ Hi)) as [H1 H2].
  auto.
Qed.

Lemma slow_contact_ignored_witness :
  let sc := Session.scene spawnedWorld in
  let a := Session.app spawnedWorld in
  slow_contact (beatTime 0) handsResting wentNote = true
  /\ collideNote (App.handleNoteHit (App.multiplier a)) App.handleNoteMiss
       (beatTime 0) handsResting 0%nat (sc, a) = (sc, a).
Proof.
  assert (Hi : activeNotesRef (Session.scene spawnedWorld) !! 0%nat = Some 0%nat)
    by (vm_compute; reflexivity).
  assert (Hr : notesState (Session.scene spawnedWorld) !! 0%nat = Some wentNote)
    by (vm_compute; reflexivity).
  assert (Hs : slow_contact (beatTime 0) handsResting wentNote = true)
    by (vm_compute; reflexivity).
  split; [exact Hs|].
  exact (proj1 (slow_contact_ignored (App.handleNoteHit
                                        (App.multiplier (Session.app spawnedWorld)))
                  App.handleNoteMiss (beatTime 0) handsResting
                  (Session.scene spawnedWorld) (Session.app spawnedWorld)
                  0%nat 0%nat wentNote Hi Hr eq_refl Hs)).
Defined.

(** The distance is 0.3 and the speed 0.2 in that contact; a frame drawn on
    it leaves the application state as it was. *)
Remark resting_contact_numbers :
  (exists p, GameScene.notePos wentNote 0 = Some p
             /\ (distanceToSquared (vec (-15 # 10) 1 0) p == (3 # 10) * (3 # 10))%Q)
  /\ Velocity.length (velocity 0.2 0 0) = 0.2%float
  /\ Session.app (Session.step spawnedWorld (frameAt 0 handsResting))
     = Session.app spawnedWorld.
Proof.
  split; [|split].
  - eexists. split; [reflexivity|]. vm_compute. reflexivity.
  - vm_compute. reflexivity.
  - vm_compute. reflexivity.
Qed.

(** The speed that is compared with 0.5 is the rounded result of
    [Math.sqrt]: for the velocity (0.29999999999999993, 0.4, 0), whose exact
    norm is below 0.5, [length()] is 0.5, the contact is not a slow one and
    the frame registers the hit. *)
Remark rounded_speed_is_not_slow :
  let v := velocity 0.29999999999999993 0.4 0 in
  let hands := {| HandPositions.left := Some (vec (-15 # 10) 1 0);
                  HandPositions.right := None;
                  HandPositions.leftVelocity := v;
                  HandPositions.rightVelocity := velocity 0 0 0 |} in
  Velocity.length v = 0.5%float
  /\ slow_contact (beatTime 0) hands wentNote = false
  /\ hit <$> notesState (Session.scene (Session.step spawnedWorld (frameAt 0 hands)))
               !! 0%nat = Some true.
Proof. vm_compute. repeat split. Qed.

End ResolutionClaims.

(** * Further properties *)

(** ** The shape of a generated chart *)

Section ChartShape.
Context {Rng : Type}.
Variable sort_random : list nat -> Rng -> list nat * Rng.

Lemma forEachBody_idCount d st q :
  idCount (forEachBody sort_random d st q)
  = (idCount st
     + length (questionGroup d q (inject_Z (currentBeat st) * BEAT_TIME)%Q
                 (sort_random [0; 1; 2; 3]%nat (rng st)).1 (idCount st)))%nat.
Proof.
  unfold forEachBody, questionGroup, distractorGroup.
  destruct (sort_random [0; 1; 2; 3]%nat (rng st)) as [lanes r]. simpl.
  rewrite pushDistractors_spec. simpl. rewrite length_imap. lia.
Qed.

Lemma foldl_forEachBody_groups d qs : forall st,
  notes (foldl (forEachBody sort_random d) st qs)
  = notes st
    ++ concat (chartGroups sort_random d qs (rng st) (currentBeat st) (idCount st)).
Proof.
  induction qs as [|q qs IH]; intros st; cbn [foldl chartGroups concat];
    [rewrite app_nil_r; reflexivity|].
  rewrite IH.
  destruct (forEachBody_spec sort_random d st q) as (-> & -> & ->).
  rewrite forEachBody_idCount, <- app_assoc. reflexivity.
Qed.

Lemma questionGroup_length_eq d q t lanes c :
  length (questionGroup d q t lanes c) = notesPerQuestion d q.
Proof.
  unfold questionGroup, distractorGroup, notesPerQuestion. simpl.
  rewrite length_imap, length_take. reflexivity.
Qed.

Lemma chartGroups_elem_of d qs : forall r beat c n,
  n ∈ concat (chartGroups sort_random d qs r beat c) ->
  exists (k : nat) q r' c',
    qs !! k = Some q
    /\ n ∈ questionGroup d q (inject_Z (beat + 10 * Z.of_nat k) * BEAT_TIME)%Q
             (sort_random [0; 1; 2; 3]%nat r').1 c'.
Proof.
  induction qs as [|q qs IH]; intros r beat c n Hn; cbn [chartGroups concat] in Hn.
  - apply elem_of_nil in Hn. contradiction.
  - apply elem_of_app in Hn as [Hn|Hn].
    + exists 0%nat, q, r, c. split; [reflexivity|].
      replace (beat + 10 * Z.of_nat 0) with beat by lia. exact Hn.
    + destruct (IH _ _ _ _ Hn) as (k & q' & r' & c' & Hk & Hin).
      exists (S k), q', r', c'. split; [exact Hk|].
      replace (beat + 10 * Z.of_nat (S k)) with (beat + 10 + 10 * Z.of_nat k) by lia.
      exact Hin.
Qed.

Lemma chartGroups_length d qs : forall r beat c,
  length (concat (chartGroups sort_random d qs r beat c))
  = sum_list (map (notesPerQuestion d) qs).
Proof.
  induction qs as [|q qs IH]; intros r beat c; cbn [chartGroups concat map sum_list];
    [reflexivity|].
  rewrite length_app, IH, questionGroup_length_eq. reflexivity.
Qed.

Lemma filter_isCorrect_imap (f : nat -> string -> NoteData) l :
  (forall j x, isCorrect (f j x) = false) ->
  List.filter isCorrect (imap f l) = [].
Proof.
  revert f. induction l as [|x l IH]; intros f Hf; [reflexivity|].
  rewrite imap_cons. simpl. rewrite Hf. apply IH. intros j y. apply Hf.
Qed.

Lemma questionGroup_correct_count d q t lanes c :
  length (List.filter isCorrect (questionGroup d q t lanes c)) = 1%nat.
Proof.
  unfold questionGroup, distractorGroup. simpl.
  rewrite filter_isCorrect_imap; reflexivity.
Qed.

Lemma chartGroups_correct_count d qs : forall r beat c,
  length (List.filter isCorrect (concat (chartGroups sort_random d qs r beat c)))
  = length qs.
Proof.
  induction qs as [|q qs IH]; intros r beat c; [reflexivity|].
  cbn [chartGroups concat]. rewrite List.filter_app, length_app, IH.
  rewrite questionGroup_correct_count. reflexivity.
Qed.

Lemma questionGroup_id d q t lanes c j n :
  questionGroup d q t lanes c !! j = Some n -> id n = note_id (c + j).
Proof.
  unfold questionGroup, distractorGroup. destruct j as [|j]; simpl.
  - intros [= <-]. simpl. f_equal. lia.
  - rewrite list_lookup_imap. intros H.
    apply fmap_Some in H as (dd & _ & ->). simpl. f_equal. lia.
Qed.

Lemma chartGroups_id d qs : forall r beat c i n,
  concat (chartGroups sort_random d qs r beat c) !! i = Some n ->
  id n = note_id (c + i).
Proof.
  induction qs as [|q qs IH]; intros r beat c i n Hi; cbn [chartGroups concat] in Hi.
  - rewrite lookup_nil in Hi. discriminate.
  - apply lookup_app_Some in Hi as [Hi|[Hge Hi]].
    + eapply questionGroup_id. exact Hi.
    + apply IH in Hi. rewrite Hi. f_equal. lia.
Qed.

Hypothesis sort_random_perm : forall l r, (sort_random l r).1 ≡ₚ l.

Lemma generateChart_groups curriculum d r :
  generateChart sort_random curriculum d r
  = concat (chartGroups sort_random d curriculum r 8 0).
Proof.
  destruct (generateChart_inv sort_random curriculum d r sort_random_perm) as [-> _].
  rewrite foldl_forEachBody_groups. reflexivity.
Qed.

End ChartShape.

Lemma append_inj_r (p a b : string) : String.append p a = String.append p b -> a = b.
Proof.
  induction p as [|ch p IH]; simpl; intros H; [exact H|].
  injection H as H. apply IH, H.
Qed.

Lemma note_id_inj n m : note_id n = note_id m -> n = m.
Proof.
  unfold note_id. intros H. apply append_inj_r in H.
  assert (Hnn : forall k, Nat.to_uint k <> Decimal.Nil).
  { intros k. rewrite <- (DecimalNat.Unsigned.of_to k) at 1.
    rewrite DecimalNat.Unsigned.to_of. apply DecimalFacts.unorm_nonnil. }
  apply DecimalNat.Unsigned.to_uint_inj.
  pose proof (NilZero.usu _ (Hnn n)) as Hn. pose proof (NilZero.usu _ (Hnn m)) as Hm.
  rewrite H in Hn. congruence.
Qed.

Lemma numDistractors_range d :
  (0 <= d)%Q ->
  1 <= numDistractors d <= 3
  /\ ((d < 1)%Q -> numDistractors d = 1)
  /\ ((2 <= d)%Q -> numDistractors d = 3).
Proof.
  intros H0. unfold numDistractors.
  assert (Hf0 : 0 <= Qfloor d).
  { change 0 with (Qfloor 0). apply Qfloor_resp_le, H0. }
  split; [lia|]. split.
  - intros H1. assert (Qfloor d < 1); [|lia].
    rewrite Zlt_Qlt. eapply Qle_lt_trans; [apply Qfloor_le|exact H1].
  - intros H2. assert (2 <= Qfloor d); [|lia].
    change 2 with (Qfloor 2). apply Qfloor_resp_le, H2.
Qed.

Lemma StronglySorted_lookup_le (l : list NoteData) i j n m :
  StronglySorted time_le l -> (i <= j)%nat -> l !! i = Some n -> l !! j = Some m ->
  (time n <= time m)%Q.
Proof.
  intros Hs Hij Hi Hj.
  destruct (decide (i = j)) as [->|Hne].
  - rewrite Hi in Hj. injection Hj as ->. apply Qle_refl.
  - rewrite <- (take_drop_middle l i n Hi) in Hs, Hj.
    apply StronglySorted_app_1_r, StronglySorted_cons in Hs as [Hall _].
    rewrite Forall_forall in Hall. apply Hall.
    assert (Hlen : length (take i l) = i).
    { apply length_take_le. apply lookup_lt_Some in Hi. lia. }
    rewrite lookup_app_r in Hj by lia. rewrite Hlen in Hj.
    destruct (j - i)%nat as [|k] eqn:E; [lia|]. simpl in Hj.
    eapply list_elem_of_lookup_2. exact Hj.
Qed.

Lemma generateChart_sorted {Rng : Type}
    (sort_random : list nat -> Rng -> list nat * Rng) curriculum d r :
  (forall l r', (sort_random l r').1 ≡ₚ l) ->
  forall i j n m, (i <= j)%nat ->
    generateChart sort_random curriculum d r !! i = Some n ->
    generateChart sort_random curriculum d r !! j = Some m ->
    (time n <= time m)%Q.
Proof.
  intros Hperm i j n m.
  destruct (generateChart_inv sort_random curriculum d r Hperm) as (_ & b & _ & Hs & _).
  apply StronglySorted_lookup_le, Hs.
Qed.

(** X1: the chart lists the notes in the order in which they are pushed,
    question by question in curriculum order and, within a question, the
    correct answer first and then its distractors; the final sort by time
    moves nothing, and arrival times never decrease along the chart. *)
Theorem generateChart_layout {Rng : Type}
    (sort_random : list nat -> Rng -> list nat * Rng)
    (curriculum : list QuestionSet.t) (difficultyMultiplier : Q) (r : Rng) :
  (forall l r', (sort_random l r').1 ≡ₚ l) ->
  let chart := generateChart sort_random curriculum difficultyMultiplier r in
  chart = concat (chartGroups sort_random difficultyMultiplier curriculum r 8 0)
  /\ sort_by_time chart = chart
  /\ (forall i j n m, (i <= j)%nat -> chart !! i = Some n -> chart !! j = Some m ->
        (time n <= time m)%Q).
Proof.
  intros Hperm chart.
  destruct (generateChart_inv sort_random curriculum difficultyMultiplier r Hperm)
    as (_ & b & _ & Hs & _). fold chart in Hs.
  split; [apply generateChart_groups, Hperm|].
  split; [apply sort_by_time_sorted, Hs|].
  intros i j n m. apply StronglySorted_lookup_le, Hs.
Qed.

Lemma generateChart_layout_witness :
  let chart := generateDemoChart Engine.sort_random 1 Engine.alternating in
  chart = concat (chartGroups Engine.sort_random 1 PHRASE_CURRICULUM Engine.alternating 8 0)
  /\ sort_by_time chart = chart.
Proof.
  destruct (generateChart_layout Engine.sort_random PHRASE_CURRICULUM 1
              Engine.alternating sort_random_perm) as (H1 & H2 & _).
  split; [exact H1|exact H2].
Defined.

(** X2: a chart has one correct note per question and, per question,
    [min(numDistractors, q.distractors.length)] distractors.  For a
    difficulty that is not negative [numDistractors] lies between 1 and 3,
    so on a curriculum whose questions have at least three distractors each
    question has between 2 and 4 notes. *)
Theorem generateChart_length {Rng : Type}
    (sort_random : list nat -> Rng -> list nat * Rng)
    (curriculum : list QuestionSet.t) (difficultyMultiplier : Q) (r : Rng) :
  (forall l r', (sort_random l r').1 ≡ₚ l) ->
  let chart := generateChart sort_random curriculum difficultyMultiplier r in
  length chart = sum_list (map (notesPerQuestion difficultyMultiplier) curriculum)
  /\ length (List.filter isCorrect chart) = length curriculum
  /\ ((0 <= difficultyMultiplier)%Q ->
      Forall (fun q => (3 <= length (QuestionSet.distractors q))%nat) curriculum ->
      length chart
      = (length curriculum * S (Z.to_nat (numDistractors difficultyMultiplier)))%nat
      /\ (2 * length curriculum <= length chart <= 4 * length curriculum)%nat).
Proof.
  intros Hperm chart. unfold chart.
  rewrite (generateChart_groups sort_random Hperm).
  rewrite chartGroups_length, chartGroups_correct_count.
  split; [reflexivity|]. split; [reflexivity|].
  intros H0 Hall. destruct (numDistractors_range _ H0) as (Hr & _).
  assert (Hsum : sum_list (map (notesPerQuestion difficultyMultiplier) curriculum)
                 = (length curriculum
                    * S (Z.to_nat (numDistractors difficultyMultiplier)))%nat).
  { induction Hall as [|q qs Hq _ IH]; [reflexivity|].
    cbn [map sum_list length]. rewrite IH. unfold notesPerQuestion.
    rewrite Nat.min_l by lia. rewrite Nat.mul_succ_l. unfold Datatypes.id. lia. }
  rewrite Hsum. split; [reflexivity|].
  assert (Hk : (1 <= Z.to_nat (numDistractors difficultyMultiplier) <= 3)%nat) by lia.
  revert Hk. generalize (Z.to_nat (numDistractors difficultyMultiplier)).
  generalize (length curriculum). intros a k Hk. nia.
Qed.

Lemma generateChart_length_witness :
  let chart := generateDemoChart Engine.sort_random 1 Engine.alternating in
  length (List.filter isCorrect chart) = 15%nat
  /\ length chart = (15 * S (Z.to_nat (numDistractors 1)))%nat.
Proof.
  destruct (generateChart_length Engine.sort_random PHRASE_CURRICULUM 1
              Engine.alternating sort_random_perm) as (_ & H1 & H2).
  split; [exact H1|].
  refine (proj1 (H2 _ _)); [discriminate|].
  unfold PHRASE_CURRICULUM. repeat constructor.
Defined.

(** X3: the note at position [i] of the chart has the id [note-i]; the ids
    of a chart are pairwise distinct. *)
Theorem generateChart_ids {Rng : Type}
    (sort_random : list nat -> Rng -> list nat * Rng)
    (curriculum : list QuestionSet.t) (difficultyMultiplier : Q) (r : Rng) :
  (forall l r', (sort_random l r').1 ≡ₚ l) ->
  let chart := generateChart sort_random curriculum difficultyMultiplier r in
  (forall i n, chart !! i = Some n -> id n = note_id i)
  /\ (forall i j n m, chart !! i = Some n -> chart !! j = Some m ->
        id n = id m -> i = j)
  /\ NoDup (map id chart).
Proof.
  intros Hperm chart.
  assert (Hid : forall i n, chart !! i = Some n -> id n = note_id i).
  { intros i n Hi. unfold chart in Hi.
    rewrite (generateChart_groups sort_random Hperm) in Hi.
    apply chartGroups_id in Hi. exact Hi. }
  assert (Hinj : forall i j n m, chart !! i = Some n -> chart !! j = Some m ->
                   id n = id m -> i = j).
  { intros i j n m Hi Hj He. apply note_id_inj.
    rewrite <- (Hid i n Hi), <- (Hid j m Hj). exact He. }
  split; [exact Hid|]. split; [exact Hinj|].
  apply NoDup_alt. intros i j s Hi Hj.
  change (map id chart) with (id <$> chart) in Hi, Hj.
  rewrite list_lookup_fmap in Hi, Hj.
  destruct (chart !! i) as [n|] eqn:Ei; [|discriminate].
  destruct (chart !! j) as [m|] eqn:Ej; [|discriminate].
  simpl in Hi, Hj. eapply Hinj; eauto. congruence.
Qed.

Lemma generateChart_ids_witness :
  NoDup (map id (generateDemoChart Engine.sort_random 1 Engine.alternating)).
Proof.
  exact (proj2 (proj2 (generateChart_ids Engine.sort_random PHRASE_CURRICULUM 1
                         Engine.alternating sort_random_perm))).
Defined.

Lemma generateChart_arrival {Rng : Type}
    (sort_random : list nat -> Rng -> list nat * Rng) curriculum d r :
  (forall l r', (sort_random l r').1 ≡ₚ l) ->
  forall n, n ∈ generateChart sort_random curriculum d r -> (8 * BEAT_TIME <= time n)%Q.
Proof.
  intros Hperm n Hn. rewrite (generateChart_groups sort_random Hperm) in Hn.
  apply chartGroups_elem_of in Hn as (k & q & r' & c' & Hk & Hin).
  apply list_elem_of_lookup_1 in Hin as [j Hj].
  apply questionGroup_lookup in Hj as (Ht & _).
  rewrite Ht. apply Qmult_le_compat_r; [|apply Qlt_le_weak, BEAT_TIME_pos].
  change 8%Q with (inject_Z 8). rewrite <- Zle_Qle. lia.
Qed.

(** X4: every note of question [k] arrives at beat [8 + 10 k], that is at
    the time [(8 + 10 k) * BEAT_TIME]; no note arrives before beat 8. *)
Theorem generateChart_times {Rng : Type}
    (sort_random : list nat -> Rng -> list nat * Rng)
    (curriculum : list QuestionSet.t) (difficultyMultiplier : Q) (r : Rng) :
  (forall l r', (sort_random l r').1 ≡ₚ l) ->
  forall n, n ∈ generateChart sort_random curriculum difficultyMultiplier r ->
    (exists (k : nat) q, curriculum !! k = Some q
       /\ instruction n = QuestionSet.instruction q
       /\ time n = (inject_Z (8 + 10 * Z.of_nat k) * BEAT_TIME)%Q)
    /\ (8 * BEAT_TIME <= time n)%Q.
Proof.
  intros Hperm n Hn. rewrite (generateChart_groups sort_random Hperm) in Hn.
  apply chartGroups_elem_of in Hn as (k & q & r' & c' & Hk & Hin).
  apply list_elem_of_lookup_1 in Hin as [j Hj].
  assert (Hi : instruction n = QuestionSet.instruction q).
  { revert Hj. unfold questionGroup, distractorGroup. destruct j as [|j]; simpl.
    - intros [= <-]. reflexivity.
    - rewrite list_lookup_imap. intros H.
      apply fmap_Some in H as (dd & _ & ->). reflexivity. }
  apply questionGroup_lookup in Hj as (Ht & _).
  split; [exists k, q; auto|].
  rewrite Ht. apply Qmult_le_compat_r; [|apply Qlt_le_weak, BEAT_TIME_pos].
  change 8%Q with (inject_Z 8). rewrite <- Zle_Qle. lia.
Qed.

Lemma generateChart_times_witness :
  wentNote ∈ generateChart Engine.sort_random PHRASE_CURRICULUM 1 (Engine.constant (1 # 4))
  /\ (8 * BEAT_TIME <= time wentNote)%Q.
Proof.
  assert (Hin : wentNote ∈ generateChart Engine.sort_random PHRASE_CURRICULUM 1
                             (Engine.constant (1 # 4))).
  { apply (list_elem_of_lookup_2 _ 0%nat). vm_compute. reflexivity. }
  split; [exact Hin|].
  exact (proj2 (generateChart_times Engine.sort_random PHRASE_CURRICULUM 1
                  (Engine.constant (1 # 4)) sort_random_perm wentNote Hin)).
Defined.

(** X5: the hand of a note follows its lane: lanes 0 and 1, left of the
    centre of the track, are for the left hand and lanes 2 and 3, right of
    the centre, for the right hand. *)
Theorem generateChart_hands {Rng : Type}
    (sort_random : list nat -> Rng -> list nat * Rng)
    (curriculum : list QuestionSet.t) (difficultyMultiplier : Q) (r : Rng) :
  (forall l r', (sort_random l r').1 ≡ₚ l) ->
  forall n, n ∈ generateChart sort_random curriculum difficultyMultiplier r ->
    exists k px, lineIndex n = Some k /\ LANE_X_POSITIONS !! k = Some px
      /\ (type n = HandType.left <-> (k < 2)%nat)
      /\ (type n = HandType.left <-> (px < 0)%Q)
      /\ (type n = HandType.right <-> (0 < px)%Q).
Proof.
  intros Hperm n Hn.
  assert (Hpl : exists k, lineIndex n = Some k /\ (k < 4)%nat).
  { destruct (generateChart_inv sort_random curriculum difficultyMultiplier r Hperm)
      as (_ & b & Hall & _).
    rewrite Forall_forall in Hall. destruct (Hall n Hn) as ((Hp & _) & _). exact Hp. }
  destruct Hpl as (k & Hk & Hk4).
  assert (Hty : type n = hand_of_lane (lineIndex n)).
  { rewrite (generateChart_groups sort_random Hperm) in Hn.
    apply chartGroups_elem_of in Hn as (k' & q & r' & c' & _ & Hin).
    apply list_elem_of_lookup_1 in Hin as [j Hj].
    revert Hj. unfold questionGroup, distractorGroup. destruct j as [|j]; simpl.
    - intros [= <-]. reflexivity.
    - rewrite list_lookup_imap. intros H.
      apply fmap_Some in H as (dd & _ & ->). reflexivity. }
  rewrite Hk in Hty. simpl in Hty.
  destruct k as [|[|[|[|k]]]]; [| | | |lia]; eexists _, _;
    (split; [exact Hk|]); (split; [reflexivity|]); rewrite Hty; simpl;
    repeat split; intros H; try reflexivity; try discriminate; try lia.
Qed.

Lemma generateChart_hands_witness :
  wentNote ∈ generateChart Engine.sort_random PHRASE_CURRICULUM 1 (Engine.constant (1 # 4))
  /\ exists k px, lineIndex wentNote = Some k /\ LANE_X_POSITIONS !! k = Some px
       /\ (type wentNote = HandType.left <-> (k < 2)%nat)
       /\ (type wentNote = HandType.left <-> (px < 0)%Q)
       /\ (type wentNote = HandType.right <-> (0 < px)%Q).
Proof.
  assert (Hin : wentNote ∈ generateChart Engine.sort_random PHRASE_CURRICULUM 1
                             (Engine.constant (1 # 4))).
  { apply (list_elem_of_lookup_2 _ 0%nat). vm_compute. reflexivity. }
  split; [exact Hin|].
  exact (generateChart_hands Engine.sort_random PHRASE_CURRICULUM 1
           (Engine.constant (1 # 4)) sort_random_perm wentNote Hin).
Defined.

(** ** What the random source decides *)








(** ** The collision loop as a map, a filter and a fold *)

Lemma filter_filter_andb {X : Type} (f g : X -> bool) l :
  List.filter f (List.filter g l) = List.filter (fun x => g x && f x) l.
Proof.
  induction l as [|x l IH]; [reflexivity|]. simpl.
  destruct (g x); simpl; [destruct (f x)|]; rewrite IH; reflexivity.
Qed.

Section LoopShape.
Import GameScene.
Context {A : Type}.
Variable onNoteHit : NoteData -> bool -> A -> A.
Variable onNoteMiss : NoteData -> A -> A.
Variable onSongEnd : A -> A.
Variable setInstruction : string -> A -> A.

Local Abbreviation collideNote := (collideNote onNoteHit onNoteMiss).
Local Abbreviation collideLoop := (collideLoop onNoteHit onNoteMiss).
Local Abbreviation useFrame := (useFrame onNoteHit onNoteMiss onSongEnd setInstruction).

Lemma collideNote_outcome now hands i st r note :
  activeNotesRef st.1 !! i = Some r -> notesState st.1 !! r = Some note ->
  collideNote now hands i st
  = match outcome now hands note with
    | Stay => st
    | Miss => (resolve markMissed r i st.1, onNoteMiss (markMissed note) st.2)
    | Hit => (resolve (markHit now) r i st.1,
              onNoteHit (markHit now note) (isCorrect note) st.2)
    end.
Proof.
  intros Hi Hr. unfold GameScene.collideNote, outcome, resolved, passed, struck,
    in_band, currentZ.
  rewrite Hi, Hr.
  destruct (hit note || missed note); [reflexivity|].
  destruct (Qltb MISS_Z _); [reflexivity|].
  destruct (Qltb (PLAYER_Z - (15 # 10)) _ && Qltb _ (PLAYER_Z + 1)); [|reflexivity].
  cbn [andb].
  destruct (match type note with
            | HandType.left => HandPositions.left hands
            | HandType.right => HandPositions.right hands
            end); [|reflexivity].
  destruct (notePos note _); [|reflexivity].
  destruct (distanceTo_lt _ _ 1); [|reflexivity].
  destruct (length_lt _ _); reflexivity.
Qed.

Lemma collideNote_dangling now hands i st :
  (activeNotesRef st.1 !! i = None
   \/ exists r, activeNotesRef st.1 !! i = Some r /\ notesState st.1 !! r = None) ->
  collideNote now hands i st = st.
Proof.
  unfold GameScene.collideNote. intros [->|(r & -> & ->)]; reflexivity.
Qed.

Lemma storeAfter_lookup now hands refs store r :
  storeAfter now hands refs store !! r
  = (fun note => if bool_decide (r ∈ refs) then noteStep now hands note else note)
      <$> store !! r.
Proof. unfold storeAfter. apply list_lookup_imap. Qed.

Lemma keeps_alter_ne now hands f r r' store :
  r <> r' -> keeps now hands (alter f r store) r' = keeps now hands store r'.
Proof. intros Hne. unfold keeps. rewrite list_lookup_alter_ne by exact Hne. reflexivity. Qed.

Lemma notify_alter_ne now hands f r r' store a :
  r <> r' -> notify onNoteHit onNoteMiss now hands (alter f r store) r' a = notify onNoteHit onNoteMiss now hands store r' a.
Proof.
  intros Hne. unfold notify. rewrite list_lookup_alter_ne by exact Hne.
  reflexivity.
Qed.

Lemma foldr_ext_elem_of {X : Type} (f g : X -> A -> A) a l :
  (forall x acc, x ∈ l -> f x acc = g x acc) -> foldr f a l = foldr g a l.
Proof.
  induction l as [|x l IH]; intros H; [reflexivity|]. simpl.
  rewrite IH by (intros y acc Hy; apply H; right; exact Hy).
  apply H. left.
Qed.

Lemma storeAfter_snoc_stay now hands refs r store :
  (forall note, store !! r = Some note -> noteStep now hands note = note) ->
  storeAfter now hands (refs ++ [r]) store = storeAfter now hands refs store.
Proof.
  intros Hstay. apply list_eq. intros j. rewrite !storeAfter_lookup.
  destruct (store !! j) as [note|] eqn:Hj; [|reflexivity]. simpl. f_equal.
  destruct (decide (j = r)) as [->|Hne].
  - rewrite (bool_decide_eq_true_2 (r ∈ refs ++ [r]))
      by (apply elem_of_app; right; apply list_elem_of_singleton; reflexivity).
    rewrite (Hstay note Hj). destruct (bool_decide (r ∈ refs)); reflexivity.
  - destruct (bool_decide (j ∈ refs)) eqn:E.
    + apply bool_decide_eq_true in E. rewrite bool_decide_eq_true_2; [reflexivity|].
      apply elem_of_app. left. exact E.
    + apply bool_decide_eq_false in E. rewrite bool_decide_eq_false_2; [reflexivity|].
      rewrite elem_of_app, list_elem_of_singleton. tauto.
Qed.

Lemma storeAfter_snoc_resolve now hands refs r store f note :
  r ∉ refs -> store !! r = Some note -> noteStep now hands note = f note ->
  storeAfter now hands refs (alter f r store) = storeAfter now hands (refs ++ [r]) store.
Proof.
  intros Hnotin Hr Hstep. apply list_eq. intros j. rewrite !storeAfter_lookup.
  destruct (decide (j = r)) as [->|Hne].
  - rewrite list_lookup_alter_eq, Hr. simpl. f_equal.
    rewrite bool_decide_eq_false_2 by exact Hnotin.
    rewrite bool_decide_eq_true_2
      by (apply elem_of_app; right; apply list_elem_of_singleton; reflexivity).
    symmetry. exact Hstep.
  - rewrite list_lookup_alter_ne by congruence.
    destruct (store !! j) as [m|]; [|reflexivity]. simpl. f_equal.
    destruct (bool_decide (j ∈ refs)) eqn:E.
    + apply bool_decide_eq_true in E. rewrite bool_decide_eq_true_2; [reflexivity|].
      apply elem_of_app. left. exact E.
    + apply bool_decide_eq_false in E. rewrite bool_decide_eq_false_2; [reflexivity|].
      rewrite elem_of_app, list_elem_of_singleton. tauto.
Qed.

Lemma storeAfter_nil now hands store : storeAfter now hands [] store = store.
Proof.
  apply list_eq. intros r. rewrite storeAfter_lookup.
  destruct (store !! r) as [note|]; [|reflexivity]. simpl.
  destruct (bool_decide (r ∈ [])) eqn:E; [|reflexivity].
  apply bool_decide_eq_true in E. apply elem_of_nil in E. contradiction.
Qed.

(** The loop over the first [n] active references. *)
Lemma collideLoop_shape now hands n : forall sc a,
  NoDup (activeNotesRef sc) -> (n <= length (activeNotesRef sc))%nat ->
  collideLoop now hands n (sc, a)
  = ({| notesState := storeAfter now hands (take n (activeNotesRef sc)) (notesState sc);
        currentTime := currentTime sc;
        activeNotesRef :=
          List.filter (keeps now hands (notesState sc)) (take n (activeNotesRef sc))
          ++ drop n (activeNotesRef sc);
        nextNoteIndexRef := nextNoteIndexRef sc |},
     foldr (notify onNoteHit onNoteMiss now hands (notesState sc)) a (take n (activeNotesRef sc))).
Proof.
  induction n as [|n IH]; intros sc a Hnd Hn.
  - cbn [GameScene.collideLoop]. rewrite take_0, drop_0, storeAfter_nil.
    destruct sc; reflexivity.
  - cbn [GameScene.collideLoop].
    destruct (lookup_lt_is_Some_2 (activeNotesRef sc) n) as [r Hr]; [lia|].
    assert (Htake : take (S n) (activeNotesRef sc) = take n (activeNotesRef sc) ++ [r])
      by (apply take_S_r, Hr).
    assert (Hdrop : drop n (activeNotesRef sc) = r :: drop (S n) (activeNotesRef sc))
      by (apply drop_S, Hr).
    assert (Hnotin : r ∉ take n (activeNotesRef sc)).
    { rewrite <- (take_drop n (activeNotesRef sc)), Hdrop in Hnd.
      apply NoDup_app in Hnd as (_ & Hd & _). intros Hin. apply (Hd r Hin). left. }
    destruct (notesState sc !! r) as [note|] eqn:Hs;
      [destruct (outcome now hands note) eqn:Ho|].
    + (* the note stays *)
      rewrite (collideNote_outcome now hands n (sc, a) r note Hr Hs), Ho.
      rewrite IH by (auto; lia).
      assert (Hk : keeps now hands (notesState sc) r = true)
        by (unfold keeps; rewrite Hs, Ho; reflexivity).
      assert (Hc : notify onNoteHit onNoteMiss now hands (notesState sc) r a = a)
        by (unfold notify; rewrite Hs, Ho; reflexivity).
      rewrite Htake, List.filter_app, foldr_app. cbn [List.filter foldr].
      rewrite Hk, Hc, Hdrop, <- app_assoc.
      cbn [app]. rewrite storeAfter_snoc_stay; [reflexivity|].
      intros m Hm. rewrite Hs in Hm. injection Hm as <-. unfold noteStep.
      rewrite Ho. reflexivity.
    + (* the note is missed *)
      rewrite (collideNote_outcome now hands n (sc, a) r note Hr Hs), Ho.
      cbn [fst snd]. rewrite IH; cbn [resolve notesState activeNotesRef currentTime
                                       nextNoteIndexRef].
      * rewrite delete_take_drop.
        assert (Hl : length (take n (activeNotesRef sc)) = n)
          by (apply length_take_le; lia).
        rewrite take_app_length' by (symmetry; exact Hl).
        rewrite drop_app_length' by (symmetry; exact Hl).
        assert (Hk : keeps now hands (notesState sc) r = false)
          by (unfold keeps; rewrite Hs, Ho; reflexivity).
        rewrite Htake, List.filter_app, foldr_app. cbn [List.filter foldr].
        rewrite Hk, app_nil_r.
        replace (notify onNoteHit onNoteMiss now hands (notesState sc) r a)
          with (onNoteMiss (markMissed note) a) by (unfold notify; rewrite Hs, Ho; reflexivity).
        f_equal; [f_equal|].
        -- apply (storeAfter_snoc_resolve now hands _ r _ markMissed note Hnotin Hs).
           unfold noteStep. rewrite Ho. reflexivity.
        -- f_equal. apply List.filter_ext_in. intros r' Hr'.
           apply keeps_alter_ne. intros <-. apply Hnotin, list_elem_of_In, Hr'.
        -- apply foldr_ext_elem_of. intros r' acc Hr'.
           apply notify_alter_ne. intros <-. exact (Hnotin Hr').
      * eapply sublist_NoDup; [exact Hnd|apply sublist_delete].
      * rewrite length_delete by (eexists; exact Hr). lia.
    + (* the note is hit *)
      rewrite (collideNote_outcome now hands n (sc, a) r note Hr Hs), Ho.
      cbn [fst snd]. rewrite IH; cbn [resolve notesState activeNotesRef currentTime
                                       nextNoteIndexRef].
      * rewrite delete_take_drop.
        assert (Hl : length (take n (activeNotesRef sc)) = n)
          by (apply length_take_le; lia).
        rewrite take_app_length' by (symmetry; exact Hl).
        rewrite drop_app_length' by (symmetry; exact Hl).
        assert (Hk : keeps now hands (notesState sc) r = false)
          by (unfold keeps; rewrite Hs, Ho; reflexivity).
        rewrite Htake, List.filter_app, foldr_app. cbn [List.filter foldr].
        rewrite Hk, app_nil_r.
        replace (notify onNoteHit onNoteMiss now hands (notesState sc) r a)
          with (onNoteHit (markHit now note) (isCorrect note) a) by (unfold notify; rewrite Hs, Ho; reflexivity).
        f_equal; [f_equal|].
        -- apply (storeAfter_snoc_resolve now hands _ r _ (markHit now) note Hnotin Hs).
           unfold noteStep. rewrite Ho. reflexivity.
        -- f_equal. apply List.filter_ext_in. intros r' Hr'.
           apply keeps_alter_ne. intros <-. apply Hnotin, list_elem_of_In, Hr'.
        -- apply foldr_ext_elem_of. intros r' acc Hr'.
           apply notify_alter_ne. intros <-. exact (Hnotin Hr').
      * eapply sublist_NoDup; [exact Hnd|apply sublist_delete].
      * rewrite length_delete by (eexists; exact Hr). lia.
    + (* a reference to no note *)
      rewrite collideNote_dangling by (right; exists r; auto).
      rewrite IH by (auto; lia).
      assert (Hk : keeps now hands (notesState sc) r = true)
        by (unfold keeps; rewrite Hs; reflexivity).
      assert (Hc : notify onNoteHit onNoteMiss now hands (notesState sc) r a = a)
        by (unfold notify; rewrite Hs; reflexivity).
      rewrite Htake, List.filter_app, foldr_app. cbn [List.filter foldr].
      rewrite Hk, Hc, Hdrop, <- app_assoc.
      cbn [app]. rewrite storeAfter_snoc_stay; [reflexivity|].
      intros m Hm. rewrite Hs in Hm. discriminate.
Qed.

Lemma spawnLoop_shape fuel now : forall sc,
  exists k,
    (k <= fuel)%nat
    /\ spawnLoop fuel now sc
       = {| notesState := notesState sc; currentTime := currentTime sc;
            activeNotesRef := activeNotesRef sc ++ seq (nextNoteIndexRef sc) k;
            nextNoteIndexRef := nextNoteIndexRef sc + k |}
    /\ (forall j, (j < k)%nat ->
          exists n, notesState sc !! (nextNoteIndexRef sc + j)%nat = Some n
                    /\ due now n = true).
Proof.
  induction fuel as [|fuel IH]; intros sc.
  - exists 0%nat. split; [lia|]. split; [|intros j Hj; lia].
    simpl. rewrite app_nil_r, Nat.add_0_r. destruct sc; reflexivity.
  - cbn [spawnLoop].
    destruct (notesState sc !! nextNoteIndexRef sc) as [nextNote|] eqn:E.
    + destruct (Qle_bool (time nextNote - spawnAheadTime) now) eqn:Hdue.
      * destruct (IH (spawn sc)) as (k & Hk & -> & Hall).
        exists (S k). split; [lia|]. split.
        -- cbn [spawn notesState currentTime activeNotesRef nextNoteIndexRef seq].
           rewrite <- app_assoc. cbn [app]. f_equal. lia.
        -- intros [|j] Hj.
           ++ exists nextNote. rewrite Nat.add_0_r. auto.
           ++ destruct (Hall j) as (n & Hn & Hd); [lia|].
              exists n. split; [|exact Hd].
              cbn [spawn notesState nextNoteIndexRef] in Hn.
              rewrite <- Hn. f_equal. lia.
      * exists 0%nat. split; [lia|]. split; [|intros j Hj; lia].
        simpl. rewrite app_nil_r, Nat.add_0_r. destruct sc; reflexivity.
    + exists 0%nat. split; [lia|]. split; [|intros j Hj; lia].
      simpl. rewrite app_nil_r, Nat.add_0_r. destruct sc; reflexivity.
Qed.

Lemma ActiveInv_NoDup sc : ActiveInv sc -> NoDup (activeNotesRef sc).
Proof.
  intros (-> & _). apply NoDup_ListNoDup, List.NoDup_filter, NoDup_ListNoDup, NoDup_seq.
Qed.

Lemma ActiveInv_elem_of sc r :
  ActiveInv sc ->
  (r ∈ activeNotesRef sc
   <-> (r < nextNoteIndexRef sc)%nat /\ unresolved_ref (notesState sc) r = true).
Proof.
  intros (-> & _). rewrite list_elem_of_In, List.filter_In, <- list_elem_of_In, elem_of_seq.
  intuition lia.
Qed.

Lemma spawnLoop_ActiveInv fuel now sc :
  ActiveInv sc -> ActiveInv (spawnLoop fuel now sc).
Proof.
  intros (Ha & Hn & Hf).
  destruct (spawnLoop_shape fuel now sc) as (k & _ & -> & Hall).
  unfold ActiveInv. cbn [notesState activeNotesRef nextNoteIndexRef].
  split; [|split].
  - rewrite seq_app, List.filter_app, <- Ha. f_equal. cbn [Nat.add].
    symmetry. apply List.forallb_filter_id. apply List.forallb_forall.
    intros r Hr. apply List.in_seq in Hr.
    destruct (Hall (r - nextNoteIndexRef sc)%nat) as (n & Hr' & _); [lia|].
    replace (nextNoteIndexRef sc + (r - nextNoteIndexRef sc))%nat with r in Hr' by lia.
    unfold unresolved_ref. rewrite Hr'.
    destruct (Hf r n Hr') as [Hh Hm]; [lia|]. unfold resolved. rewrite Hh, Hm. reflexivity.
  - destruct k as [|k]; [lia|].
    destruct (Hall k) as (n & Hr' & _); [lia|]. apply lookup_lt_Some in Hr'. lia.
  - intros r n Hr Hge. apply (Hf r n Hr). lia.
Qed.

Lemma noteStep_resolved now hands n : resolved n = true -> noteStep now hands n = n.
Proof. intros H. unfold noteStep, outcome. rewrite H. reflexivity. Qed.

Lemma noteStep_unresolved now hands n :
  resolved n = false ->
  resolved (noteStep now hands n)
  = match outcome now hands n with Stay => false | _ => true end.
Proof.
  intros H. unfold noteStep. destruct (outcome now hands n) eqn:Ho; [exact H| |].
  - unfold resolved. simpl. apply orb_true_r.
  - reflexivity.
Qed.

(** The whole loop of a frame, when the active references are distinct:
    every note behind an active reference is tested once, the references
    of the notes that were resolved are dropped and the others keep their
    order, and the callbacks run from the last reference to the first. *)
Lemma collideLoop_full now hands sc a :
  NoDup (activeNotesRef sc) ->
  collideLoop now hands (length (activeNotesRef sc)) (sc, a)
  = ({| notesState := storeAfter now hands (activeNotesRef sc) (notesState sc);
        currentTime := currentTime sc;
        activeNotesRef :=
          List.filter (keeps now hands (notesState sc)) (activeNotesRef sc);
        nextNoteIndexRef := nextNoteIndexRef sc |},
     foldr (notify onNoteHit onNoteMiss now hands (notesState sc)) a
       (activeNotesRef sc)).
Proof.
  intros Hnd. rewrite collideLoop_shape by (auto; lia).
  rewrite take_ge, drop_ge, app_nil_r by lia. reflexivity.
Qed.

Lemma collide_ActiveInv now hands sc :
  ActiveInv sc ->
  ActiveInv {| notesState := storeAfter now hands (activeNotesRef sc) (notesState sc);
               currentTime := currentTime sc;
               activeNotesRef :=
                 List.filter (keeps now hands (notesState sc)) (activeNotesRef sc);
               nextNoteIndexRef := nextNoteIndexRef sc |}.
Proof.
  intros Hinv. pose proof Hinv as (Ha & Hn & Hf).
  unfold ActiveInv. cbn [notesState activeNotesRef nextNoteIndexRef].
  split; [|split].
  - transitivity (List.filter (keeps now hands (notesState sc))
                    (List.filter (unresolved_ref (notesState sc))
                       (seq 0 (nextNoteIndexRef sc)))); [f_equal; exact Ha|].
    rewrite filter_filter_andb. apply List.filter_ext_in.
    intros r Hr. apply List.in_seq in Hr.
    unfold unresolved_ref, keeps. rewrite storeAfter_lookup.
    destruct (notesState sc !! r) as [n|] eqn:Hs; [|reflexivity].
    cbn [fmap option_fmap option_map].
    destruct (resolved n) eqn:Hres.
    + rewrite noteStep_resolved by exact Hres.
      destruct (bool_decide _); rewrite Hres; reflexivity.
    + rewrite bool_decide_eq_true_2.
      * rewrite noteStep_unresolved by exact Hres.
        destruct (outcome now hands n); reflexivity.
      * apply (ActiveInv_elem_of sc r Hinv). split; [lia|].
        unfold unresolved_ref. rewrite Hs, Hres. reflexivity.
  - unfold storeAfter. rewrite length_imap. exact Hn.
  - intros r n Hr Hge. rewrite storeAfter_lookup in Hr.
    destruct (notesState sc !! r) as [m|] eqn:Hs; [|discriminate].
    simpl in Hr. rewrite bool_decide_eq_false_2 in Hr.
    + injection Hr as <-. apply (Hf r m Hs Hge).
    + intros Hin. apply (ActiveInv_elem_of sc r Hinv) in Hin. lia.
Qed.

(** A frame of a game in play whose song has not ended. *)
Lemma useFrame_playing au hands st :
  Audio.ended au = false -> ActiveInv st.1 ->
  let now := Audio.currentTime au in
  let sc1 := spawnLoop (length (notesState st.1) - nextNoteIndexRef st.1) now
               (setCurrentTime now st.1) in
  useFrame PLAYING (Some au) hands st
  = ({| notesState := storeAfter now hands (activeNotesRef sc1) (notesState st.1);
        currentTime := now;
        activeNotesRef :=
          List.filter (keeps now hands (notesState st.1)) (activeNotesRef sc1);
        nextNoteIndexRef := nextNoteIndexRef sc1 |},
     foldr (notify onNoteHit onNoteMiss now hands (notesState st.1))
       (updateInstruction setInstruction sc1 st.2) (activeNotesRef sc1))
  /\ ActiveInv (useFrame PLAYING (Some au) hands st).1.
Proof.
  intros Hend Hinv now sc1.
  assert (Hinv1 : ActiveInv sc1)
    by (apply spawnLoop_ActiveInv; exact Hinv).
  assert (Hs1 : notesState sc1 = notesState st.1)
    by (apply (spawnLoop_scene _ now (setCurrentTime now st.1))).
  assert (Hc1 : currentTime sc1 = now).
  { unfold sc1. destruct (spawnLoop_shape (length (notesState st.1) - nextNoteIndexRef st.1)
                           now (setCurrentTime now st.1)) as (k & _ & -> & _).
    reflexivity. }
  assert (Heq : useFrame PLAYING (Some au) hands st
                = collideLoop now hands (length (activeNotesRef sc1))
                    (sc1, updateInstruction setInstruction sc1 st.2)).
  { unfold GameScene.useFrame. rewrite Hend. reflexivity. }
  rewrite Heq, collideLoop_full by (apply ActiveInv_NoDup, Hinv1).
  rewrite Hs1, Hc1. split; [reflexivity|].
  cbn [fst]. rewrite <- Hs1, <- Hc1. apply collide_ActiveInv, Hinv1.
Qed.

Lemma useFrame_ActiveInv gameStatus audio hands st :
  ActiveInv st.1 -> ActiveInv (useFrame gameStatus audio hands st).1.
Proof.
  intros Hinv. destruct audio as [au|]; [|exact Hinv].
  destruct (decide (gameStatus = PLAYING)) as [->|Hnp].
  - destruct (Audio.ended au) eqn:Hend.
    + unfold GameScene.useFrame. rewrite Hend. exact Hinv.
    + apply useFrame_playing; assumption.
  - unfold GameScene.useFrame. rewrite bool_decide_eq_false_2 by exact Hnp. exact Hinv.
Qed.

End LoopShape.

(** ** Sessions: the scheduler and the resolver *)

Lemma evolves_fields n n' :
  evolves n n' ->
  id n' = id n /\ time n' = time n /\ lineIndex n' = lineIndex n
  /\ lineLayer n' = lineLayer n /\ type n' = type n /\ text n' = text n
  /\ isCorrect n' = isCorrect n /\ instruction n' = instruction n.
Proof.
  intros [->|(_ & [->|[now ->]])]; simpl; repeat split.
Qed.

Section SessionShape.
Import Session.

Lemma step_ActiveInv w a :
  ActiveInv (scene w) -> ActiveInv (scene (step w a)).
Proof.
  intros H. destruct a as [|ready played| |audio hands]; simpl; try exact H.
  - destruct (bool_decide _); exact H.
  - destruct (_ || _); exact H.
  - pose proof (useFrame_ActiveInv (App.handleNoteHit (App.multiplier (app w)))
                  App.handleNoteMiss (App.endGame true) App.setInstruction
                  (App.gameStatus (app w)) audio hands (scene w, app w) H) as H'.
    unfold useFrame. destruct (GameScene.useFrame _ _ _ _ _ _ _ _). exact H'.
Qed.

Lemma run_ActiveInv actions : forall w,
  ActiveInv (scene w) -> ActiveInv (scene (run w actions)).
Proof.
  induction actions as [|a actions IH]; intros w H; simpl; [exact H|].
  apply IH, step_ActiveInv, H.
Qed.

Lemma mount_ActiveInv chart : Forall fresh chart -> ActiveInv (GameScene.mount chart).
Proof.
  intros Hf. unfold ActiveInv. simpl. split; [reflexivity|]. split; [lia|].
  intros r n Hr _. rewrite Forall_forall in Hf. apply Hf.
  eapply list_elem_of_lookup_2. exact Hr.
Qed.

Lemma reachable_invariants chart actions :
  Forall fresh chart ->
  let w := run (start chart) actions in
  ActiveInv (scene w) /\ AppInv (app w)
  /\ store_evolves chart (GameScene.notesState (scene w)).
Proof.
  intros Hf w. split; [|split].
  - apply run_ActiveInv, mount_ActiveInv, Hf.
  - apply run_AppInv, initial_AppInv.
  - apply (run_scene actions (start chart)).
Qed.

Lemma store_evolves_back l l' r n' :
  store_evolves l l' -> l' !! r = Some n' ->
  exists n, l !! r = Some n /\ evolves n n'.
Proof.
  intros [Hlen He] Hr.
  destruct (lookup_lt_is_Some_2 l r) as [n Hn].
  { apply lookup_lt_Some in Hr. lia. }
  destruct (He r n Hn) as (n'' & Hr' & Hev).
  exists n. split; [exact Hn|]. congruence.
Qed.

(** The step of a frame in play, song not ended, from a world in which the
    invariants hold. *)
Lemma step_playing_frame w au hands :
  ActiveInv (scene w) -> App.gameStatus (app w) = PLAYING ->
  Audio.ended au = false ->
  let now := Audio.currentTime au in
  let sc1 := GameScene.spawnLoop
               (length (GameScene.notesState (scene w))
                - GameScene.nextNoteIndexRef (scene w)) now
               (GameScene.setCurrentTime now (scene w)) in
  scene (step w (Frame (Some au) hands))
  = {| GameScene.notesState :=
         storeAfter now hands (GameScene.activeNotesRef sc1)
           (GameScene.notesState (scene w));
       GameScene.currentTime := now;
       GameScene.activeNotesRef :=
         List.filter (keeps now hands (GameScene.notesState (scene w)))
           (GameScene.activeNotesRef sc1);
       GameScene.nextNoteIndexRef := GameScene.nextNoteIndexRef sc1 |}
  /\ app (step w (Frame (Some au) hands))
     = App.runTimeouts
         (App.render
            (foldr (notify (App.handleNoteHit (App.multiplier (app w))) App.handleNoteMiss
                      now hands (GameScene.notesState (scene w)))
               (GameScene.updateInstruction App.setInstruction sc1 (app w))
               (GameScene.activeNotesRef sc1))).
Proof.
  intros Hinv Hplay Hend now sc1.
  destruct (useFrame_playing (App.handleNoteHit (App.multiplier (app w)))
              App.handleNoteMiss (App.endGame true) App.setInstruction
              au hands (scene w, app w) Hend Hinv) as [Heq _].
  cbn [step]. unfold useFrame. rewrite Hplay, Heq. split; reflexivity.
Qed.

End SessionShape.

(** ** The scheduler and the collision loop *)

Lemma spawnAheadTime_value : (GameScene.spawnAheadTime == 35 # 8)%Q.
Proof. reflexivity. Qed.

Lemma due_false_mono now n m :
  (time n <= time m)%Q -> due now n = false -> due now m = false.
Proof.
  unfold due. intros Hle Hn.
  destruct (Qle_bool (time m - GameScene.spawnAheadTime) now) eqn:Hm; [|reflexivity].
  apply Qle_bool_iff in Hm.
  assert (Hq : (time n - GameScene.spawnAheadTime <= now)%Q).
  { eapply Qle_trans; [|exact Hm].
    apply Qplus_le_compat; [exact Hle|apply Qle_refl]. }
  apply Qle_bool_iff in Hq. congruence.
Qed.

Section SchedulerExtras.
Import GameScene.

Lemma spawnLoop_activates_due sc now :
  let sc' := spawnLoop (length (notesState sc) - nextNoteIndexRef sc) now sc in
  exists k,
    nextNoteIndexRef sc' = (nextNoteIndexRef sc + k)%nat
    /\ ((forall i j n m, (i <= j)%nat -> notesState sc !! i = Some n ->
           notesState sc !! j = Some m -> (time n <= time m)%Q) ->
        forall r n, (nextNoteIndexRef sc + k <= r)%nat ->
          notesState sc !! r = Some n -> due now n = false).
Proof.
  intros sc'.
  pose proof (spawnLoop_complete (length (notesState sc) - nextNoteIndexRef sc) now sc
                (Nat.le_refl _)) as Hc. fold sc' in Hc.
  destruct (spawnLoop_shape (length (notesState sc) - nextNoteIndexRef sc) now sc)
    as (k & _ & Heq & Hall).
  fold sc' in Heq. rewrite Heq in Hc |- *.
  cbn [nextNoteIndexRef activeNotesRef notesState] in *.
  exists k. split; [reflexivity|].
  intros Hsorted r n Hr Hn.
  destruct (lookup_lt_is_Some_2 (notesState sc) (nextNoteIndexRef sc + k)) as [m Hm].
  { apply lookup_lt_Some in Hn. lia. }
  apply (due_false_mono now m n); [apply (Hsorted _ _ _ _ Hr Hm Hn)|].
  rewrite Hm in Hc. exact Hc.
Qed.

(** X6: the spawn loop of a frame activates a run of consecutive notes,
    in chart order, starting at the next note to spawn: each of them is due
    ([time - spawnAheadTime <= now]) and the note after the run, if there
    is one, is not due.  On a store sorted by time no note after the run is
    due, so a note is spawned as soon as a frame finds it due. *)
Theorem spawnLoop_activates_due_notes (now : Q) (sc : Scene) :
  let sc' := spawnLoop (length (notesState sc) - nextNoteIndexRef sc) now sc in
  exists k,
    nextNoteIndexRef sc' = (nextNoteIndexRef sc + k)%nat
    /\ activeNotesRef sc' = activeNotesRef sc ++ seq (nextNoteIndexRef sc) k
    /\ notesState sc' = notesState sc
    /\ (forall r, (nextNoteIndexRef sc <= r < nextNoteIndexRef sc + k)%nat ->
          exists n, notesState sc !! r = Some n /\ due now n = true)
    /\ (forall n, notesState sc !! (nextNoteIndexRef sc + k)%nat = Some n ->
          due now n = false)
    /\ ((forall i j n m, (i <= j)%nat -> notesState sc !! i = Some n ->
           notesState sc !! j = Some m -> (time n <= time m)%Q) ->
        forall r n, (nextNoteIndexRef sc + k <= r)%nat ->
          notesState sc !! r = Some n -> due now n = false).
Proof.
  intros sc'.
  pose proof (spawnLoop_complete (length (notesState sc) - nextNoteIndexRef sc) now sc
                (Nat.le_refl _)) as Hc. fold sc' in Hc.
  destruct (spawnLoop_shape (length (notesState sc) - nextNoteIndexRef sc) now sc)
    as (k & _ & Heq & Hall).
  fold sc' in Heq. rewrite Heq in Hc |- *. cbn [nextNoteIndexRef activeNotesRef notesState] in *.
  exists k. split; [reflexivity|]. split; [reflexivity|]. split; [reflexivity|].
  assert (Hnext : forall n, notesState sc !! (nextNoteIndexRef sc + k)%nat = Some n ->
                    due now n = false).
  { intros n Hn. rewrite Hn in Hc. exact Hc. }
  split; [|split; [exact Hnext|]].
  - intros r Hr. destruct (Hall (r - nextNoteIndexRef sc)%nat) as (n & Hn & Hd); [lia|].
    exists n. split; [|exact Hd]. rewrite <- Hn. f_equal. lia.
  - intros Hsorted r n Hr Hn.
    destruct (lookup_lt_is_Some_2 (notesState sc) (nextNoteIndexRef sc + k)) as [m Hm].
    { apply lookup_lt_Some in Hn. lia. }
    apply (due_false_mono now m n); [|apply Hnext, Hm].
    apply (Hsorted _ _ _ _ Hr Hm Hn).
Qed.

Lemma spawnLoop_activates_due_notes_witness :
  let sc := mount plainChart in
  let sc' := spawnLoop (length (notesState sc) - nextNoteIndexRef sc) (beatTime 0) sc in
  exists k,
    nextNoteIndexRef sc' = (nextNoteIndexRef sc + k)%nat
    /\ activeNotesRef sc' = activeNotesRef sc ++ seq (nextNoteIndexRef sc) k
    /\ (forall r n, (nextNoteIndexRef sc + k <= r)%nat ->
          notesState sc !! r = Some n -> due (beatTime 0) n = false).
Proof.
  destruct (spawnLoop_activates_due_notes (beatTime 0) (mount plainChart))
    as (k & H1 & H2 & _ & _ & _ & H3).
  exists k. split; [exact H1|]. split; [exact H2|].
  apply H3. intros i j n m.
  apply (generateChart_sorted Engine.sort_random PHRASE_CURRICULUM 1
           (Engine.constant (1 # 4)) sort_random_perm).
Defined.

(** X7: when the active references are distinct, the backward loop with
    its in-place [splice] does what a map, a filter and a fold do: each
    note behind an active reference is tested exactly once and replaced by
    the result of its test, the references of the notes resolved in this
    frame are dropped and the others keep their order, and the callbacks
    run once per resolved note, from the last reference to the first,
    [onNoteHit] always with [goodCut = note.isCorrect]. *)
Theorem collideLoop_map_filter_fold {A : Type}
    (onNoteHit : NoteData -> bool -> A -> A) (onNoteMiss : NoteData -> A -> A)
    (now : Q) (hands : HandPositions.t) (sc : Scene) (a : A) :
  NoDup (activeNotesRef sc) ->
  collideLoop onNoteHit onNoteMiss now hands (length (activeNotesRef sc)) (sc, a)
  = ({| notesState := storeAfter now hands (activeNotesRef sc) (notesState sc);
        currentTime := currentTime sc;
        activeNotesRef :=
          List.filter (keeps now hands (notesState sc)) (activeNotesRef sc);
        nextNoteIndexRef := nextNoteIndexRef sc |},
     foldr (notify onNoteHit onNoteMiss now hands (notesState sc)) a
       (activeNotesRef sc)).
Proof. apply collideLoop_full. Qed.

(** At [mixedScene] the loop tests the three references from the last
    to the first: the third answer stays, the second is hit and the first
    is missed; the hit is notified before the miss. *)
Lemma collideLoop_map_filter_fold_witness :
  let now := beatTime 1 in
  let store := notesState mixedScene in
  NoDup (activeNotesRef mixedScene)
  /\ collideLoop (App.handleNoteHit 1) App.handleNoteMiss now handsOnCorrect
       (length (activeNotesRef mixedScene)) (mixedScene, App.initial)
     = ({| notesState := storeAfter now handsOnCorrect (activeNotesRef mixedScene) store;
           currentTime := currentTime mixedScene;
           activeNotesRef :=
             List.filter (keeps now handsOnCorrect store) (activeNotesRef mixedScene);
           nextNoteIndexRef := nextNoteIndexRef mixedScene |},
        foldr (notify (App.handleNoteHit 1) App.handleNoteMiss now handsOnCorrect store)
          App.initial (activeNotesRef mixedScene))
  /\ outcome now handsOnCorrect <$> store !! 0%nat = Some Miss
  /\ outcome now handsOnCorrect <$> store !! 3%nat = Some Hit
  /\ outcome now handsOnCorrect <$> store !! 6%nat = Some Stay
  /\ List.filter (keeps now handsOnCorrect store) (activeNotesRef mixedScene) = [6%nat]
  /\ (exists missedNote hitNote,
        store !! 0%nat = Some missedNote /\ store !! 3%nat = Some hitNote
        /\ foldr (notify (App.handleNoteHit 1) App.handleNoteMiss now handsOnCorrect store)
             App.initial (activeNotesRef mixedScene)
           = App.handleNoteMiss (markMissed missedNote)
               (App.handleNoteHit 1 (markHit now hitNote) true App.initial)).
Proof.
  assert (H : NoDup (activeNotesRef mixedScene))
    by (apply (bool_decide_unpack _); vm_compute; exact I).
  split; [exact H|].
  split; [exact (collideLoop_map_filter_fold (App.handleNoteHit 1) App.handleNoteMiss
                   (beatTime 1) handsOnCorrect mixedScene App.initial H)|].
  split; [vm_compute; reflexivity|]. split; [vm_compute; reflexivity|].
  split; [vm_compute; reflexivity|]. split; [vm_compute; reflexivity|].
  eexists _, _. split; [vm_compute; reflexivity|]. split; [vm_compute; reflexivity|].
  vm_compute. reflexivity.
Defined.

(** X8: in every session on a chart as generated, between two actions the
    active list is exactly the list of the spawned notes that are not
    resolved, in chart order: no spawned note is dropped before it is hit
    or missed, and none is listed twice.  The notes still to be spawned
    have no flag set and the store keeps the length of the chart. *)
Theorem active_list_is_spawned_unresolved (chart : list NoteData)
    (actions : list Session.Action) :
  Forall fresh chart ->
  let sc := Session.scene (Session.run (Session.start chart) actions) in
  activeNotesRef sc
  = List.filter (unresolved_ref (notesState sc)) (seq 0 (nextNoteIndexRef sc))
  /\ NoDup (activeNotesRef sc)
  /\ (forall r, r ∈ activeNotesRef sc
        <-> (r < nextNoteIndexRef sc)%nat
            /\ exists n, notesState sc !! r = Some n /\ resolved n = false)
  /\ (nextNoteIndexRef sc <= length (notesState sc))%nat
  /\ length (notesState sc) = length chart
  /\ (forall r n, notesState sc !! r = Some n -> (nextNoteIndexRef sc <= r)%nat ->
        hit n = false /\ missed n = false).
Proof.
  intros Hf sc.
  destruct (reachable_invariants chart actions Hf) as (Hinv & _ & Hlen & _).
  fold sc in Hinv, Hlen. pose proof Hinv as (Ha & Hn & Hfr).
  split; [exact Ha|]. split; [apply ActiveInv_NoDup, Hinv|].
  split; [|split; [exact Hn|split; [exact Hlen|exact Hfr]]].
  intros r. rewrite (ActiveInv_elem_of sc r Hinv). unfold unresolved_ref.
  destruct (notesState sc !! r) as [n|].
  - split.
    + intros [Hr Hu]. split; [exact Hr|]. exists n. split; [reflexivity|].
      apply negb_true_iff, Hu.
    + intros [Hr (m & [= <-] & Hu)]. split; [exact Hr|]. apply negb_true_iff, Hu.
  - split; [intros [_ ?]; discriminate|intros [_ (m & ? & _)]; discriminate].
Qed.

Lemma active_list_is_spawned_unresolved_witness :
  Forall fresh plainChart
  /\ let sc := Session.scene (Session.run (Session.start plainChart) (wrongHits 3)) in
     activeNotesRef sc
     = List.filter (unresolved_ref (notesState sc)) (seq 0 (nextNoteIndexRef sc)).
Proof.
  assert (Hf : Forall fresh plainChart)
    by (apply generateChart_fresh; intros l r; apply sort_random_perm).
  split; [exact Hf|].
  exact (proj1 (active_list_is_spawned_unresolved plainChart (wrongHits 3) Hf)).
Defined.

End SchedulerExtras.

(** ** What a frame does to the notes *)

Lemma passed_due now n : passed now n = true -> due now n = true.
Proof.
  unfold passed, due, currentZ. intros H. apply Qltb_lt in H.
  apply Qle_bool_iff. rewrite spawnAheadTime_value.
  unfold MISS_Z, PLAYER_Z, NOTE_SPEED in H. lra.
Qed.

Lemma passed_time now n m : time n = time m -> passed now n = passed now m.
Proof. unfold passed, currentZ. intros ->. reflexivity. Qed.

Lemma struck_in_band now hands n :
  struck now hands n = true ->
  (time n - (3 # 16) < now)%Q /\ (now < time n + (1 # 8))%Q.
Proof.
  unfold struck, in_band, currentZ. intros H.
  apply andb_true_iff in H as [H _]. apply andb_true_iff in H as [H1 H2].
  apply Qltb_lt in H1, H2. unfold PLAYER_Z, NOTE_SPEED in H1, H2. split; lra.
Qed.

Lemma struck_untracked now hands n :
  HandPositions.left hands = None -> HandPositions.right hands = None ->
  struck now hands n = false.
Proof.
  intros Hl Hr. unfold struck. rewrite Hl, Hr.
  destruct (in_band now n), (type n); reflexivity.
Qed.

Lemma outcome_cases now hands n :
  match outcome now hands n with
  | Stay => True
  | Miss => resolved n = false /\ passed now n = true
  | Hit => resolved n = false /\ passed now n = false /\ struck now hands n = true
  end.
Proof.
  unfold outcome. destruct (resolved n); [exact I|].
  destruct (passed now n); [auto|]. destruct (struck now hands n); [auto|exact I].
Qed.

Lemma noteStep_evolves now hands n : evolves n (noteStep now hands n).
Proof.
  unfold noteStep. pose proof (outcome_cases now hands n) as H.
  destruct (outcome now hands n).
  - left. reflexivity.
  - destruct H as [Hr _]. apply orb_false_iff in Hr. right. split; [exact Hr|]. left.
    reflexivity.
  - destruct H as [Hr _]. apply orb_false_iff in Hr. right. split; [exact Hr|]. right.
    exists now. reflexivity.
Qed.

Lemma noteStep_hit_recorded now hands n :
  hit_recorded n -> hit_recorded (noteStep now hands n).
Proof.
  unfold noteStep. intros H. pose proof (outcome_cases now hands n) as Ho.
  destruct (outcome now hands n); [exact H|exact H|].
  destruct Ho as (_ & _ & Hs). apply struck_in_band in Hs.
  intros _. exists now. split; [reflexivity|exact Hs].
Qed.

Section FrameExtras.
Import Session.

Lemma step_frame_app w audio hands :
  app (step w (Frame audio hands))
  = App.runTimeouts (App.render (useFrame audio hands w).2)
  /\ scene (step w (Frame audio hands)) = (useFrame audio hands w).1.
Proof. cbn [step]. destruct (useFrame audio hands w). split; reflexivity. Qed.

(** What an action does to one note of the store. *)
Lemma step_notes w a r n' :
  ActiveInv (scene w) ->
  GameScene.notesState (scene (step w a)) !! r = Some n' ->
  exists n, GameScene.notesState (scene w) !! r = Some n
    /\ (n' = n
        \/ exists au hands,
             a = Frame (Some au) hands /\ App.gameStatus (app w) = PLAYING
             /\ Audio.ended au = false
             /\ n' = noteStep (Audio.currentTime au) hands n).
Proof.
  intros Hinv Hr.
  assert (Hsame : GameScene.notesState (scene (step w a)) = GameScene.notesState (scene w)
                  -> exists n, GameScene.notesState (scene w) !! r = Some n
                       /\ (n' = n
                           \/ exists au hands,
                                a = Frame (Some au) hands
                                /\ App.gameStatus (app w) = PLAYING
                                /\ Audio.ended au = false
                                /\ n' = noteStep (Audio.currentTime au) hands n)).
  { intros He. rewrite He in Hr. exists n'. auto. }
  destruct a as [|ready played| |audio hands].
  - apply Hsame. reflexivity.
  - apply Hsame. simpl. destruct (bool_decide _); reflexivity.
  - apply Hsame. simpl. destruct (_ || _); reflexivity.
  - destruct audio as [au|]; [|apply Hsame; reflexivity].
    destruct (decide (App.gameStatus (app w) = PLAYING)) as [Hplay|Hnp].
    + destruct (Audio.ended au) eqn:Hend.
      * apply Hsame. cbn [step]. unfold useFrame, GameScene.useFrame.
        rewrite Hplay, Hend. reflexivity.
      * destruct (step_playing_frame w au hands Hinv Hplay Hend) as [Hsc _].
        rewrite Hsc in Hr. cbn [GameScene.notesState] in Hr.
        rewrite storeAfter_lookup in Hr.
        destruct (GameScene.notesState (scene w) !! r) as [n|]; [|discriminate].
        exists n. split; [reflexivity|]. simpl in Hr. injection Hr as <-.
        destruct (bool_decide _); [right; exists au, hands; auto|left; reflexivity].
    + apply Hsame. cbn [step]. rewrite (useFrame_not_playing _ _ _ Hnp). reflexivity.
Qed.

(** X9: on a chart as generated (no flag set, sorted by time), after a
    frame of a game in play whose song has not ended, no unresolved note is
    left beyond the miss line: every note of the store with
    [currentZ > MISS_Z] at the time of the frame is hit or missed. *)
Theorem passed_notes_are_resolved (chart : list NoteData) (actions : list Action)
    (au : Audio.t) (hands : HandPositions.t) :
  Forall fresh chart ->
  (forall i j n m, (i <= j)%nat -> chart !! i = Some n -> chart !! j = Some m ->
     (time n <= time m)%Q) ->
  let w := run (start chart) actions in
  App.gameStatus (app w) = PLAYING -> Audio.ended au = false ->
  forall r n,
    GameScene.notesState (scene (step w (Frame (Some au) hands))) !! r = Some n ->
    passed (Audio.currentTime au) n = true ->
    resolved n = true.
Proof.
  intros Hf Hsorted w Hplay Hend r n' Hr Hpassed.
  destruct (reachable_invariants chart actions Hf) as (Hinv & _ & Hev). fold w in Hinv, Hev.
  set (now := Audio.currentTime au) in *.
  destruct (step_playing_frame w au hands Hinv Hplay Hend) as [Hsc _].
  fold now in Hsc. rewrite Hsc in Hr. cbn [GameScene.notesState] in Hr.
  set (sc0 := GameScene.setCurrentTime now (scene w)) in *.
  change (GameScene.notesState (scene w)) with (GameScene.notesState sc0) in Hr, Hsc.
  change (GameScene.nextNoteIndexRef (scene w)) with (GameScene.nextNoteIndexRef sc0)
    in Hr, Hsc.
  set (sc1 := GameScene.spawnLoop _ now sc0) in *.
  assert (Hinv1 : ActiveInv sc1) by (apply spawnLoop_ActiveInv; exact Hinv).
  assert (Hs1 : GameScene.notesState sc1 = GameScene.notesState sc0)
    by apply spawnLoop_scene.
  rewrite storeAfter_lookup in Hr.
  destruct (GameScene.notesState sc0 !! r) as [n|] eqn:Hn; [|discriminate].
  simpl in Hr. injection Hr as Hn'.
  destruct (resolved n) eqn:Hres.
  { rewrite noteStep_resolved in Hn' by exact Hres.
    destruct (bool_decide _); subst n'; exact Hres. }
  (* the note is spawned: it is due, and the store is sorted *)
  assert (Htime : time n' = time n).
  { destruct (bool_decide _); subst n'; [|reflexivity].
    apply (evolves_fields _ _ (noteStep_evolves now hands n)). }
  rewrite (passed_time now n' n Htime) in Hpassed.
  assert (Hspawned : (r < GameScene.nextNoteIndexRef sc1)%nat).
  { destruct (Nat.lt_ge_cases r (GameScene.nextNoteIndexRef sc1)) as [H|H]; [exact H|].
    exfalso.
    destruct (spawnLoop_activates_due sc0 now) as (k & Hk & Hnot).
    fold sc1 in Hk, Hnot.
    assert (Hd : due now n = false).
    { refine (Hnot _ r n _ Hn); [|lia].
      intros i j x y Hij Hi Hj. change (GameScene.notesState sc0)
        with (GameScene.notesState (scene w)) in Hi, Hj.
      destruct (store_evolves_back _ _ _ _ Hev Hi) as (x0 & Hx0 & Ex).
      destruct (store_evolves_back _ _ _ _ Hev Hj) as (y0 & Hy0 & Ey).
      destruct (evolves_fields _ _ Ex) as (_ & -> & _).
      destruct (evolves_fields _ _ Ey) as (_ & -> & _).
      apply (Hsorted _ _ _ _ Hij Hx0 Hy0). }
    rewrite (passed_due now n Hpassed) in Hd. discriminate. }
  assert (Hin : r ∈ GameScene.activeNotesRef sc1).
  { apply (ActiveInv_elem_of sc1 r Hinv1). split; [exact Hspawned|].
    unfold unresolved_ref. rewrite Hs1, Hn, Hres. reflexivity. }
  rewrite bool_decide_eq_true_2 in Hn' by exact Hin. subst n'.
  rewrite noteStep_unresolved by exact Hres.
  unfold outcome. rewrite Hres, Hpassed. reflexivity.
Qed.


Lemma passed_notes_are_resolved_witness :
  Forall fresh plainChart
  /\ App.gameStatus (app (run (start plainChart) (wrongHits 3))) = PLAYING
  /\ forall r n,
       GameScene.notesState
         (scene (step (run (start plainChart) (wrongHits 3))
                   (Frame (Some lateAudio) noHands))) !! r = Some n ->
       passed (Audio.currentTime lateAudio) n = true -> resolved n = true.
Proof.
  assert (Hf : Forall fresh plainChart)
    by (apply generateChart_fresh; intros l r; apply sort_random_perm).
  assert (Hp : App.gameStatus (app (run (start plainChart) (wrongHits 3))) = PLAYING)
    by (vm_compute; reflexivity).
  split; [exact Hf|]. split; [exact Hp|].
  exact (passed_notes_are_resolved plainChart (wrongHits 3) lateAudio noHands Hf
           (generateChart_sorted Engine.sort_random PHRASE_CURRICULUM 1
              (Engine.constant (1 # 4)) sort_random_perm)
           Hp eq_refl).
Defined.

Lemma run_notes_Forall (P : NoteData -> Prop) chart actions :
  Forall fresh chart -> Forall P chart ->
  (forall now hands n, P n -> P (noteStep now hands n)) ->
  Forall P (GameScene.notesState (scene (run (start chart) actions))).
Proof.
  intros Hf HP Hstep.
  assert (Hgen : forall acts w, ActiveInv (scene w) ->
                   Forall P (GameScene.notesState (scene w)) ->
                   Forall P (GameScene.notesState (scene (run w acts)))).
  { induction acts as [|a acts IH]; intros w Hinv Hw; simpl; [exact Hw|].
    apply IH; [apply step_ActiveInv, Hinv|].
    apply Forall_lookup. intros r n' Hr.
    destruct (step_notes w a r n' Hinv Hr) as (n & Hn & Hcase).
    rewrite Forall_lookup in Hw. specialize (Hw r n Hn).
    destruct Hcase as [->|(au & hands & _ & _ & _ & ->)]; [exact Hw|].
    apply Hstep, Hw. }
  apply Hgen; [apply mount_ActiveInv, Hf|exact HP].
Qed.

(** X10: in every session on a chart as generated, a note that is hit is
    not missed, and its [hitTime] is the time of a frame at which the note
    was inside the interception band: later than 0.1875 s before its
    arrival time and earlier than 0.125 s after it. *)
Theorem hits_are_recorded_in_band (chart : list NoteData) (actions : list Action) :
  Forall fresh chart ->
  forall n, n ∈ GameScene.notesState (scene (run (start chart) actions)) ->
    hit n = true ->
    missed n = false
    /\ exists t, hitTime n = Some t
         /\ (time n - (3 # 16) < t)%Q /\ (t < time n + (1 # 8))%Q.
Proof.
  intros Hf n Hn Hhit.
  assert (Hrec : Forall hit_recorded (GameScene.notesState (scene (run (start chart) actions)))).
  { apply run_notes_Forall; [exact Hf| |apply noteStep_hit_recorded].
    eapply Forall_impl; [exact Hf|]. intros m [Hh _] Hh'. congruence. }
  rewrite Forall_forall in Hrec. split; [|apply (Hrec n Hn Hhit)].
  apply list_elem_of_lookup_1 in Hn as [r Hr].
  destruct (reachable_invariants chart actions Hf) as (_ & _ & Hev).
  destruct (store_evolves_back _ _ _ _ Hev Hr) as (n0 & H0 & E).
  rewrite Forall_forall in Hf.
  pose proof (evolves_not_both n0 n E
                (fresh_not_both n0 (Hf n0 (list_elem_of_lookup_2 _ _ _ H0)))) as Hnb.
  destruct (missed n) eqn:Hm; [|reflexivity]. exfalso. apply Hnb. auto.
Qed.

Lemma hits_are_recorded_in_band_witness :
  Forall fresh plainChart
  /\ forall n, n ∈ GameScene.notesState (scene (run (start plainChart) (correctHits 2))) ->
       hit n = true ->
       missed n = false
       /\ exists t, hitTime n = Some t
            /\ (time n - (3 # 16) < t)%Q /\ (t < time n + (1 # 8))%Q.
Proof.
  assert (Hf : Forall fresh plainChart)
    by (apply generateChart_fresh; intros l r; apply sort_random_perm).
  split; [exact Hf|].
  exact (hits_are_recorded_in_band plainChart (correctHits 2) Hf).
Defined.

Lemma foldr_notify_no_hit (P : App.State -> Prop) m now hands store l a :
  (forall n, n ∈ store -> outcome now hands n <> Hit) ->
  (forall n s, P s -> P (App.handleNoteMiss n s)) ->
  P a ->
  P (foldr (notify (App.handleNoteHit m) App.handleNoteMiss now hands store) a l).
Proof.
  intros Hno Hmiss Ha. induction l as [|r l IH]; simpl; [exact Ha|].
  unfold notify at 1. destruct (store !! r) as [n|] eqn:Hr; [|exact IH].
  pose proof (Hno n (list_elem_of_lookup_2 _ _ _ Hr)) as Hn.
  destruct (outcome now hands n); [exact IH|apply Hmiss, IH|congruence].
Qed.

Lemma handleNoteMiss_score n s : App.score (App.handleNoteMiss n s) = App.score s.
Proof.
  destruct (isCorrect n) eqn:E.
  - apply (handleNoteMiss_penalty n s E).
  - unfold App.handleNoteMiss. rewrite E. reflexivity.
Qed.

(** X11: a frame in which neither hand is tracked hits nothing: no note
    gets the flag [hit] or a [hitTime], and the score stays as it is; only
    misses can happen. *)
Theorem untracked_hands_never_hit (chart : list NoteData) (actions : list Action)
    (audio : option Audio.t) (hands : HandPositions.t) :
  Forall fresh chart ->
  HandPositions.left hands = None -> HandPositions.right hands = None ->
  let w := run (start chart) actions in
  let w' := step w (Frame audio hands) in
  (forall r n', GameScene.notesState (scene w') !! r = Some n' ->
     exists n, GameScene.notesState (scene w) !! r = Some n
       /\ hit n' = hit n /\ hitTime n' = hitTime n)
  /\ App.score (app w') = App.score (app w).
Proof.
  intros Hf Hl Hr w w'.
  destruct (reachable_invariants chart actions Hf) as (Hinv & Happ & _).
  fold w in Hinv, Happ.
  assert (Hno : forall now n, outcome now hands n <> Hit).
  { intros now n Ho. pose proof (outcome_cases now hands n) as H. rewrite Ho in H.
    destruct H as (_ & _ & Hs). rewrite struck_untracked in Hs by assumption.
    discriminate. }
  split.
  - intros r n' Hn'. destruct (step_notes w _ r n' Hinv Hn') as (n & Hn & Hcase).
    exists n. split; [exact Hn|].
    destruct Hcase as [->|(au & hands' & [= _ <-] & _ & _ & ->)]; [auto|].
    unfold noteStep. specialize (Hno (Audio.currentTime au) n).
    destruct (outcome (Audio.currentTime au) hands n); [auto|auto|congruence].
  - unfold w'. rewrite (proj1 (step_frame_app w audio hands)).
    destruct (afterFrame_fields (useFrame audio hands w).2) as (-> & _).
    destruct audio as [au|]; [|reflexivity].
    destruct (decide (App.gameStatus (app w) = PLAYING)) as [Hplay|Hnp];
      [|rewrite (useFrame_not_playing _ _ _ Hnp); reflexivity].
    destruct (Audio.ended au) eqn:Hend.
    + unfold useFrame, GameScene.useFrame. rewrite Hplay, Hend. reflexivity.
    + destruct (useFrame_playing (App.handleNoteHit (App.multiplier (app w)))
                  App.handleNoteMiss (App.endGame true) App.setInstruction
                  au hands (scene w, app w) Hend Hinv) as [Heq _].
      unfold useFrame. rewrite Hplay, Heq. cbn [snd fst].
      apply (foldr_notify_no_hit (fun s => App.score s = App.score (app w))).
      * intros n _. apply Hno.
      * intros n s Hs. rewrite handleNoteMiss_score. exact Hs.
      * unfold GameScene.updateInstruction. destruct (0 <? _)%nat; [|reflexivity].
        match goal with |- context [match ?l with [] => _ | _ :: _ => _ end] =>
          destruct l end; reflexivity.
Qed.

Lemma untracked_hands_never_hit_witness :
  Forall fresh plainChart
  /\ App.score (app (step (run (start plainChart) (wrongHits 3))
                      (Frame (Some lateAudio) noHands)))
     = App.score (app (run (start plainChart) (wrongHits 3))).
Proof.
  assert (Hf : Forall fresh plainChart)
    by (apply generateChart_fresh; intros l r; apply sort_random_perm).
  split; [exact Hf|].
  exact (proj2 (untracked_hands_never_hit plainChart (wrongHits 3) (Some lateAudio)
                  noHands Hf eq_refl eq_refl)).
Defined.

End FrameExtras.

(** ** The session state machine *)

Section StatusExtras.
Import App Session.

Lemma frame_idle w audio hands :
  AppInv (app w) -> gameStatus (app w) <> PLAYING \/ audio = None ->
  step w (Frame audio hands) = w.
Proof.
  intros Hinv H.
  assert (Hu : useFrame audio hands w = (scene w, app w)).
  { destruct H as [Hnp| ->]; [apply useFrame_not_playing, Hnp|reflexivity]. }
  cbn [step]. rewrite Hu. cbn [snd fst].
  rewrite render_nil by apply Hinv. rewrite runTimeouts_nil by apply Hinv.
  destruct w; reflexivity.
Qed.

(** X12: while the game is not in play, or when there is no audio element,
    a frame changes nothing: no note is spawned, tested or missed, and
    score, combo, health and status stay as they are. *)
Theorem frame_outside_play_changes_nothing (chart : list NoteData)
    (actions : list Action) (audio : option Audio.t) (hands : HandPositions.t) :
  let w := run (start chart) actions in
  gameStatus (app w) <> PLAYING \/ audio = None ->
  step w (Frame audio hands) = w.
Proof.
  intros w H. apply frame_idle; [|exact H]. apply run_AppInv, initial_AppInv.
Qed.

Lemma frame_outside_play_changes_nothing_witness :
  gameStatus (app (run (start plainChart) (wrongHits 4))) <> PLAYING
  /\ step (run (start plainChart) (wrongHits 4)) (frameAt 4 handsOnCorrect)
     = run (start plainChart) (wrongHits 4).
Proof.
  assert (H : gameStatus (app (run (start plainChart) (wrongHits 4))) <> PLAYING)
    by (vm_compute; discriminate).
  split; [exact H|].
  exact (frame_outside_play_changes_nothing plainChart (wrongHits 4)
           (Some {| Audio.currentTime := beatTime 4; Audio.ended := false |})
           handsOnCorrect (or_introl H)).
Defined.

(** X13: the frame that finds the song ended while the game is in play
    ends the session in [VICTORY] and does nothing else: the notes, the
    active list, score, combo and health are as before, also for notes
    that are beyond the miss line at that time. *)
Theorem song_end_is_victory (chart : list NoteData) (actions : list Action)
    (au : Audio.t) (hands : HandPositions.t) :
  let w := run (start chart) actions in
  gameStatus (app w) = PLAYING -> Audio.ended au = true ->
  step w (Frame (Some au) hands)
  = {| app := setGameStatus VICTORY (app w);
       scene := GameScene.setCurrentTime (Audio.currentTime au) (scene w) |}.
Proof.
  intros w Hplay Hend.
  assert (Hinv : AppInv (app w)) by apply run_AppInv, initial_AppInv.
  cbn [step]. unfold useFrame, GameScene.useFrame. rewrite Hplay, Hend.
  cbn [bool_decide decide_rel negb fst snd].
  rewrite bool_decide_eq_true_2 by reflexivity. cbn [negb].
  rewrite render_nil by apply Hinv.
  rewrite runTimeouts_nil; [reflexivity|]. apply Hinv.
Qed.

Lemma song_end_is_victory_witness :
  gameStatus (app (run (start plainChart) (wrongHits 3))) = PLAYING
  /\ step (run (start plainChart) (wrongHits 3)) (Frame (Some endedAudio) noHands)
     = {| app := setGameStatus VICTORY (app (run (start plainChart) (wrongHits 3)));
          scene := GameScene.setCurrentTime (Audio.currentTime endedAudio)
                     (scene (run (start plainChart) (wrongHits 3))) |}.
Proof.
  assert (H : gameStatus (app (run (start plainChart) (wrongHits 3))) = PLAYING)
    by (vm_compute; reflexivity).
  split; [exact H|].
  exact (song_end_is_victory plainChart (wrongHits 3) endedAudio noHands H eq_refl).
Defined.

Lemma handleNoteHit_status m n g s : gameStatus (handleNoteHit m n g s) = gameStatus s.
Proof.
  destruct (g && isCorrect n) eqn:E.
  - apply andb_true_iff in E as [-> Hc]. apply (handleNoteHit_good m n s Hc).
  - apply (handleNoteHit_wrong m n g s E).
Qed.

Lemma handleNoteMiss_status n s : gameStatus (handleNoteMiss n s) = gameStatus s.
Proof.
  destruct (isCorrect n) eqn:E.
  - apply (handleNoteMiss_penalty n s E).
  - unfold handleNoteMiss. rewrite E. reflexivity.
Qed.

(** X14: the status moves only along [LOADING -> IDLE -> PLAYING ->
    GAME_OVER | VICTORY -> IDLE]: in every session, an action leaves the
    status as it is or makes one of these changes.  A frame changes the
    status only from [PLAYING], to [GAME_OVER] or to [VICTORY]. *)
Theorem status_changes_follow_the_machine (chart : list NoteData)
    (actions : list Action) (a : Action) :
  let w := run (start chart) actions in
  status_change (gameStatus (app w)) (gameStatus (app (step w a)))
  /\ (forall audio hands, a = Frame audio hands ->
        gameStatus (app (step w a)) = gameStatus (app w)
        \/ (gameStatus (app w) = PLAYING
            /\ (gameStatus (app (step w a)) = GAME_OVER
                \/ gameStatus (app (step w a)) = VICTORY))).
Proof.
  intros w.
  assert (Hinv : AppInv (app w)) by apply run_AppInv, initial_AppInv.
  assert (Hframe : forall audio hands,
            gameStatus (app (step w (Frame audio hands))) = gameStatus (app w)
            \/ (gameStatus (app w) = PLAYING
                /\ (gameStatus (app (step w (Frame audio hands))) = GAME_OVER
                    \/ gameStatus (app (step w (Frame audio hands))) = VICTORY))).
  { intros audio hands.
    destruct (decide (gameStatus (app w) = PLAYING)) as [Hplay|Hnp].
    2:{ left. rewrite (frame_idle w audio hands Hinv (or_introl Hnp)). reflexivity. }
    rewrite Hplay. cbn [step].
    pose proof (useFrame_TickInv audio hands w (AppInv_TickInv _ Hinv Hplay)) as Ht.
    assert (Hs : gameStatus (useFrame audio hands w).2 = PLAYING
                 \/ gameStatus (useFrame audio hands w).2 = VICTORY).
    { unfold useFrame.
      apply (useFrame_parent _ _ _ _
               (fun s => gameStatus s = PLAYING \/ gameStatus s = VICTORY)).
      - intros n s. rewrite handleNoteHit_status. auto.
      - intros n s. rewrite handleNoteMiss_status. auto.
      - intros s _. right. reflexivity.
      - intros t s. auto.
      - left. exact Hplay. }
    destruct (useFrame audio hands w) as [sc s]. cbn [snd fst app] in *.
    destruct (render_fields s) as (Hg & _ & _ & _ & _ & _ & Hto & _).
    destruct (timeouts s) as [|v l] eqn:E.
    - rewrite runTimeouts_nil by (rewrite Hto; reflexivity). rewrite Hg.
      destruct Hs as [Hs|Hs]; [left; exact Hs|right; auto].
    - right. split; [reflexivity|]. left.
      apply TickInv_runTimeouts; [exact Ht|rewrite E; discriminate]. }
  split.
  - destruct a as [|ready played| |audio hands].
    + cbn [step app]. unfold cameraEffect, status_change.
      destruct (bool_decide (gameStatus (app w) = LOADING)) eqn:E; cbn [andb]; [|auto].
      apply bool_decide_eq_true in E. rewrite E. right. left. split; reflexivity.
    + cbn [step]. unfold status_change.
      destruct (bool_decide (gameStatus (app w) = IDLE)) eqn:E; [|auto].
      apply bool_decide_eq_true in E. cbn [app]. rewrite E. unfold startGame.
      destruct ready; [|cbn; rewrite E; auto]. destruct played; cbn; [auto|].
      rewrite E. auto.
    + cbn [step]. unfold status_change.
      destruct (bool_decide (gameStatus (app w) = GAME_OVER)
                || bool_decide (gameStatus (app w) = VICTORY)) eqn:E; [|auto].
      apply orb_true_iff in E. cbn. do 4 right. split; [|reflexivity].
      destruct E as [E|E]; apply bool_decide_eq_true in E; auto.
    + unfold status_change. destruct (Hframe audio hands) as [->|[-> H]];
        [left; reflexivity|do 3 right; left; split; [reflexivity|exact H]].
  - intros audio hands ->. apply Hframe.
Qed.

Lemma status_changes_follow_the_machine_witness :
  status_change (gameStatus (app (run (start plainChart) (wrongHits 3))))
    (gameStatus (app (step (run (start plainChart) (wrongHits 3))
                        (frameAt 3 handsOnDistractors))))
  /\ (gameStatus (app (step (run (start plainChart) (wrongHits 3))
                         (frameAt 3 handsOnDistractors)))
      = gameStatus (app (run (start plainChart) (wrongHits 3)))
      \/ (gameStatus (app (run (start plainChart) (wrongHits 3))) = PLAYING
          /\ (gameStatus (app (step (run (start plainChart) (wrongHits 3))
                                 (frameAt 3 handsOnDistractors))) = GAME_OVER
              \/ gameStatus (app (step (run (start plainChart) (wrongHits 3))
                                    (frameAt 3 handsOnDistractors))) = VICTORY))).
Proof.
  destruct (status_changes_follow_the_machine plainChart (wrongHits 3)
              (frameAt 3 handsOnDistractors)) as [H1 H2].
  split; [exact H1|]. exact (H2 _ _ eq_refl).
Defined.

(** X15: a frame never lowers the score: in every session the score after
    a frame is at least the score before it. *)
Theorem score_never_decreases_in_frame (chart : list NoteData)
    (actions : list Action) (audio : option Audio.t) (hands : HandPositions.t) :
  let w := run (start chart) actions in
  score (app w) <= score (app (step w (Frame audio hands))).
Proof.
  intros w.
  assert (Hinv : AppInv (app w)) by apply run_AppInv, initial_AppInv.
  cbn [step].
  assert (Hs : score (app w) <= score (useFrame audio hands w).2).
  { unfold useFrame.
    apply (useFrame_parent _ _ _ _ (fun s => score (app w) <= score s)).
    - intros n s Hs. destruct (isCorrect n) eqn:E.
      + destruct (handleNoteHit_good (multiplier (app w)) n s E)
          as (_ & _ & _ & -> & _).
        destruct Hinv as (_ & _ & _ & Hm & _).
        apply multiplierValue_range in Hm. lia.
      + destruct (handleNoteHit_wrong (multiplier (app w)) n false s eq_refl)
          as (_ & _ & -> & _). exact Hs.
    - intros n s Hs. destruct (isCorrect n) eqn:E.
      + destruct (handleNoteMiss_penalty n s E) as (_ & _ & -> & _). exact Hs.
      + unfold handleNoteMiss. rewrite E. exact Hs.
    - intros s Hs. exact Hs.
    - intros t s Hs. exact Hs.
    - simpl. lia. }
  destruct (useFrame audio hands w) as [sc s]. cbn [snd app] in *.
  destruct (afterFrame_fields s) as (-> & _). exact Hs.
Qed.

End StatusExtras.

(** ** What is drawn *)

(** X16: every note handed to the renderer is a note of the store that is
    not missed, lies between 48 behind and 16 in front of the player
    ([-48 < zPos < 16]), is drawn (the component does not return [null]),
    and, when it is hit, was hit less than half a second ago. *)
Theorem visible_notes_are_near_and_drawn (sc : GameScene.Scene) (n : NoteData) :
  n ∈ visibleNotes sc ->
  n ∈ GameScene.notesState sc
  /\ missed n = false
  /\ (-48 < zPos (GameScene.currentTime sc) n)%Q
  /\ (zPos (GameScene.currentTime sc) n < 16)%Q
  /\ Note n (zPos (GameScene.currentTime sc) n) (GameScene.currentTime sc) <> Nothing
  /\ (hit n = true ->
      (GameScene.currentTime sc - hitTime_or_0 n < 1 # 2)%Q).
Proof.
  unfold visibleNotes. rewrite list_elem_of_In, List.filter_In, <- list_elem_of_In.
  intros [Hin Hv]. unfold visible in Hv.
  apply andb_true_iff in Hv as [Hv Hlow]. apply andb_true_iff in Hv as [Hv Hhigh].
  apply andb_true_iff in Hv as [Hm Hh]. apply negb_true_iff in Hm.
  apply Qltb_lt in Hlow, Hhigh.
  split; [exact Hin|]. split; [exact Hm|].
  unfold zPos, PLAYER_Z, NOTE_SPEED.
  split; [lra|]. split; [lra|]. split.
  - unfold Note. rewrite Hm. destruct (hit n), (hitTime n) as [t|];
      try discriminate. destruct (Qeq_bool t 0); discriminate.
  - intros Hhit. rewrite Hhit in Hh. simpl in Hh. apply Qltb_lt, Hh.
Qed.

Lemma visible_notes_are_near_and_drawn_witness :
  wentNote ∈ visibleNotes (Session.scene spawnedWorld)
  /\ missed wentNote = false
  /\ (-48 < zPos (GameScene.currentTime (Session.scene spawnedWorld)) wentNote)%Q
  /\ (zPos (GameScene.currentTime (Session.scene spawnedWorld)) wentNote < 16)%Q.
Proof.
  assert (H : wentNote ∈ visibleNotes (Session.scene spawnedWorld)).
  { apply (list_elem_of_lookup_2 _ 0%nat). vm_compute. reflexivity. }
  destruct (visible_notes_are_near_and_drawn (Session.scene spawnedWorld) wentNote H)
    as (_ & H1 & H2 & H3 & _).
  split; [exact H|]. split; [exact H1|]. split; [exact H2|exact H3].
Defined.

(** X17: in a session on a chart as generated whose notes arrive no
    earlier than 0.1875 s into the song (the generator starts at beat 8), a
    hit note has a positive [hitTime], so the component [Note] draws its
    debris, with the time since the hit, and never the intact block. *)
Theorem hit_note_draws_debris (chart : list NoteData)
    (actions : list Session.Action) :
  Forall fresh chart ->
  Forall (fun n => (3 # 16 <= time n)%Q) chart ->
  forall n,
    n ∈ GameScene.notesState (Session.scene (Session.run (Session.start chart) actions)) ->
    hit n = true ->
    exists t, hitTime n = Some t /\ (0 < t)%Q
      /\ forall z currentTime,
           Note n z currentTime = DebrisAt (GameScene.notePos n z) (currentTime - t).
Proof.
  intros Hf Hlate n Hn Hhit.
  assert (Hrec : Forall (fun m => hit_recorded m /\ (3 # 16 <= time m)%Q
                                  /\ ~ (hit m = true /\ missed m = true))
                   (GameScene.notesState
                      (Session.scene (Session.run (Session.start chart) actions)))).
  { apply run_notes_Forall; [exact Hf| |].
    - rewrite Forall_forall in Hf, Hlate. apply Forall_forall. intros m Hm.
      split; [|split; [apply Hlate, Hm|apply fresh_not_both, Hf, Hm]].
      intros Hh. destruct (Hf m Hm) as [Hh' _]. congruence.
    - intros now hands m (H1 & H2 & H3).
      pose proof (noteStep_evolves now hands m) as E.
      split; [apply noteStep_hit_recorded, H1|]. split.
      + destruct (evolves_fields _ _ E) as (_ & -> & _). exact H2.
      + eapply evolves_not_both; eauto. }
  rewrite Forall_forall in Hrec. destruct (Hrec n Hn) as (H1 & H2 & H3).
  destruct (H1 Hhit) as (t & Ht & Hlo & _).
  assert (Hpos : (0 < t)%Q) by lra.
  exists t. split; [exact Ht|]. split; [exact Hpos|].
  intros z ct. unfold Note. rewrite Hhit, Ht.
  destruct (missed n) eqn:Hm; [exfalso; apply H3; auto|].
  destruct (Qeq_bool t 0) eqn:E; [|reflexivity].
  apply Qeq_bool_iff in E. rewrite E in Hpos. exfalso. exact (Qlt_irrefl _ Hpos).
Qed.

Lemma plainChart_unfold :
  plainChart
  = generateChart Engine.sort_random PHRASE_CURRICULUM 1 (Engine.constant (1 # 4)).
Proof. reflexivity. Qed.

Lemma hit_note_draws_debris_witness :
  Forall fresh plainChart /\ Forall (fun n => (3 # 16 <= time n)%Q) plainChart
  /\ forall n,
       n ∈ GameScene.notesState
             (Session.scene (Session.run (Session.start plainChart) (correctHits 2))) ->
       hit n = true ->
       exists t, hitTime n = Some t /\ (0 < t)%Q
         /\ forall z currentTime,
              Note n z currentTime = DebrisAt (GameScene.notePos n z) (currentTime - t).
Proof.
  assert (Hf : Forall fresh plainChart)
    by (apply generateChart_fresh; intros l r; apply sort_random_perm).
  assert (Hl : Forall (fun n => (3 # 16 <= time n)%Q) plainChart).
  { apply Forall_forall. intros n Hn.
    rewrite plainChart_unfold in Hn.
    pose proof (generateChart_arrival Engine.sort_random PHRASE_CURRICULUM 1
                  (Engine.constant (1 # 4)) sort_random_perm n Hn) as Hn8.
    eapply Qle_trans; [|exact Hn8]. vm_compute. discriminate. }
  split; [exact Hf|]. split; [exact Hl|].
  exact (hit_note_draws_debris plainChart (correctHits 2) Hf Hl).
Defined.

(** ** The instruction shown *)

Section InstructionExtras.
Import Session.

Lemma handleNoteHit_instruction m n g s :
  App.instruction (App.handleNoteHit m n g s) = App.instruction s.
Proof.
  destruct (g && isCorrect n) eqn:E.
  - apply andb_true_iff in E as [-> Hc]. apply (handleNoteHit_good m n s Hc).
  - apply (handleNoteHit_wrong m n g s E).
Qed.

Lemma handleNoteMiss_instruction n s :
  App.instruction (App.handleNoteMiss n s) = App.instruction s.
Proof.
  destruct (isCorrect n) eqn:E.
  - apply (handleNoteMiss_penalty n s E).
  - unfold App.handleNoteMiss. rewrite E. reflexivity.
Qed.

Lemma foldr_notify_instruction m now hands store l a :
  App.instruction
    (foldr (notify (App.handleNoteHit m) App.handleNoteMiss now hands store) a l)
  = App.instruction a.
Proof.
  induction l as [|r l IH]; simpl; [reflexivity|].
  unfold notify at 1. destruct (store !! r) as [n|]; [|exact IH].
  destruct (outcome now hands n); [exact IH| |].
  - rewrite handleNoteMiss_instruction. exact IH.
  - rewrite handleNoteHit_instruction. exact IH.
Qed.

(** X18: after a frame of a game in play whose song has not ended, the
    instruction shown is the one of the first note of the active list as it
    is after spawning, that is of the earliest spawned note that is not
    yet resolved; the hits and misses of the frame do not change it.  With
    no active note the instruction stays as it was. *)
Theorem instruction_follows_first_active (chart : list NoteData)
    (actions : list Action) (au : Audio.t) (hands : HandPositions.t) :
  Forall fresh chart ->
  let w := run (start chart) actions in
  App.gameStatus (app w) = PLAYING -> Audio.ended au = false ->
  let sc1 := GameScene.spawnLoop
               (length (GameScene.notesState (scene w))
                - GameScene.nextNoteIndexRef (scene w)) (Audio.currentTime au)
               (GameScene.setCurrentTime (Audio.currentTime au) (scene w)) in
  let w' := step w (Frame (Some au) hands) in
  match GameScene.activeNotesRef sc1 with
  | [] => App.instruction (app w') = App.instruction (app w)
  | r :: _ =>
      exists n, GameScene.notesState (scene w) !! r = Some n
                /\ resolved n = false
                /\ App.instruction (app w') = instruction n
  end.
Proof.
  intros Hf w Hplay Hend sc1 w'.
  destruct (reachable_invariants chart actions Hf) as (Hinv & _ & _). fold w in Hinv.
  destruct (step_playing_frame w au hands Hinv Hplay Hend) as [_ Ha].
  fold sc1 in Ha. fold w' in Ha. rewrite Ha.
  destruct (afterFrame_fields
              (foldr (notify (App.handleNoteHit (App.multiplier (app w)))
                        App.handleNoteMiss (Audio.currentTime au) hands
                        (GameScene.notesState (scene w)))
                 (GameScene.updateInstruction App.setInstruction sc1 (app w))
                 (GameScene.activeNotesRef sc1))) as (_ & _ & _ & _ & -> & _).
  rewrite foldr_notify_instruction.
  assert (Hinv1 : ActiveInv sc1) by (apply spawnLoop_ActiveInv; exact Hinv).
  assert (Hs1 : GameScene.notesState sc1 = GameScene.notesState (scene w))
    by (apply (spawnLoop_scene _ (Audio.currentTime au)
                 (GameScene.setCurrentTime (Audio.currentTime au) (scene w)))).
  unfold GameScene.updateInstruction.
  destruct (GameScene.activeNotesRef sc1) as [|r l] eqn:Hact; [reflexivity|].
  assert (Hr : r ∈ GameScene.activeNotesRef sc1) by (rewrite Hact; left).
  apply (ActiveInv_elem_of sc1 r Hinv1) in Hr as [_ Hu].
  unfold unresolved_ref in Hu.
  destruct (GameScene.notesState sc1 !! r) as [n|] eqn:Hn; [|discriminate].
  apply negb_true_iff in Hu.
  exists n. split; [rewrite <- Hs1; exact Hn|]. split; [exact Hu|].
  cbn [length Nat.ltb Nat.leb omap list_omap]. rewrite Hn.
  unfold resolved in Hu. apply orb_false_iff in Hu as [Hh Hm].
  cbn [List.filter]. rewrite Hh, Hm. reflexivity.
Qed.

Lemma instruction_follows_first_active_witness :
  Forall fresh plainChart
  /\ App.gameStatus (app (run (start plainChart) (correctHits 1))) = PLAYING
  /\ match GameScene.activeNotesRef
             (GameScene.spawnLoop
                (length (GameScene.notesState
                           (scene (run (start plainChart) (correctHits 1))))
                 - GameScene.nextNoteIndexRef
                     (scene (run (start plainChart) (correctHits 1))))
                (Audio.currentTime lateAudio)
                (GameScene.setCurrentTime (Audio.currentTime lateAudio)
                   (scene (run (start plainChart) (correctHits 1))))) with
     | [] => App.instruction
               (app (step (run (start plainChart) (correctHits 1))
                       (Frame (Some lateAudio) noHands)))
             = App.instruction (app (run (start plainChart) (correctHits 1)))
     | r :: _ =>
         exists n,
           GameScene.notesState (scene (run (start plainChart) (correctHits 1))) !! r
           = Some n
           /\ resolved n = false
           /\ App.instruction
                (app (step (run (start plainChart) (correctHits 1))
                        (Frame (Some lateAudio) noHands)))
              = instruction n
     end.
Proof.
  assert (Hf : Forall fresh plainChart)
    by (apply generateChart_fresh; intros l r; apply sort_random_perm).
  assert (Hp : App.gameStatus (app (run (start plainChart) (correctHits 1))) = PLAYING)
    by (vm_compute; reflexivity).
  split; [exact Hf|]. split; [exact Hp|].
  exact (instruction_follows_first_active plainChart (correctHits 1) lateAudio noHands
           Hf Hp eq_refl).
Defined.

End InstructionExtras.
